(** * htable: a chained hash table over opaque keys and values

    A shallow embedding of [src/htable.c].  The repository carries two
    implementations of the same interface:

    - the hash _table_ (module [Table]): [htable_keq_t] equality hook,
      copy/free callbacks, status codes [-1]/[-2], defensive NULL checks;
    - the hash _map_ (module [Map]): [comp_func_t] comparator, raw pointer
      storage, [assert]-based preconditions.

    Pointers are integers with [NULL = 0].  Chain nodes live in a heap
    indexed by address; table structures live in a second store indexed
    by address, the bucket array being held inline in the structure.
    Every function runs in a state-and-fault monad over that world.

    The hash, equality and copy hooks are functions of their arguments;
    the free hooks are opaque, and each call to one is recorded in a
    log.  [malloc] and [calloc] answer from a script carried by the
    world, so that failure and the stale contents of a block are inputs.
    Loops over chains take a budget of iterations, since a chain that is
    not null-terminated keeps the C code running for ever.

    The later sections read a bucket chain as an association list,
    follow the table along whole runs of operations, set the map beside
    the table, and run the helpers and the first two tests of the unit
    test driver against the table. *)

From stdpp Require Import base gmap list.
From Stdlib Require Import ZArith Lia.

Local Open Scope Z_scope.

(** ** Pointers, nodes and the heap *)

Definition ptr := Z.
Definition NULL : ptr := 0.

(** [struct htable_node] (the map calls the same layout [hnode_t]). *)
Record htable_node := Node { key : ptr; value : ptr; next : ptr }.

Definition set_key (n : htable_node) (x : ptr) : htable_node :=
  {| key := x; value := value n; next := next n |}.
Definition set_value (n : htable_node) (x : ptr) : htable_node :=
  {| key := key n; value := x; next := next n |}.
Definition set_next (n : htable_node) (x : ptr) : htable_node :=
  {| key := key n; value := value n; next := x |}.

(** [unsigned long] and [size_t] are taken as 64-bit. *)
Definition ULONG_MOD : Z := 2 ^ 64.

(** ** Faults, events and the allocator *)

(** What the C standard leaves undefined and the code can run into. *)
Inductive undefined :=
| NullDeref      (* dereference of NULL *)
| WildDeref      (* dereference of an address that holds no live object *)
| NullCall       (* call through a NULL function pointer *)
| DivByZero      (* [% 0] *)
| OutOfBounds.   (* bucket index outside the array *)

Inductive res (A : Type) :=
| Ok (a : A)
| Undefined (u : undefined)
| AssertFail          (* [assert] aborted the program *)
| OutOfFuel.          (* the loop budget of the model ran out *)
Arguments Ok {A} a.
Arguments Undefined {A} u.
Arguments AssertFail {A}.
Arguments OutOfFuel {A}.

(** A free hook is a function pointer to code outside the library: the
    default no-op of the library or a function of the caller, named by
    its address. *)
Inductive htable_free_t :=
| htable_default_free
| extern_free (fn : Z).

(** Calls that leave the library, in program order. *)
Inductive event :=
| Call_kfree (f : htable_free_t) (arg : ptr)
| Call_vfree (f : htable_free_t) (arg : ptr)
| Free_node (p : ptr)
| Free_array (t : ptr)
| Free_table (t : ptr).

(** One answer of [malloc]/[calloc]: failure, or a block at address [p]
    whose bytes, read as a node, are [junk] ([calloc] clears them). *)
Inductive alloc :=
| AFail
| ABlock (p : ptr) (junk : htable_node).

Record world (T : Type) := World {
  mem : gmap Z htable_node;     (* live chain nodes *)
  tabs : gmap Z T;              (* live table structures *)
  log : list event;             (* calls out of the library so far *)
  script : list alloc           (* what the allocator will answer next *)
}.
Arguments World {T} _ _ _ _.
Arguments mem {T} _.
Arguments tabs {T} _.
Arguments log {T} _.
Arguments script {T} _.

(** ** The monad *)

Definition M (T A : Type) : Type := world T -> res (A * world T).

Definition ret {T A} (a : A) : M T A := fun w => Ok (a, w).

Definition bind {T A B} (m : M T A) (f : A -> M T B) : M T B :=
  fun w => match m w with
           | Ok (a, w') => f a w'
           | Undefined u => Undefined u
           | AssertFail => AssertFail
           | OutOfFuel => OutOfFuel
           end.

Definition undef {T A} (u : undefined) : M T A := fun _ => Undefined u.
Definition out_of_fuel {T A} : M T A := fun _ => OutOfFuel.

Declare Scope htable_scope.
Delimit Scope htable_scope with htable.
Notation "x <- m ;; f" := (bind m (fun x => f))
  (at level 100, m at next level, right associativity) : htable_scope.
Notation "m ;; f" := (bind m (fun _ => f))
  (at level 100, right associativity) : htable_scope.
Local Open Scope htable_scope.

(** [assert(b)] with assertions enabled, as the Makefile builds. *)
Definition assert {T} (b : bool) : M T unit :=
  fun w => if b then Ok (tt, w) else AssertFail.

(** [*p] for a node pointer. *)
Definition load {T} (p : ptr) : M T htable_node :=
  fun w => if p =? NULL then Undefined NullDeref
           else match mem w !! p with
                | Some n => Ok (n, w)
                | None => Undefined WildDeref
                end.

(** [*p = n] for a node pointer. *)
Definition store {T} (p : ptr) (n : htable_node) : M T unit :=
  fun w => Ok (tt, World (<[p := n]> (mem w)) (tabs w) (log w) (script w)).

(** [p->key = x], [p->value = x], [p->next = x]. *)
Definition store_key {T} (p x : ptr) : M T unit :=
  n <- load p ;; store p (set_key n x).
Definition store_value {T} (p x : ptr) : M T unit :=
  n <- load p ;; store p (set_value n x).
Definition store_next {T} (p x : ptr) : M T unit :=
  n <- load p ;; store p (set_next n x).

Definition emit {T} (e : event) : M T unit :=
  fun w => Ok (tt, World (mem w) (tabs w) (log w ++ [e]) (script w)).

(** [malloc(sizeof(struct htable_node))]: the next answer of the
    allocator; an exhausted script is an exhausted allocator, and so is
    a block at address 0. *)
Definition malloc {T} : M T ptr :=
  fun w => match script w with
           | ABlock p junk :: rest =>
               if p =? NULL then Ok (NULL, World (mem w) (tabs w) (log w) rest)
               else Ok (p, World (<[p := junk]> (mem w)) (tabs w) (log w) rest)
           | AFail :: rest => Ok (NULL, World (mem w) (tabs w) (log w) rest)
           | [] => Ok (NULL, w)
           end.

(** [free(p)] for a node pointer already dereferenced by the caller. *)
Definition free {T} (p : ptr) : M T unit :=
  fun w => Ok (tt, World (delete p (mem w)) (tabs w) (log w ++ [Free_node p]) (script w)).

(** [*t] for a table pointer. *)
Definition load_table {T} (t : ptr) : M T T :=
  fun w => if t =? NULL then Undefined NullDeref
           else match tabs w !! t with
                | Some s => Ok (s, w)
                | None => Undefined WildDeref
                end.

Definition store_table {T} (t : ptr) (s : T) : M T unit :=
  fun w => Ok (tt, World (mem w) (<[t := s]> (tabs w)) (log w) (script w)).

(** [free(t)] for a table pointer. *)
Definition free_table {T} (t : ptr) : M T unit :=
  fun w => Ok (tt, World (mem w) (delete t (tabs w)) (log w ++ [Free_table t]) (script w)).

(** Allocation of a table structure whose bytes read as [init]; NULL
    on failure. *)
Definition alloc_table {T} (init : T) : M T ptr :=
  fun w => match script w with
           | ABlock p _ :: rest =>
               if p =? NULL then Ok (NULL, World (mem w) (tabs w) (log w) rest)
               else Ok (p, World (mem w) (<[p := init]> (tabs w)) (log w) rest)
           | AFail :: rest => Ok (NULL, World (mem w) (tabs w) (log w) rest)
           | [] => Ok (NULL, w)
           end.

(** [sizeof] of a node pointer. *)
Definition PTR_SIZE : Z := 8.

(** [calloc(n, PTR_SIZE)]: a cleared array of [n]
    slots; [None] is the NULL answer, which is also the answer when
    [n * PTR_SIZE] does not fit [size_t]. *)
Definition calloc_buckets {T} (n : Z) : M T (option (list ptr)) :=
  fun w => match script w with
           | ABlock p _ :: rest =>
               if (p =? NULL) || negb (n * PTR_SIZE <? ULONG_MOD)
               then Ok (None, World (mem w) (tabs w) (log w) rest)
               else Ok (Some (replicate (Z.to_nat n) NULL),
                        World (mem w) (tabs w) (log w) rest)
           | AFail :: rest => Ok (None, World (mem w) (tabs w) (log w) rest)
           | [] => Ok (None, w)
           end.

(** [malloc(bytes)] for a bucket array: [bytes / PTR_SIZE] slots of
    whatever the block held. *)
Definition malloc_buckets {T} (bytes : Z) : M T (option (list ptr)) :=
  fun w => match script w with
           | ABlock p junk :: rest =>
               if p =? NULL then Ok (None, World (mem w) (tabs w) (log w) rest)
               else Ok (Some (replicate (Z.to_nat (bytes / PTR_SIZE)) (next junk)),
                        World (mem w) (tabs w) (log w) rest)
           | AFail :: rest => Ok (None, World (mem w) (tabs w) (log w) rest)
           | [] => Ok (None, w)
           end.

(** [memset(arr, 0, bytes)] on a bucket array of at least [bytes] bytes. *)
Definition memset_zero (arr : list ptr) (bytes : Z) : list ptr :=
  replicate (Z.to_nat (bytes / PTR_SIZE)) NULL
  ++ drop (Z.to_nat (bytes / PTR_SIZE)) arr.

(** [arr[idx]]. *)
Definition bucket_at {T} (arr : list ptr) (idx : Z) : M T ptr :=
  match arr !! Z.to_nat idx with
  | Some p => ret p
  | None => undef OutOfBounds
  end.

(** [f(args)] through a possibly NULL function pointer. *)
Definition fnptr {T F} (f : option F) : M T F :=
  match f with
  | Some g => ret g
  | None => undef NullCall
  end.

(** ** The hash table (first implementation of [src/htable.c])

    A parameter that shares its name with a structure field carries a
    prime ([table'], [key'], [value'], ...). *)

Module Table.

Definition htable_hash_t := ptr -> Z.
Definition htable_keq_t := ptr -> ptr -> Z.
Definition htable_cpy_t := ptr -> ptr.

Record callbacks := Callbacks {
  kcpy : option htable_cpy_t;
  vcpy : option htable_cpy_t;
  kfree : option htable_free_t;
  vfree : option htable_free_t
}.

(** [htable_t]; [table] is [None] for a NULL bucket array. *)
Record htable_t := Htable {
  table : option (list ptr);
  size : Z;
  count : Z;
  hash : option htable_hash_t;
  keq : option htable_keq_t;
  cbs : callbacks
}.

(** What [calloc] hands back: every field cleared. *)
Definition zeroed : htable_t :=
  Htable None 0 0 None None (Callbacks None None None None).

Definition set_table (s : htable_t) (a : option (list ptr)) : htable_t :=
  Htable a (size s) (count s) (hash s) (keq s) (cbs s).
Definition set_size (s : htable_t) (n : Z) : htable_t :=
  Htable (table s) n (count s) (hash s) (keq s) (cbs s).
Definition set_hash (s : htable_t) (h : option htable_hash_t) : htable_t :=
  Htable (table s) (size s) (count s) h (keq s) (cbs s).
Definition set_keq (s : htable_t) (q : option htable_keq_t) : htable_t :=
  Htable (table s) (size s) (count s) (hash s) q (cbs s).
Definition set_cbs (s : htable_t) (c : callbacks) : htable_t :=
  Htable (table s) (size s) (count s) (hash s) (keq s) c.

Definition W := world htable_t.

(** [static size_t get_hash (const htable_t *table, const void *key)] *)
Definition get_hash (table' key' : ptr) : M htable_t Z :=
  s <- load_table table' ;;
  h <- fnptr (hash s) ;;
  if size s =? 0 then undef DivByZero
  else ret ((h key' mod ULONG_MOD) mod size s).

Definition htable_default_copy (src : ptr) : ptr := src.

(** [table->cbs.kfree(p)] and [table->cbs.vfree(p)]. *)
Definition call_kfree (s : htable_t) (p : ptr) : M htable_t unit :=
  f <- fnptr (kfree (cbs s)) ;; emit (Call_kfree f p).
Definition call_vfree (s : htable_t) (p : ptr) : M htable_t unit :=
  f <- fnptr (vfree (cbs s)) ;; emit (Call_vfree f p).

(** [x ? x : dflt] on a function pointer. *)
Definition or_default {F} (x : option F) (dflt : option F) : option F :=
  match x with Some _ => x | None => dflt end.

(** [htable_t *htable_create (size_t size, htable_hash_t hash,
    htable_keq_t keq, const struct callbacks *cbs)] *)
Definition htable_create (size' : Z) (hash' : option htable_hash_t)
    (keq' : option htable_keq_t) (cbs' : option callbacks) : M htable_t ptr :=
  if (size' =? 0) || negb (bool_decide (is_Some hash'))
                  || negb (bool_decide (is_Some keq'))
  then ret NULL
  else
    table' <- alloc_table zeroed ;;
    if table' =? NULL then ret NULL
    else
      arr <- calloc_buckets size' ;;
      match arr with
      | None => free_table table' ;; ret NULL
      | Some _ =>
          s <- load_table table' ;;
          let s := set_table s arr in
          let s := set_size s size' in
          let s := set_hash s hash' in
          let s := set_keq s keq' in
          let dflt :=
            Callbacks (Some htable_default_copy) (Some htable_default_copy)
                      (Some htable_default_free) (Some htable_default_free) in
          let s := set_cbs s dflt in
          let s :=
            match cbs' with
            | Some u =>
                set_cbs s
                  (Callbacks (or_default (kcpy u) (kcpy (cbs s)))
                             (or_default (vcpy u) (vcpy (cbs s)))
                             (or_default (kfree u) (kfree (cbs s)))
                             (or_default (vfree u) (vfree (cbs s))))
            | None => s
            end in
          store_table table' s ;;
          ret table'
      end.

(** The [do { ... } while (current != NULL)] of [htable_destroy] over
    one bucket. *)
Fixpoint destroy_chain (fuel : nat) (s : htable_t) (current : ptr)
    : M htable_t unit :=
  match fuel with
  | O => out_of_fuel
  | S fuel' =>
      c <- load current ;;
      let next' := next c in
      call_kfree s (key c) ;;
      call_vfree s (value c) ;;
      free current ;;
      if negb (next' =? NULL) then destroy_chain fuel' s next'
      else ret tt
  end.

(** The [for (idx = 0; idx < table->size; idx++)] of [htable_destroy],
    with [todo] iterations left. *)
Fixpoint destroy_buckets (fuel : nat) (table' : ptr) (todo : nat) (idx : Z)
    : M htable_t unit :=
  match todo with
  | O => ret tt
  | S todo' =>
      s <- load_table table' ;;
      match table s with
      | None => undef NullDeref
      | Some arr =>
          current <- bucket_at arr idx ;;
          destroy_chain fuel s current ;;
          destroy_buckets fuel table' todo' (idx + 1)
      end
  end.

(** [void htable_destroy (htable_t *table)] *)
Definition htable_destroy (fuel : nat) (table' : ptr) : M htable_t unit :=
  if table' =? NULL then ret tt
  else
    s <- load_table table' ;;
    match table s with
    | None => ret tt
    | Some _ =>
        destroy_buckets fuel table' (Z.to_nat (size s)) 0 ;;
        emit (Free_array table') ;;
        free_table table'
    end.

(** The [do { ... } while (current != NULL)] of [htable_insert]:
    [inl r] when the body returned [r], [inr prev] when the chain ran
    out. *)
Fixpoint insert_scan (fuel : nat) (s : htable_t) (key' value' : ptr)
    (current : ptr) : M htable_t (Z + ptr) :=
  match fuel with
  | O => out_of_fuel
  | S fuel' =>
      c <- load current ;;
      q <- fnptr (keq s) ;;
      if negb (q (key c) key' =? 0) then
        call_vfree s (value c) ;;
        cp <- fnptr (vcpy (cbs s)) ;;
        store_value current (cp value') ;;
        ret (inl 0)
      else
        let prev := current in
        let current := next c in
        if negb (current =? NULL) then insert_scan fuel' s key' value' current
        else ret (inr prev)
  end.

(** [table->table[idx] = p]. *)
Definition store_bucket (table' : ptr) (idx : Z) (p : ptr) : M htable_t unit :=
  s <- load_table table' ;;
  match table s with
  | None => undef NullDeref
  | Some arr =>
      if bool_decide (Z.to_nat idx < length arr)%nat
      then store_table table' (set_table s (Some (<[Z.to_nat idx := p]> arr)))
      else undef OutOfBounds
  end.

(** [int htable_insert (htable_t *table, const void *key, const void *value)] *)
Definition htable_insert (fuel : nat) (table' key' value' : ptr) : M htable_t Z :=
  if table' =? NULL then ret (-1)
  else
    s <- load_table table' ;;
    match table s with
    | None => ret (-1)
    | Some arr =>
        if value' =? NULL then ret (-1)
        else
          hashed_key <- get_hash table' key' ;;
          current <- bucket_at arr hashed_key ;;
          if current =? NULL then
            new_node <- malloc ;;
            if new_node =? NULL then ret (-2)
            else
              kc <- fnptr (kcpy (cbs s)) ;;
              store_key new_node (kc key') ;;
              vc <- fnptr (vcpy (cbs s)) ;;
              store_value new_node (vc value') ;;
              store_next new_node NULL ;;
              store_bucket table' hashed_key new_node ;;
              ret 0
          else
            r <- insert_scan fuel s key' value' current ;;
            match r with
            | inl code => ret code
            | inr prev =>
                new_node <- malloc ;;
                if new_node =? NULL then ret (-2)
                else
                  kc <- fnptr (kcpy (cbs s)) ;;
                  store_key new_node (kc key') ;;
                  vc <- fnptr (vcpy (cbs s)) ;;
                  store_value new_node (vc value') ;;
                  store_next prev new_node ;;
                  ret 0
            end
    end.

(** The [while (current != NULL)] of [htable_remove]. *)
Fixpoint remove_scan (fuel : nat) (table' : ptr) (s : htable_t) (key' : ptr)
    (hashed_key : Z) (current prev : ptr) : M htable_t Z :=
  match fuel with
  | O => out_of_fuel
  | S fuel' =>
      if negb (current =? NULL) then
        c <- load current ;;
        q <- fnptr (keq s) ;;
        if negb (q (key c) key' =? 0) then
          (if prev =? NULL then store_bucket table' hashed_key (next c)
           else store_next prev (next c)) ;;
          call_kfree s (key c) ;;
          call_vfree s (value c) ;;
          free current ;;
          ret 0
        else remove_scan fuel' table' s key' hashed_key (next c) current
      else ret (-1)
  end.

(** [int htable_remove (htable_t *table, const void *key)] *)
Definition htable_remove (fuel : nat) (table' key' : ptr) : M htable_t Z :=
  if table' =? NULL then ret (-1)
  else
    s <- load_table table' ;;
    match table s with
    | None => ret (-1)
    | Some arr =>
        hashed_key <- get_hash table' key' ;;
        current <- bucket_at arr hashed_key ;;
        remove_scan fuel table' s key' hashed_key current NULL
    end.

(** The [while (current != NULL)] of [htable_get]. *)
Fixpoint get_scan (fuel : nat) (s : htable_t) (key' : ptr) (current : ptr)
    : M htable_t ptr :=
  match fuel with
  | O => out_of_fuel
  | S fuel' =>
      if negb (current =? NULL) then
        c <- load current ;;
        q <- fnptr (keq s) ;;
        if negb (q (key c) key' =? 0) then ret (value c)
        else get_scan fuel' s key' (next c)
      else ret NULL
  end.

(** [void *htable_get (htable_t *table, const void *key)] *)
Definition htable_get (fuel : nat) (table' key' : ptr) : M htable_t ptr :=
  if table' =? NULL then ret NULL
  else
    s <- load_table table' ;;
    match table s with
    | None => ret NULL
    | Some arr =>
        hashed_key <- get_hash table' key' ;;
        current <- bucket_at arr hashed_key ;;
        get_scan fuel s key' current
    end.


(** A caller's use of a table: any run of inserts, removes and gets. *)
Inductive op :=
| Op_insert (key' value' : ptr)
| Op_remove (key' : ptr)
| Op_get (key' : ptr).

Definition run_op (fuel : nat) (table' : ptr) (o : op) : M htable_t unit :=
  match o with
  | Op_insert key' value' => htable_insert fuel table' key' value' ;; ret tt
  | Op_remove key' => htable_remove fuel table' key' ;; ret tt
  | Op_get key' => htable_get fuel table' key' ;; ret tt
  end.

Fixpoint run_ops (fuel : nat) (table' : ptr) (os : list op) : M htable_t unit :=
  match os with
  | [] => ret tt
  | o :: os' => run_op fuel table' o ;; run_ops fuel table' os'
  end.

End Table.

(** ** The hash map (second implementation of [src/htable.c]) *)

Module Map.

Definition hash_func_t := ptr -> Z.
Definition comp_func_t := ptr -> ptr -> Z.
Definition hnode_t := htable_node.

(** [htable_t] of the map: no element count, no callbacks. *)
Record htable_t := Hmap {
  table : option (list ptr);
  size : Z;
  hash : option hash_func_t;
  comp : option comp_func_t
}.

(** The bytes of a fresh [malloc] block read as a structure; every
    field is assigned before [htable_create] hands the block out. *)
Definition indeterminate : htable_t := Hmap None 0 None None.

Definition set_table (s : htable_t) (a : option (list ptr)) : htable_t :=
  Hmap a (size s) (hash s) (comp s).
Definition set_size (s : htable_t) (n : Z) : htable_t :=
  Hmap (table s) n (hash s) (comp s).
Definition set_hash (s : htable_t) (h : option hash_func_t) : htable_t :=
  Hmap (table s) (size s) h (comp s).
Definition set_comp (s : htable_t) (c : option comp_func_t) : htable_t :=
  Hmap (table s) (size s) (hash s) c.

(** [static inline size_t get_hash (const htable_t *map, const void *key)] *)
Definition get_hash (map key' : ptr) : M htable_t Z :=
  s <- load_table map ;;
  h <- fnptr (hash s) ;;
  if size s =? 0 then undef DivByZero
  else ret ((h key' mod ULONG_MOD) mod size s).

(** [htable_t *htable_create (size_t size, hash_func_t hash, comp_func_t comp)] *)
Definition htable_create (size' : Z) (hash' : option hash_func_t)
    (comp' : option comp_func_t) : M htable_t ptr :=
  assert (0 <? size') ;;
  map <- alloc_table indeterminate ;;
  if map =? NULL then ret NULL
  else
    arr <- malloc_buckets ((size' * PTR_SIZE) mod ULONG_MOD) ;;
    s <- load_table map ;;
    store_table map (set_table s arr) ;;
    match arr with
    | None => free_table map ;; ret NULL
    | Some a =>
        s <- load_table map ;;
        let s := set_table s (Some (memset_zero a ((size' * PTR_SIZE) mod ULONG_MOD))) in
        let s := set_size s size' in
        let s := set_hash s hash' in
        let s := set_comp s comp' in
        store_table map s ;;
        ret map
    end.

(** [void htable_destroy (htable_t *map)]: the chains are not walked. *)
Definition htable_destroy (map : ptr) : M htable_t unit :=
  assert (negb (map =? NULL)) ;;
  if map =? NULL then ret tt
  else
    s <- load_table map ;;
    (match table s with
     | Some _ => emit (Free_array map)
     | None => ret tt
     end) ;;
    free_table map.

(** [map->table[idx] = p]. *)
Definition store_bucket (map : ptr) (idx : Z) (p : ptr) : M htable_t unit :=
  s <- load_table map ;;
  match table s with
  | None => undef NullDeref
  | Some arr =>
      if bool_decide (Z.to_nat idx < length arr)%nat
      then store_table map (set_table s (Some (<[Z.to_nat idx := p]> arr)))
      else undef OutOfBounds
  end.

(** The [do { ... } while (current != NULL)] of [htable_insert]. *)
Fixpoint insert_scan (fuel : nat) (s : htable_t) (key' value' : ptr)
    (current : ptr) : M htable_t (Z + ptr) :=
  match fuel with
  | O => out_of_fuel
  | S fuel' =>
      c <- load current ;;
      cmp <- fnptr (comp s) ;;
      if cmp (key c) key' =? 0 then
        store_value current value' ;;
        ret (inl 0)
      else
        let prev := current in
        let current := next c in
        if negb (current =? NULL) then insert_scan fuel' s key' value' current
        else ret (inr prev)
  end.

(** [int htable_insert (htable_t *map, const void *key, const void *value)] *)
Definition htable_insert (fuel : nat) (map key' value' : ptr) : M htable_t Z :=
  assert (negb (map =? NULL)) ;;
  s <- load_table map ;;
  assert (bool_decide (is_Some (table s)) && negb (value' =? NULL)) ;;
  hashed_key <- get_hash map key' ;;
  match table s with
  | None => undef NullDeref
  | Some arr =>
      current <- bucket_at arr hashed_key ;;
      if current =? NULL then
        new_node <- malloc ;;
        if new_node =? NULL then ret (-1)
        else
          store_key new_node key' ;;
          store_value new_node value' ;;
          store_next new_node NULL ;;
          store_bucket map hashed_key new_node ;;
          ret 0
      else
        r <- insert_scan fuel s key' value' current ;;
        match r with
        | inl code => ret code
        | inr prev =>
            new_node <- malloc ;;
            if new_node =? NULL then ret (-1)
            else
              store_key new_node key' ;;
              store_value new_node value' ;;
              store_next prev new_node ;;
              ret 0
        end
  end.

(** The [while (current != NULL)] of [htable_remove]. *)
Fixpoint remove_scan (fuel : nat) (map : ptr) (s : htable_t) (key' : ptr)
    (hashed_key : Z) (current prev : ptr) : M htable_t Z :=
  match fuel with
  | O => out_of_fuel
  | S fuel' =>
      if negb (current =? NULL) then
        c <- load current ;;
        cmp <- fnptr (comp s) ;;
        if cmp (key c) key' =? 0 then
          (if prev =? NULL then store_bucket map hashed_key (next c)
           else store_next prev (next c)) ;;
          free current ;;
          ret 0
        else remove_scan fuel' map s key' hashed_key (next c) current
      else ret (-1)
  end.

(** [int htable_remove (htable_t *map, const void *key)] *)
Definition htable_remove (fuel : nat) (map key' : ptr) : M htable_t Z :=
  assert (negb (map =? NULL)) ;;
  s <- load_table map ;;
  assert (bool_decide (is_Some (table s))) ;;
  hashed_key <- get_hash map key' ;;
  match table s with
  | None => undef NullDeref
  | Some arr =>
      current <- bucket_at arr hashed_key ;;
      remove_scan fuel map s key' hashed_key current NULL
  end.

(** The [while (current != NULL)] of [htable_get]. *)
Fixpoint get_scan (fuel : nat) (s : htable_t) (key' : ptr) (current : ptr)
    : M htable_t ptr :=
  match fuel with
  | O => out_of_fuel
  | S fuel' =>
      if negb (current =? NULL) then
        c <- load current ;;
        cmp <- fnptr (comp s) ;;
        if cmp (key c) key' =? 0 then ret (value c)
        else get_scan fuel' s key' (next c)
      else ret NULL
  end.

(** [void *htable_get (htable_t *map, const void *key)] *)
Definition htable_get (fuel : nat) (map key' : ptr) : M htable_t ptr :=
  assert (negb (map =? NULL)) ;;
  s <- load_table map ;;
  assert (bool_decide (is_Some (table s))) ;;
  hashed_key <- get_hash map key' ;;
  match table s with
  | None => undef NullDeref
  | Some arr =>
      current <- bucket_at arr hashed_key ;;
      get_scan fuel s key' current
  end.

End Map.

(** ** Chains and live tables *)

(** A chain is the list of its nodes with their addresses. *)
Definition chain := list (ptr * htable_node).

(** [lseg h p l q]: following [next] from [p] in heap [h] visits exactly
    the nodes [l] and then reaches [q]. *)
Fixpoint lseg (h : gmap Z htable_node) (p : ptr) (l : chain) (q : ptr) : Prop :=
  match l with
  | [] => p = q
  | (a, n) :: l' => p = a /\ a <> NULL /\ h !! a = Some n /\ lseg h (next n) l' q
  end.

(** The bucket a key is sent to: [hash(key) % size]. *)
Definition bucket_of (hf : ptr -> Z) (size : Z) (k : ptr) : Z :=
  (hf k mod ULONG_MOD) mod size.

(** Every allocated node belongs to one of the chains [cs]. *)
Definition owned (h : gmap Z htable_node) (cs : list chain) : Prop :=
  forall a n, h !! a = Some n -> exists i l, cs !! i = Some l /\ (a, n) ∈ l.

(** Every node sits in the bucket its key hashes to. *)
Definition placed (hf : ptr -> Z) (size : Z) (cs : list chain) : Prop :=
  forall (i : nat) l a n, cs !! i = Some l -> (a, n) ∈ l ->
    bucket_of hf size (key n) = Z.of_nat i.

(** No two allocated nodes carry keys that [same] relates. *)
Definition uniq_keys (same : ptr -> ptr -> Prop) (h : gmap Z htable_node) : Prop :=
  forall a1 n1 a2 n2, h !! a1 = Some n1 -> h !! a2 = Some n2 ->
    same (key n1) (key n2) -> a1 = a2.

(** Nothing on the chain answers non-zero to [keq (key n) k]. *)
Definition no_match (q : ptr -> ptr -> Z) (k : ptr) (l : chain) : Prop :=
  Forall (fun an : ptr * htable_node => q (key an.2) k = 0) l.

(** The allocator does not hand out an address that is in use. *)
Definition fresh_script {T} (w : world T) : Prop :=
  forall p junk rest, script w = ABlock p junk :: rest -> mem w !! p = None.

(** The element counts of all table structures agree in [w] and [w']. *)
Definition same_counts (w w' : world Table.htable_t) : Prop :=
  forall t0, Table.count <$> (tabs w' !! t0) = Table.count <$> (tabs w !! t0).

(** The chains [cs] share no node. *)
Definition disjoint (cs : list chain) : Prop := NoDup (concat cs).*1.

(** The heap once every node of [l] is freed, first to last. *)
Definition free_all (l : chain) (h : gmap Z htable_node) : gmap Z htable_node :=
  foldl (fun h an => delete an.1 h) h l.

(** What [htable_destroy] logs while it walks the chain [l]. *)
Definition destroy_log (kf vf : htable_free_t) (l : chain) : list event :=
  flat_map (fun an : ptr * htable_node =>
              [Call_kfree kf (key an.2); Call_vfree vf (value an.2); Free_node an.1]) l.

(** The number of key-free and of value-free calls in a log. *)
Definition is_kfree (e : event) : bool :=
  match e with Call_kfree _ _ => true | _ => false end.
Definition is_vfree (e : event) : bool :=
  match e with Call_vfree _ _ => true | _ => false end.
Definition kfree_calls (lg : list event) : nat := length (List.filter is_kfree lg).
Definition vfree_calls (lg : list event) : nat := length (List.filter is_vfree lg).

(** The allocator's next block, if any, comes with a cleared link. *)
Definition clean_script {T} (w : world T) : Prop :=
  forall p junk rest, script w = ABlock p junk :: rest -> next junk = NULL.

(** The allocator has no block to give. *)
Definition alloc_fails {T} (w : world T) : Prop :=
  match script w with
  | ABlock p _ :: _ => p = NULL
  | _ => True
  end.

(** The longest chain of [cs] is shorter than [fuel]. *)
Definition enough (fuel : nat) (cs : list chain) : Prop :=
  Forall (fun l : chain => (length l < fuel)%nat) cs.

Module TableInv.
Import Table.

(** The equality of the table: [keq] answers non-zero. *)
Definition same (q : htable_keq_t) (a b : ptr) : Prop := q a b <> 0.

(** The hooks a structure carries. *)
Record hooks (s : htable_t) (hf : htable_hash_t) (q : htable_keq_t)
    (kc vc : htable_cpy_t) (kf vf : htable_free_t) : Prop := {
  hooks_hash : hash s = Some hf;
  hooks_keq : keq s = Some q;
  hooks_kcpy : kcpy (cbs s) = Some kc;
  hooks_vcpy : vcpy (cbs s) = Some vc;
  hooks_kfree : kfree (cbs s) = Some kf;
  hooks_vfree : vfree (cbs s) = Some vf
}.

(** The bucket index of [k] as a list position. *)
Definition slot (s : htable_t) (hf : htable_hash_t) (k : ptr) : nat :=
  Z.to_nat (bucket_of hf (size s) k).

(** The callbacks [htable_create] installs for a policy [cbs']. *)
Definition installed (cbs' : option callbacks) : callbacks :=
  let dflt :=
    Callbacks (Some htable_default_copy) (Some htable_default_copy)
              (Some htable_default_free) (Some htable_default_free) in
  match cbs' with
  | Some u =>
      Callbacks (or_default (kcpy u) (kcpy dflt)) (or_default (vcpy u) (vcpy dflt))
                (or_default (kfree u) (kfree dflt)) (or_default (vfree u) (vfree dflt))
  | None => dflt
  end.

(** The structure a successful [htable_create] leaves behind. *)
Definition created (C : Z) (hf : htable_hash_t) (q : htable_keq_t)
    (cbs' : option callbacks) : htable_t :=
  Htable (Some (replicate (Z.to_nat C) NULL)) C 0 (Some hf) (Some q)
         (installed cbs').

(** The structure [s] at [t] is initialised and its bucket array is
    [heads]. *)
Record shape (w : W) (t : ptr) (s : htable_t) (heads : list ptr) : Prop := {
  shape_ptr : t <> NULL;
  shape_tab : tabs w !! t = Some s;
  shape_arr : table s = Some heads;
  shape_size : size s = Z.of_nat (length heads);
  shape_pos : 0 < size s
}.

(** A live table at [t]: its buckets hold the null-terminated chains
    [cs]. *)
Definition live (w : W) (t : ptr) (s : htable_t) (heads : list ptr)
    (cs : list chain) : Prop :=
  shape w t s heads /\
  Forall2 (fun head l => lseg (mem w) head l NULL) heads cs.

(** What the operations are meant to keep: live chains that own the
    heap, every node in the bucket of its key, no key twice. *)
Definition invariant (hf : htable_hash_t) (q : htable_keq_t) (w : W) (t : ptr)
    (s : htable_t) (heads : list ptr) (cs : list chain) : Prop :=
  live w t s heads cs /\ owned (mem w) cs /\ placed hf (size s) cs /\
  uniq_keys (same q) (mem w).
End TableInv.

Module MapInv.
Import Map.

(** The equality of the map: [comp] answers zero. *)
Definition same (cmp : comp_func_t) (a b : ptr) : Prop := cmp a b = 0.

(** Nothing on the chain answers zero to [comp (key n) k]. *)
Definition no_match (cmp : comp_func_t) (k : ptr) (l : chain) : Prop :=
  Forall (fun an : ptr * htable_node => cmp (key an.2) k <> 0) l.

(** The bucket index of [k] as a list position. *)
Definition slot (s : htable_t) (hf : hash_func_t) (k : ptr) : nat :=
  Z.to_nat (bucket_of hf (size s) k).

Record shape (w : world htable_t) (t : ptr) (s : htable_t)
    (heads : list ptr) : Prop := {
  shape_ptr : t <> NULL;
  shape_tab : tabs w !! t = Some s;
  shape_arr : table s = Some heads;
  shape_size : size s = Z.of_nat (length heads);
  shape_pos : 0 < size s
}.

Definition live (w : world htable_t) (t : ptr) (s : htable_t)
    (heads : list ptr) (cs : list chain) : Prop :=
  shape w t s heads /\
  Forall2 (fun head l => lseg (mem w) head l NULL) heads cs.
End MapInv.

(** ** A worked table

    Two buckets, identity hash, [keq] answering 1 on identical keys,
    passthrough callbacks.  Bucket 0 chains the keys 2 and 4, bucket 1
    is empty; the allocator's next block sits at 14 and still holds a
    stale link to 10. *)

Module Demo.
Import Table TableInv.

Definition hf : htable_hash_t := fun k => k.
Definition q : htable_keq_t := fun a b => if a =? b then 1 else 0.
Definition kf : htable_free_t := htable_default_free.

Definition n10 : htable_node := Node 2 20 12.
Definition n12 : htable_node := Node 4 40 0.
Definition heads : list ptr := [10; 0].
Definition cs : list chain := [[(10, n10); (12, n12)]; []].

Definition s : htable_t :=
  Htable (Some heads) 2 0 (Some hf) (Some q) (installed None).

Definition t : ptr := 100.

Definition w : W :=
  World (<[10 := n10]> (<[12 := n12]> ∅)) (<[t := s]> ∅) []
        [ABlock 14 (Node 0 0 10)].

(** The same table when the allocator has nothing left. *)
Definition w_nomem : W := World (mem w) (tabs w) [] [AFail].

(** The same table when its [keq] is a comparator that answers the
    difference of the keys, as the unit tests pass it. *)
Definition cmp : htable_keq_t := fun a b => a - b.
Definition s_cmp : htable_t :=
  Htable (Some heads) 2 0 (Some hf) (Some cmp) (installed None).

(** The worked table once key 6 is appended into the stale block. *)
Definition w_cyclic : W :=
  World (<[12 := set_next n12 14]> (<[14 := Node 6 60 10]> (mem w)))
        (tabs w) [] [].

(** An empty world whose allocator grants the blocks 100, 200, 10, 12. *)
Definition w_boot : W :=
  World ∅ ∅ [] [ABlock 100 (Node 1 2 3); ABlock 200 (Node 4 5 6);
                ABlock 10 (Node 7 8 9); ABlock 12 (Node 0 0 10)].
End Demo.

(** The same table kept by the map, with a comparator that answers the
    difference of the keys. *)
Module DemoMap.
Import Map MapInv.

Definition hf : hash_func_t := fun k => k.
Definition cmp : comp_func_t := fun a b => a - b.
Definition heads : list ptr := [10; 0].
Definition cs : list chain := [[(10, Demo.n10); (12, Demo.n12)]; []].
Definition s : htable_t := Hmap (Some heads) 2 (Some hf) (Some cmp).
Definition t : ptr := 100.

Definition w : world htable_t :=
  World (<[10 := Demo.n10]> (<[12 := Demo.n12]> ∅)) (<[t := s]> ∅) []
        [ABlock 14 (Node 0 0 10)].

Definition w_boot : world htable_t :=
  World ∅ ∅ [] [ABlock 100 (Node 1 2 3); ABlock 200 (Node 4 5 6)].
End DemoMap.

(** ** Chains read as association lists *)

(** The key and value pointers a chain stores, in chain order. *)
Definition contents (l : chain) : list (ptr * ptr) :=
  (fun an : ptr * htable_node => (key an.2, value an.2)) <$> l.

(** The value of the first entry whose key [q] accepts for [k]; NULL
    when there is none. *)
Fixpoint assoc_find (q : ptr -> ptr -> Z) (k : ptr) (es : list (ptr * ptr)) : ptr :=
  match es with
  | [] => NULL
  | (k0, v0) :: es' => if q k0 k =? 0 then assoc_find q k es' else v0
  end.

(** The value [v'] written over that of the first entry [q] accepts for
    [k]; the entry [(k', v')] added at the end when there is none. *)
Fixpoint assoc_upsert (q : ptr -> ptr -> Z) (k k' v' : ptr)
    (es : list (ptr * ptr)) : list (ptr * ptr) :=
  match es with
  | [] => [(k', v')]
  | (k0, v0) :: es' =>
      if q k0 k =? 0 then (k0, v0) :: assoc_upsert q k k' v' es'
      else (k0, v') :: es'
  end.

(** The first entry [q] accepts for [k] taken out. *)
Fixpoint assoc_erase (q : ptr -> ptr -> Z) (k : ptr)
    (es : list (ptr * ptr)) : list (ptr * ptr) :=
  match es with
  | [] => []
  | (k0, v0) :: es' =>
      if q k0 k =? 0 then (k0, v0) :: assoc_erase q k es' else es'
  end.

(** No entry is followed by one whose key [q] accepts for its own. *)
Fixpoint distinct_keys (q : ptr -> ptr -> Z) (es : list (ptr * ptr)) : Prop :=
  match es with
  | [] => True
  | (k0, _) :: es' =>
      Forall (fun e : ptr * ptr => q e.1 k0 = 0) es' /\ distinct_keys q es'
  end.

(** The world [htable_remove] leaves once it has unlinked and freed the
    node [n] at [a] of bucket [i], found behind the node [prev] (the
    bucket head when there is none). *)
Definition unlinked (w : Table.W) (t : ptr) (s : Table.htable_t) (heads : list ptr)
    (i : nat) (prev : option (ptr * htable_node)) (a : ptr) (n : htable_node)
    (kf vf : htable_free_t) : Table.W :=
  World (delete a (match prev with
                   | Some (ap, np) => <[ap := set_next np (next n)]> (mem w)
                   | None => mem w
                   end))
        (match prev with
         | Some _ => tabs w
         | None => <[t := Table.set_table s (Some (<[i := next n]> heads))]> (tabs w)
         end)
        (log w ++ [Call_kfree kf (key n); Call_vfree vf (value n); Free_node a])
        (script w).

(** The node a scan has behind it after walking [l1] from a start it
    had [prev] behind. *)
Definition behind (prev : option (ptr * htable_node)) (l1 : chain)
    : option (ptr * htable_node) :=
  match last l1 with Some x => Some x | None => prev end.

(** [prev] as the C variable holds it. *)
Definition prev_ptr (prev : option (ptr * htable_node)) : ptr :=
  match prev with Some (ap, _) => ap | None => NULL end.

Module DemoClean.
Import Table TableInv.

(** The worked table of [Demo] with an allocator whose next block, at
    14, comes with a cleared link. *)
Definition w : W :=
  World (mem Demo.w) (tabs Demo.w) [] [ABlock 14 (Node 7 8 0)].
End DemoClean.

(** The worked table with both buckets in use: bucket 0 chains the keys
    2 and 4, bucket 1 holds the key 3. *)
Module DemoFull.
Import Table TableInv.

Definition n11 : htable_node := Node 3 30 0.
Definition heads : list ptr := [10; 11].
Definition cs : list chain := [[(10, Demo.n10); (12, Demo.n12)]; [(11, n11)]].
Definition s : htable_t :=
  Htable (Some heads) 2 0 (Some Demo.hf) (Some Demo.q) (installed None).
Definition w : W :=
  World (<[10 := Demo.n10]> (<[11 := n11]> (<[12 := Demo.n12]> ∅)))
        (<[Demo.t := s]> ∅) [] [].
End DemoFull.

(** What the operations of the table never write in a structure: every
    field but the contents of the bucket array. *)
Definition config (s : Table.htable_t)
    : Z * option Table.htable_hash_t * option Table.htable_keq_t
      * Table.callbacks * option nat :=
  (Table.size s, Table.hash s, Table.keq s, Table.cbs s, length <$> Table.table s).

(** All table structures have the same configuration in [w] and [w']. *)
Definition same_config (w w' : world Table.htable_t) : Prop :=
  forall t0, config <$> (tabs w' !! t0) = config <$> (tabs w !! t0).

(** The allocator does not hand out the address of a live structure. *)
Definition fresh_table_script {T} (w : world T) : Prop :=
  forall p junk rest, script w = ABlock p junk :: rest -> tabs w !! p = None.

(** The clean worked table when its [keq] is the comparator [Demo.cmp]. *)
Module DemoCmp.
Import Table TableInv.
Definition w : W :=
  World (mem Demo.w) (<[Demo.t := Demo.s_cmp]> ∅) [] [ABlock 14 (Node 7 8 0)].
End DemoCmp.

(** The comparator of the map read as an equality hook: non-zero where
    [comp] answers zero. *)
Definition comp_as_keq (cmp : Map.comp_func_t) : ptr -> ptr -> Z :=
  fun a b => if cmp a b =? 0 then 1 else 0.

(** ** The unit tests of the repository

    The helpers and the first two tests of the test driver, which is
    written against the four-argument [htable_create] of the table.
    [deref] gives the [int] an address of the test's frame holds.
    [TEST(x)] prints a line and counts; a test is modelled by the list
    of the outcomes of its checks. *)

Module Tests.
Import Table.

(** [unsigned long hash_int (const void *key)] *)
Definition hash_int (deref : ptr -> Z) (key' : ptr) : Z :=
  deref key' mod ULONG_MOD.

(** [int compare_int (const void *key1, const void *key2)], where the
    difference fits [int]. *)
Definition compare_int (deref : ptr -> Z) (key1 key2 : ptr) : Z :=
  deref key1 - deref key2.

(** One round of the loop of [hash_string]:
    [hash = ((hash << 5) + hash) ^ c] in [unsigned long], the [char]
    converted to [unsigned long]. *)
Definition hash_step (hash c : Z) : Z :=
  Z.lxor (((Z.shiftl hash 5) mod ULONG_MOD + hash) mod ULONG_MOD) (c mod ULONG_MOD).

(** The [while] loop of [hash_string] over the chars stored from
    [str] on; [None] when the loop runs off the end of them. *)
Fixpoint hash_string_from (hash : Z) (str : list Z) : option Z :=
  match str with
  | [] => None
  | c :: rest => if c =? 0 then Some hash else hash_string_from (hash_step hash c) rest
  end.

(** [unsigned long hash_string (const void *key)] *)
Definition hash_string (str : list Z) : option Z := hash_string_from 5381 str.

Definition HASH_MAX : Z := 1024.

(** [void test_htable_create (void)] *)
Definition test_htable_create (fuel : nat) : M htable_t (list bool) :=
  map <- htable_create HASH_MAX None None None ;;
  let check1 := negb (map =? NULL) in
  s <- load_table map ;;
  let check2 := bool_decide (is_Some (table s)) in
  s <- load_table map ;;
  let check3 := size s =? HASH_MAX in
  htable_destroy fuel map ;;
  ret [check1; check2; check3].

(** [void test_htable_insert_int (void)], its locals [key] and [value]
    at the addresses [key_addr] and [value_addr]. *)
Definition test_htable_insert_int (fuel : nat) (deref : ptr -> Z)
    (key_addr value_addr : ptr) : M htable_t (list bool) :=
  map <- htable_create 1 (Some (hash_int deref)) (Some (compare_int deref)) None ;;
  r <- htable_insert fuel map key_addr value_addr ;;
  let check1 := r =? 0 in
  result <- htable_get fuel map key_addr ;;
  if result =? NULL then undef NullDeref
  else
    let check2 := deref result =? deref value_addr in
    htable_destroy fuel map ;;
    ret [check1; check2].
End Tests.

(** The address an answer of the allocator hands out, if any. *)
Definition block_addr (a : alloc) : option ptr :=
  match a with ABlock p _ => Some p | AFail => None end.

(** Every block the allocator will hand out from now on is unused, comes
    with a cleared link and is handed out once. *)
Definition good_allocator (h : gmap Z htable_node) (sc : list alloc) : Prop :=
  NoDup (omap block_addr sc) /\
  Forall (fun a : alloc =>
            match a with
            | ABlock p junk => h !! p = None /\ next junk = NULL
            | AFail => True
            end) sc.

(** No chain of [cs] is longer than [n]. *)
Definition at_most (n : nat) (cs : list chain) : Prop :=
  Forall (fun l : chain => (length l <= n)%nat) cs.

Module DemoRun.
Import Table TableInv.

(** The worked table with an allocator that grants two cleared blocks,
    refuses once, and grants a third. *)
Definition w : W :=
  World (mem Demo.w) (tabs Demo.w) []
        [ABlock 14 (Node 7 8 0); AFail; ABlock 16 (Node 0 0 0)].

Definition ops : list op :=
  [Op_insert 6 60; Op_remove 2; Op_insert 3 30; Op_insert 5 NULL; Op_get 4;
   Op_insert 8 80; Op_insert 6 61].
End DemoRun.

(** ** A table and a map side by side *)

(** A table structure and a map structure that describe the same
    container: same bucket array, capacity and hash function, the
    table's [keq] answering non-zero exactly where the map's [comp]
    answers zero, and the table storing by reference (the callbacks
    [htable_create] installs when given no policy).  The bucket array
    is there. *)
Record twin (st : Table.htable_t) (sm : Map.htable_t) (cmp : Map.comp_func_t)
    : Prop := {
  twin_table : Table.table st = Map.table sm;
  twin_arr : is_Some (Table.table st);
  twin_size : Table.size st = Map.size sm;
  twin_hash : Table.hash st = Map.hash sm;
  twin_comp : Map.comp sm = Some cmp;
  twin_keq : Table.keq st = Some (comp_as_keq cmp);
  twin_cbs : Table.cbs st = TableInv.installed None
}.

(** Two worlds that agree on the heap and the allocator, and whose
    structures at [t] are twins. *)
Definition twins (t : ptr) (cmp : Map.comp_func_t) (wt : Table.W)
    (wm : world Map.htable_t) : Prop :=
  mem wt = mem wm /\ script wt = script wm /\
  exists st sm, tabs wt !! t = Some st /\ tabs wm !! t = Some sm /\ twin st sm cmp.

(** The status the map reports where the table reports [r]: the map
    has one code, -1, for a refused allocation. *)
Definition map_status (r : Z) : Z := if r =? -2 then -1 else r.

(** A caller's use of a map: the runs of [Table.run_ops], on the map. *)
Definition map_run_op (fuel : nat) (map : ptr) (o : Table.op)
    : M Map.htable_t unit :=
  match o with
  | Table.Op_insert key' value' => Map.htable_insert fuel map key' value' ;; ret tt
  | Table.Op_remove key' => Map.htable_remove fuel map key' ;; ret tt
  | Table.Op_get key' => Map.htable_get fuel map key' ;; ret tt
  end.

Fixpoint map_run_ops (fuel : nat) (map : ptr) (os : list Table.op)
    : M Map.htable_t unit :=
  match os with
  | [] => ret tt
  | o :: os' => map_run_op fuel map o ;; map_run_ops fuel map os'
  end.

(** The values a run inserts are not NULL. *)
Definition values_given (os : list Table.op) : Prop :=
  Forall (fun o : Table.op =>
            match o with Table.Op_insert _ v => v <> NULL | _ => True end) os.

Module DemoTwin.
(** The worked table with the comparator of [DemoMap] turned into its
    [keq], next to the worked map. *)
Definition st : Table.htable_t :=
  Table.Htable (Some Demo.heads) 2 0 (Some Demo.hf)
               (Some (comp_as_keq DemoMap.cmp)) (TableInv.installed None).
Definition wt : Table.W :=
  World (mem Demo.w) (<[Demo.t := st]> ∅) [] [ABlock 14 (Node 0 0 10)].

(** The two with an allocator that grants cleared blocks. *)
Definition wt_clean : Table.W :=
  World (mem Demo.w) (<[Demo.t := st]> ∅) []
        [ABlock 14 (Node 7 8 0); AFail; ABlock 16 (Node 0 0 0)].
Definition wm_clean : world Map.htable_t :=
  World (mem DemoMap.w) (tabs DemoMap.w) []
        [ABlock 14 (Node 7 8 0); AFail; ABlock 16 (Node 0 0 0)].
Definition ops : list Table.op :=
  [Table.Op_insert 6 60; Table.Op_remove 2; Table.Op_insert 3 30; Table.Op_get 4;
   Table.Op_insert 8 80; Table.Op_insert 6 61].
End DemoTwin.

(** ** Running the primitives *)

Section Primitives.
Context {T : Type}.
Implicit Types (w : world T) (p : ptr).

Lemma bind_ok {A B} (m : M T A) (f : A -> M T B) w a w' :
  m w = Ok (a, w') -> bind m f w = f a w'.
Proof. unfold bind. now intros ->. Qed.

Lemma load_ok p n w :
  p <> NULL -> mem w !! p = Some n -> load p w = Ok (n, w).
Proof.
  intros Hp Hn. unfold load.
  destruct (Z.eqb_spec p NULL); [contradiction|]. now rewrite Hn.
Qed.

Lemma load_null w : load (T:=T) NULL w = Undefined NullDeref.
Proof. reflexivity. Qed.

Lemma load_table_ok p (s : T) w :
  p <> NULL -> tabs w !! p = Some s -> load_table p w = Ok (s, w).
Proof.
  intros Hp Hs. unfold load_table.
  destruct (Z.eqb_spec p NULL); [contradiction|]. now rewrite Hs.
Qed.

Lemma eqb_null_ne p : p <> NULL -> (p =? NULL) = false.
Proof. intros. now apply Z.eqb_neq. Qed.

Lemma alloc_dec w :
  alloc_fails w \/
  exists p junk rest, script w = ABlock p junk :: rest /\ p <> NULL.
Proof.
  unfold alloc_fails. destruct (script w) as [|[|p junk] rest]; auto.
  destruct (Z.eq_dec p NULL); eauto 10.
Qed.
End Primitives.

(** Unfold the monad and the primitives, then discharge the lookups and
    NULL tests the context settles. *)
Ltac munfold :=
  repeat (progress (
    unfold bind, ret, undef, out_of_fuel, fnptr, emit, assert,
      store_key, store_value, store_next, store, load,
      load_table, store_table, free, free_table, malloc,
      alloc_table, calloc_buckets, malloc_buckets,
      Table.call_vfree, Table.call_kfree;
    cbn [mem tabs log script fst snd])).

Ltac munfold_in H :=
  repeat (progress (
    unfold bind, ret, undef, out_of_fuel, fnptr, emit, assert,
      store_key, store_value, store_next, store, load,
      load_table, store_table, free, free_table, malloc,
      alloc_table, calloc_buckets, malloc_buckets,
      Table.call_vfree, Table.call_kfree in H;
    cbn [mem tabs log script fst snd] in H)).

Ltac munfold_all :=
  repeat (progress (
    unfold bind, ret, undef, out_of_fuel, fnptr, emit, assert,
      store_key, store_value, store_next, store, load,
      load_table, store_table, free, free_table, malloc,
      alloc_table, calloc_buckets, malloc_buckets,
      Table.call_vfree, Table.call_kfree in *;
    cbn [mem tabs log script fst snd] in *)).

(** Symbolic execution of the runs recorded in the context: split on
    every test the code makes on its way to an [Ok]. *)
Ltac minv_step :=
  match goal with
  | H : (match ?x with _ => _ end) = Ok _ |- _ => destruct x eqn:?
  | H : (match ?x with _ => _ end) _ = Ok _ |- _ => destruct x eqn:?
  end.

Ltac minvert := repeat (munfold_all; simplify_eq; try minv_step).

(** The same, with [tac] tried first on every round, and the bucket
    primitives of the table opened as well. *)
Ltac minvert_with tac :=
  repeat (munfold_all;
          unfold Table.get_hash, Table.store_bucket, bucket_at in *;
          simplify_eq; try first [tac | minv_step]).

Ltac mrewrite :=
  repeat first
    [ rewrite eqb_null_ne by (assumption || congruence)
    | rewrite lookup_insert_eq
    | rewrite lookup_insert_ne by (assumption || congruence)
    | match goal with
      | H : _ !! _ = _ |- _ => rewrite H
      | H : (_ =? _) = _ |- _ => rewrite H
      | H : Table.keq _ = Some _ |- _ => rewrite H
      | H : Table.hash _ = Some _ |- _ => rewrite H
      | H : Table.table _ = Some _ |- _ => rewrite H
      | H : Table.kcpy _ = Some _ |- _ => rewrite H
      | H : Table.vcpy _ = Some _ |- _ => rewrite H
      | H : Table.kfree _ = Some _ |- _ => rewrite H
      | H : Table.vfree _ = Some _ |- _ => rewrite H
      | H : Map.comp _ = Some _ |- _ => rewrite H
      | H : Map.hash _ = Some _ |- _ => rewrite H
      | H : Map.table _ = Some _ |- _ => rewrite H
      end
    | progress cbn [mem tabs log script fst snd negb] ].

(** ** Facts about chains *)

Section Chains.
Implicit Types (h : gmap Z htable_node) (l : chain) (p q : ptr).

Lemma lseg_app h l1 l2 p q :
  lseg h p (l1 ++ l2) q <-> exists m, lseg h p l1 m /\ lseg h m l2 q.
Proof.
  revert p. induction l1 as [|[a n] l1 IH]; intros p; simpl.
  - split; [intros H; eauto | intros (m & -> & H); auto].
  - rewrite IH. split.
    + intros (-> & Ha & Hn & m & H1 & H2). eauto 10.
    + intros (m & (-> & Ha & Hn & H1) & H2). eauto 10.
Qed.

(** Two null-terminated walks from the same pointer are the same walk. *)
Lemma lseg_null_inj h l1 l2 p :
  lseg h p l1 NULL -> lseg h p l2 NULL -> l1 = l2.
Proof.
  revert l2 p. induction l1 as [|[a n] l1 IH]; intros [|[a' n'] l2] p; simpl.
  - done.
  - intros -> (<- & Ha & _). done.
  - intros (-> & Ha & _) ->. done.
  - intros (-> & Ha & Hn & H1) (<- & _ & Hn' & H2).
    assert (n' = n) as -> by congruence.
    f_equal. eauto.
Qed.

(** A null-terminated chain never visits an address twice. *)
Lemma lseg_null_fresh h l1 a n l2 p :
  lseg h p (l1 ++ (a, n) :: l2) NULL -> a ∉ (l1 ++ l2).*1.
Proof.
  intros H Hin.
  apply lseg_app in H as (m & H1 & H2). simpl in H2.
  destruct H2 as (-> & Ha & Hn & H2).
  rewrite fmap_app, elem_of_app in Hin. destruct Hin as [Hin|Hin].
  - apply list_elem_of_fmap in Hin as ([a' n'] & Ha' & Hin). simpl in Ha'. subst a'.
    apply list_elem_of_split in Hin as (l1a & l1b & ->).
    apply lseg_app in H1 as (m1 & H1a & H1b). simpl in H1b.
    destruct H1b as (-> & _ & Hn' & H1b).
    assert (n' = n) as -> by congruence.
    assert (lseg h (next n) (l1b ++ (a, n) :: l2) NULL) as Hlong.
    { apply lseg_app. exists a. split; [done|]. simpl. auto. }
    pose proof (lseg_null_inj _ _ _ _ Hlong H2) as Heq.
    apply (f_equal length) in Heq. rewrite length_app in Heq. simpl in Heq. lia.
  - apply list_elem_of_fmap in Hin as ([a' n'] & Ha' & Hin). simpl in Ha'. subst a'.
    apply list_elem_of_split in Hin as (l2a & l2b & ->).
    apply lseg_app in H2 as (m1 & H2a & H2b). simpl in H2b.
    destruct H2b as (-> & _ & Hn' & H2b).
    assert (n' = n) as -> by congruence.
    assert (lseg h (next n) (l2a ++ (a, n) :: l2b) NULL) as Hlong.
    { apply lseg_app. exists a. split; [done|]. simpl. auto. }
    pose proof (lseg_null_inj _ _ _ _ Hlong H2b) as Heq.
    apply (f_equal length) in Heq. rewrite length_app in Heq. simpl in Heq. lia.
Qed.

(** Nodes on a walk are allocated. *)
Lemma lseg_lookup h l p q a n :
  lseg h p l q -> (a, n) ∈ l -> h !! a = Some n /\ a <> NULL.
Proof.
  revert p. induction l as [|[a' n'] l IH]; intros p; simpl.
  - intros _ Hin. inversion Hin.
  - intros (-> & Ha & Hn & H) Hin.
    apply elem_of_cons in Hin as [Heq|Hin]; [by simplify_eq | eauto].
Qed.

(** A walk is not disturbed by a store outside of it. *)
Lemma lseg_insert_ne h l p q a n :
  a ∉ l.*1 -> lseg h p l q -> lseg (<[a := n]> h) p l q.
Proof.
  revert p. induction l as [|[a' n'] l IH]; intros p; simpl; [done|].
  intros Hnin (-> & Ha & Hn & H).
  apply not_elem_of_cons in Hnin as [Hne Hnin].
  rewrite lookup_insert_ne by done. eauto.
Qed.

(** Rewriting a node in place keeps the walk when its link is kept. *)
Lemma lseg_update_node h l1 a n l2 p n' :
  lseg h p (l1 ++ (a, n) :: l2) NULL -> next n' = next n ->
  lseg (<[a := n']> h) p (l1 ++ (a, n') :: l2) NULL.
Proof.
  intros Hseg Hnext.
  pose proof (lseg_null_fresh _ _ _ _ _ _ Hseg) as Hnin.
  rewrite fmap_app, not_elem_of_app in Hnin. destruct Hnin as [Hn1 Hn2].
  apply lseg_app in Hseg as (m & H1 & H2). simpl in H2.
  destruct H2 as (-> & Ha & Hn & H2).
  apply lseg_app. exists a. split.
  - apply lseg_insert_ne; assumption.
  - simpl. rewrite lookup_insert_eq, Hnext. repeat split; try done.
    apply lseg_insert_ne; assumption.
Qed.

(** Linking a fresh node behind the last one extends the walk by that
    node; the walk then continues where the fresh node points. *)
Lemma lseg_append_node h l a n p p' nn :
  lseg h p (l ++ [(a, n)]) NULL -> h !! p' = None -> p' <> NULL ->
  lseg (<[a := set_next n p']> (<[p' := nn]> h)) p
       (l ++ [(a, set_next n p'); (p', nn)]) (next nn).
Proof.
  intros Hseg Hfresh Hp'.
  pose proof (lseg_null_fresh _ _ _ _ _ _ Hseg) as Hnin.
  rewrite app_nil_r in Hnin.
  assert (forall b m, (b, m) ∈ l ++ [(a, n)] -> b <> p') as Hold.
  { intros b m Hin ->. apply (lseg_lookup _ _ _ _ _ _ Hseg) in Hin as [Hin _].
    congruence. }
  assert (a <> p') as Hap.
  { apply (Hold a n). apply elem_of_app. right. constructor. }
  assert (p' ∉ l.*1) as Hp'l.
  { intros Hin. apply list_elem_of_fmap in Hin as ([b m] & -> & Hin).
    apply (Hold b m); [|reflexivity]. apply elem_of_app. left. assumption. }
  apply lseg_app in Hseg as (m & H1 & H2). simpl in H2.
  destruct H2 as (-> & Ha & Hn & H2).
  apply lseg_app. exists a. split.
  - apply lseg_insert_ne; [assumption|]. apply lseg_insert_ne; assumption.
  - simpl. rewrite lookup_insert_eq.
    rewrite lookup_insert_ne by congruence. rewrite lookup_insert_eq.
    repeat split; done.
Qed.

Lemma lseg_head_null h l q :
  lseg h NULL l q -> l = [] /\ q = NULL.
Proof. destruct l as [|[a n] l]; simpl; [done | intros (<- & Ha & _); done]. Qed.
End Chains.

(** ** The table: scanning a chain *)

Section TableScan.
Import Table TableInv.
Variables (s : htable_t) (hf : htable_hash_t) (q : htable_keq_t)
          (kc vc : htable_cpy_t) (kf vf : htable_free_t).
Hypothesis Hhooks : hooks s hf q kc vc kf vf.
Implicit Types (w : W) (l : chain).

(** Either nothing on the chain matches, or there is a first match. *)
Lemma first_match k l :
  no_match q k l \/
  exists l1 a n l2, l = l1 ++ (a, n) :: l2 /\ no_match q k l1 /\ q (key n) k <> 0.
Proof.
  induction l as [|[a n] l IH].
  - left. constructor.
  - destruct (Z.eq_dec (q (key n) k) 0) as [Hz|Hnz].
    + destruct IH as [IH|(l1 & a' & n' & l2 & -> & H1 & H2)].
      * left. constructor; auto.
      * right. exists ((a, n) :: l1), a', n', l2. repeat split; auto.
        constructor; auto.
    + right. exists [], a, n, l. repeat split; auto. constructor.
Qed.

Lemma get_scan_miss k l : forall fuel p w,
  lseg (mem w) p l NULL -> no_match q k l -> (length l < fuel)%nat ->
  get_scan fuel s k p w = Ok (NULL, w).
Proof using Hhooks.
  induction l as [|[a n] l IH]; intros fuel p w Hseg Hno Hfuel;
    (destruct fuel as [|fuel]; [simpl in Hfuel; lia|]); simpl in *.
  - subst p. reflexivity.
  - destruct Hseg as (-> & Ha & Hn & Hseg).
    apply Forall_cons in Hno as [Hz Hno]. simpl in Hz.
    rewrite (eqb_null_ne a Ha). simpl.
    rewrite (bind_ok _ _ _ _ _ (load_ok a n w Ha Hn)).
    rewrite (hooks_keq _ _ _ _ _ _ _ Hhooks). unfold bind at 1. simpl.
    rewrite Hz. simpl. apply IH; auto. lia.
Qed.

Lemma get_scan_hit k l1 a n l2 e : forall fuel p w,
  lseg (mem w) p (l1 ++ (a, n) :: l2) e -> no_match q k l1 ->
  q (key n) k <> 0 -> (length l1 < fuel)%nat ->
  get_scan fuel s k p w = Ok (value n, w).
Proof using Hhooks.
  induction l1 as [|[a1 n1] l1 IH]; intros fuel p w Hseg Hno Hq Hfuel;
    (destruct fuel as [|fuel]; [simpl in Hfuel; lia|]); simpl in *.
  - destruct Hseg as (-> & Ha & Hn & Hseg).
    rewrite (eqb_null_ne a Ha). simpl.
    rewrite (bind_ok _ _ _ _ _ (load_ok a n w Ha Hn)).
    rewrite (hooks_keq _ _ _ _ _ _ _ Hhooks). unfold bind at 1. simpl.
    apply Z.eqb_neq in Hq. rewrite Hq. reflexivity.
  - destruct Hseg as (-> & Ha & Hn & Hseg).
    apply Forall_cons in Hno as [Hz Hno]. simpl in Hz.
    rewrite (eqb_null_ne a1 Ha). simpl.
    rewrite (bind_ok _ _ _ _ _ (load_ok a1 n1 w Ha Hn)).
    rewrite (hooks_keq _ _ _ _ _ _ _ Hhooks). unfold bind at 1. simpl.
    rewrite Hz. simpl. apply IH; auto. lia.
Qed.

Lemma insert_scan_hit k v l1 a n l2 e : forall fuel p w,
  lseg (mem w) p (l1 ++ (a, n) :: l2) e -> no_match q k l1 ->
  q (key n) k <> 0 -> (length l1 < fuel)%nat ->
  insert_scan fuel s k v p w =
    Ok (inl 0, World (<[a := set_value n (vc v)]> (mem w)) (tabs w)
                     (log w ++ [Call_vfree vf (value n)]) (script w)).
Proof using Hhooks.
  destruct Hhooks.
  induction l1 as [|[a1 n1] l1 IH]; intros fuel p w Hseg Hno Hq Hfuel;
    (destruct fuel as [|fuel]; [simpl in Hfuel; lia|]); simpl in *.
  - destruct Hseg as (-> & Ha & Hn & Hseg).
    rewrite (bind_ok _ _ _ _ _ (load_ok a n w Ha Hn)).
    rewrite hooks_keq0. unfold bind at 1. simpl.
    apply Z.eqb_neq in Hq. rewrite Hq. simpl.
    unfold call_vfree. rewrite hooks_vfree0, hooks_vcpy0.
    munfold. mrewrite. reflexivity.
  - destruct Hseg as (-> & Ha & Hn & Hseg).
    apply Forall_cons in Hno as [Hz Hno]. simpl in Hz.
    rewrite (bind_ok _ _ _ _ _ (load_ok a1 n1 w Ha Hn)).
    rewrite hooks_keq0. unfold bind at 1. simpl.
    rewrite Hz. simpl.
    assert (next n1 <> NULL) as Hnn.
    { destruct l1 as [|[a2 n2] l1]; simpl in Hseg; destruct Hseg as (-> & ? & _); done. }
    rewrite (eqb_null_ne _ Hnn). simpl. apply IH; auto. lia.
Qed.

Lemma insert_scan_miss k v l a n : forall fuel p w,
  lseg (mem w) p (l ++ [(a, n)]) NULL -> no_match q k (l ++ [(a, n)]) ->
  (length l < fuel)%nat ->
  insert_scan fuel s k v p w = Ok (inr a, w).
Proof using Hhooks.
  destruct Hhooks.
  induction l as [|[a1 n1] l IH]; intros fuel p w Hseg Hno Hfuel;
    (destruct fuel as [|fuel]; [simpl in Hfuel; lia|]); simpl in *.
  - destruct Hseg as (-> & Ha & Hn & Hseg).
    apply Forall_cons in Hno as [Hz Hno]. simpl in Hz.
    rewrite (bind_ok _ _ _ _ _ (load_ok a n w Ha Hn)).
    rewrite hooks_keq0. unfold bind at 1. simpl.
    rewrite Hz, Hseg. reflexivity.
  - destruct Hseg as (-> & Ha & Hn & Hseg).
    apply Forall_cons in Hno as [Hz Hno]. simpl in Hz.
    rewrite (bind_ok _ _ _ _ _ (load_ok a1 n1 w Ha Hn)).
    rewrite hooks_keq0. unfold bind at 1. simpl.
    rewrite Hz. simpl.
    assert (next n1 <> NULL) as Hnn.
    { destruct l as [|[a2 n2] l]; simpl in Hseg; destruct Hseg as (-> & ? & _); done. }
    rewrite (eqb_null_ne _ Hnn). simpl. apply IH; auto. lia.
Qed.

Lemma remove_scan_miss t k hk l : forall fuel p prev w,
  lseg (mem w) p l NULL -> no_match q k l -> (length l < fuel)%nat ->
  remove_scan fuel t s k hk p prev w = Ok (-1, w).
Proof using Hhooks.
  destruct Hhooks.
  induction l as [|[a n] l IH]; intros fuel p prev w Hseg Hno Hfuel;
    (destruct fuel as [|fuel]; [simpl in Hfuel; lia|]); simpl in *.
  - subst p. reflexivity.
  - destruct Hseg as (-> & Ha & Hn & Hseg).
    apply Forall_cons in Hno as [Hz Hno]. simpl in Hz.
    rewrite (eqb_null_ne a Ha). simpl.
    rewrite (bind_ok _ _ _ _ _ (load_ok a n w Ha Hn)).
    rewrite hooks_keq0. unfold bind at 1. simpl.
    rewrite Hz. simpl. apply IH; auto. lia.
Qed.
End TableScan.

(** ** The table: the operations on a shaped structure *)

Section TableOps.
Import Table TableInv.
Variables (s : htable_t) (hf : htable_hash_t) (q : htable_keq_t)
          (kc vc : htable_cpy_t) (kf vf : htable_free_t).
Hypothesis Hhooks : hooks s hf q kc vc kf vf.
Implicit Types (w : W) (l : chain).

Local Abbreviation slot := (TableInv.slot s hf).

Lemma slot_lt w t heads k :
  shape w t s heads -> (slot k < length heads)%nat.
Proof.
  intros [_ _ _ Hsz Hpos]. unfold TableInv.slot, bucket_of.
  pose proof (Z.mod_pos_bound (hf k mod ULONG_MOD) (size s) Hpos). lia.
Qed.

Lemma get_hash_ok w t heads k :
  shape w t s heads -> get_hash t k w = Ok (bucket_of hf (size s) k, w).
Proof using Hhooks.
  intros [Hp Ht _ _ Hpos]. destruct Hhooks. unfold get_hash.
  rewrite (bind_ok _ _ _ _ _ (load_table_ok t s w Hp Ht)).
  munfold. mrewrite.
  destruct (Z.eqb_spec (size s) 0); [lia | reflexivity].
Qed.

Lemma live_bucket w t heads cs k :
  live w t s heads cs ->
  exists head l, heads !! slot k = Some head /\ cs !! slot k = Some l /\
                 lseg (mem w) head l NULL.
Proof.
  intros [Hshape Hch].
  destruct (lookup_lt_is_Some_2 heads (slot k) (slot_lt _ _ _ k Hshape)) as [head Hh].
  destruct (Forall2_lookup_l _ _ _ _ _ Hch Hh) as (l & Hl & Hseg). eauto.
Qed.

Lemma htable_get_miss w t heads k head l fuel :
  shape w t s heads -> heads !! slot k = Some head ->
  lseg (mem w) head l NULL -> no_match q k l -> (length l < fuel)%nat ->
  htable_get fuel t k w = Ok (NULL, w).
Proof using Hhooks.
  intros Hshape Hh Hseg Hno Hfuel. pose proof Hshape as [Hp Ht Harr _ _].
  unfold htable_get. rewrite (eqb_null_ne t Hp).
  rewrite (bind_ok _ _ _ _ _ (load_table_ok t s w Hp Ht)). rewrite Harr.
  rewrite (bind_ok _ _ _ _ _ (get_hash_ok w t heads k Hshape)).
  unfold bucket_at. fold (TableInv.slot s hf k). rewrite Hh. unfold bind at 1, ret at 1.
  eapply get_scan_miss; eauto.
Qed.

Lemma htable_get_hit w t heads k head l1 a n l2 e fuel :
  shape w t s heads -> heads !! slot k = Some head ->
  lseg (mem w) head (l1 ++ (a, n) :: l2) e -> no_match q k l1 ->
  q (key n) k <> 0 -> (length l1 < fuel)%nat ->
  htable_get fuel t k w = Ok (value n, w).
Proof using Hhooks.
  intros Hshape Hh Hseg Hno Hq Hfuel. pose proof Hshape as [Hp Ht Harr _ _].
  unfold htable_get. rewrite (eqb_null_ne t Hp).
  rewrite (bind_ok _ _ _ _ _ (load_table_ok t s w Hp Ht)). rewrite Harr.
  rewrite (bind_ok _ _ _ _ _ (get_hash_ok w t heads k Hshape)).
  unfold bucket_at. fold (TableInv.slot s hf k). rewrite Hh. unfold bind at 1, ret at 1.
  eapply get_scan_hit; eauto.
Qed.

Lemma htable_remove_miss w t heads k head l fuel :
  shape w t s heads -> heads !! slot k = Some head ->
  lseg (mem w) head l NULL -> no_match q k l -> (length l < fuel)%nat ->
  htable_remove fuel t k w = Ok (-1, w).
Proof using Hhooks.
  intros Hshape Hh Hseg Hno Hfuel. pose proof Hshape as [Hp Ht Harr _ _].
  unfold htable_remove. rewrite (eqb_null_ne t Hp).
  rewrite (bind_ok _ _ _ _ _ (load_table_ok t s w Hp Ht)). rewrite Harr.
  rewrite (bind_ok _ _ _ _ _ (get_hash_ok w t heads k Hshape)).
  unfold bucket_at. fold (TableInv.slot s hf k). rewrite Hh. unfold bind at 1, ret at 1.
  eapply remove_scan_miss; eauto.
Qed.
Lemma store_bucket_ok w t heads i p :
  shape w t s heads -> (i < length heads)%nat ->
  store_bucket t (Z.of_nat i) p w =
    Ok (tt, World (mem w) (<[t := set_table s (Some (<[i := p]> heads))]> (tabs w))
                  (log w) (script w)).
Proof.
  intros [Hp Ht Harr _ _] Hi. unfold store_bucket.
  rewrite (bind_ok _ _ _ _ _ (load_table_ok t s w Hp Ht)). rewrite Harr.
  rewrite Nat2Z.id. rewrite bool_decide_eq_true_2 by done. reflexivity.
Qed.

Lemma slot_of_nat w t heads k :
  shape w t s heads -> bucket_of hf (size s) k = Z.of_nat (slot k).
Proof.
  intros [_ _ _ _ Hpos]. unfold TableInv.slot, bucket_of.
  pose proof (Z.mod_pos_bound (hf k mod ULONG_MOD) (size s) Hpos). lia.
Qed.

(** Insert into an empty bucket: the new node becomes the head and its
    link is cleared. *)
Lemma htable_insert_empty w t heads k v p junk rest fuel :
  shape w t s heads -> v <> NULL -> heads !! slot k = Some NULL ->
  script w = ABlock p junk :: rest -> p <> NULL ->
  htable_insert fuel t k v w =
    Ok (0, World (<[p := Node (kc k) (vc v) NULL]> (mem w))
                 (<[t := set_table s (Some (<[slot k := p]> heads))]> (tabs w))
                 (log w) rest).
Proof using Hhooks.
  intros Hshape Hv Hh Hscr Hpn. pose proof Hshape as [Hp Ht Harr _ _].
  destruct Hhooks.
  unfold htable_insert. rewrite (eqb_null_ne t Hp).
  rewrite (bind_ok _ _ _ _ _ (load_table_ok t s w Hp Ht)). rewrite Harr.
  rewrite (eqb_null_ne v Hv).
  rewrite (bind_ok _ _ _ _ _ (get_hash_ok w t heads k Hshape)).
  unfold bucket_at. fold (TableInv.slot s hf k). rewrite Hh. unfold bind at 1, ret at 1.
  change (NULL =? NULL) with true. cbv iota.
  unfold bind at 1, malloc at 1. rewrite Hscr, (eqb_null_ne p Hpn).
  rewrite (eqb_null_ne p Hpn).
  rewrite (slot_of_nat w t heads k Hshape).
  munfold. mrewrite.
  set (w1 := World _ _ _ _).
  assert (shape w1 t s heads) as Hshape1 by (destruct Hshape; split; assumption).
  pose proof (store_bucket_ok w1 t heads (slot k) p Hshape1
                (slot_lt _ _ _ k Hshape)) as Hsb.
  rewrite Hsb. subst w1. cbn [mem tabs log script].
  rewrite !insert_insert_eq. reflexivity.
Qed.

(** Insert of a key the chain holds: the value of the first match is
    replaced in place. *)
Lemma htable_insert_hit w t heads k v head l1 a n l2 e fuel :
  shape w t s heads -> v <> NULL -> heads !! slot k = Some head ->
  lseg (mem w) head (l1 ++ (a, n) :: l2) e -> no_match q k l1 ->
  q (key n) k <> 0 -> (length l1 < fuel)%nat ->
  htable_insert fuel t k v w =
    Ok (0, World (<[a := set_value n (vc v)]> (mem w)) (tabs w)
                 (log w ++ [Call_vfree vf (value n)]) (script w)).
Proof using Hhooks.
  intros Hshape Hv Hh Hseg Hno Hq Hfuel. pose proof Hshape as [Hp Ht Harr _ _].
  assert (head <> NULL) as Hhead.
  { destruct l1 as [|[a1 n1] l1]; simpl in Hseg; destruct Hseg as (-> & ? & _); done. }
  unfold htable_insert. rewrite (eqb_null_ne t Hp).
  rewrite (bind_ok _ _ _ _ _ (load_table_ok t s w Hp Ht)). rewrite Harr.
  rewrite (eqb_null_ne v Hv).
  rewrite (bind_ok _ _ _ _ _ (get_hash_ok w t heads k Hshape)).
  unfold bucket_at. fold (TableInv.slot s hf k). rewrite Hh. unfold bind at 1, ret at 1.
  rewrite (eqb_null_ne head Hhead).
  rewrite (bind_ok _ _ _ _ _
    (insert_scan_hit s hf q kc vc kf vf Hhooks k v l1 a n l2 e fuel head w
       Hseg Hno Hq Hfuel)).
  reflexivity.
Qed.

(** Insert of a key a non-empty chain does not hold: the new node is
    linked behind the last one; its own link is whatever the block
    held. *)
Lemma htable_insert_append w t heads k v head l a n p junk rest fuel :
  shape w t s heads -> v <> NULL -> heads !! slot k = Some head ->
  lseg (mem w) head (l ++ [(a, n)]) NULL -> no_match q k (l ++ [(a, n)]) ->
  script w = ABlock p junk :: rest -> p <> NULL -> mem w !! p = None ->
  (length l < fuel)%nat ->
  htable_insert fuel t k v w =
    Ok (0, World (<[a := set_next n p]>
                    (<[p := Node (kc k) (vc v) (next junk)]> (mem w)))
                 (tabs w) (log w) rest).
Proof using Hhooks.
  intros Hshape Hv Hh Hseg Hno Hscr Hpn Hfresh Hfuel.
  pose proof Hshape as [Hp Ht Harr _ _].
  assert (head <> NULL) as Hhead.
  { destruct l as [|[a1 n1] l]; simpl in Hseg; destruct Hseg as (-> & ? & _); done. }
  destruct (lseg_lookup _ _ _ _ a n Hseg) as [Han Hane].
  { apply elem_of_app. right. apply list_elem_of_singleton. reflexivity. }
  assert (a <> p) as Hap by congruence.
  unfold htable_insert. rewrite (eqb_null_ne t Hp).
  rewrite (bind_ok _ _ _ _ _ (load_table_ok t s w Hp Ht)). rewrite Harr.
  rewrite (eqb_null_ne v Hv).
  rewrite (bind_ok _ _ _ _ _ (get_hash_ok w t heads k Hshape)).
  unfold bucket_at. fold (TableInv.slot s hf k). rewrite Hh. unfold bind at 1, ret at 1.
  rewrite (eqb_null_ne head Hhead).
  rewrite (bind_ok _ _ _ _ _
    (insert_scan_miss s hf q kc vc kf vf Hhooks k v l a n fuel head w
       Hseg Hno Hfuel)).
  destruct Hhooks.
  unfold bind at 1, malloc at 1. rewrite Hscr, (eqb_null_ne p Hpn).
  rewrite (eqb_null_ne p Hpn).
  munfold. mrewrite.
  rewrite !insert_insert_eq. reflexivity.
Qed.

(** Insert that needs a node when the allocator has none. *)
Lemma htable_insert_nomem w t heads k v head l fuel :
  shape w t s heads -> v <> NULL -> heads !! slot k = Some head ->
  lseg (mem w) head l NULL -> no_match q k l ->
  alloc_fails w -> (length l < S fuel)%nat ->
  htable_insert fuel t k v w =
    Ok (-2, World (mem w) (tabs w) (log w) (tail (script w))).
Proof using Hhooks.
  intros Hshape Hv Hh Hseg Hno Hscr Hfuel.
  pose proof Hshape as [Hp Ht Harr _ _].
  unfold htable_insert. rewrite (eqb_null_ne t Hp).
  rewrite (bind_ok _ _ _ _ _ (load_table_ok t s w Hp Ht)). rewrite Harr.
  rewrite (eqb_null_ne v Hv).
  rewrite (bind_ok _ _ _ _ _ (get_hash_ok w t heads k Hshape)).
  unfold bucket_at. fold (TableInv.slot s hf k). rewrite Hh. unfold bind at 1, ret at 1.
  destruct l as [|an l _] using rev_ind.
  - simpl in Hseg. subst head. change (NULL =? NULL) with true. cbv iota.
    unfold bind at 1, malloc at 1.
    unfold alloc_fails in Hscr.
    destruct w as [m tb lg [|[|p j] rest]]; cbn [script] in *;
      [reflexivity..|]. subst p. reflexivity.
  - destruct an as [a n].
    assert (head <> NULL) as Hhead.
    { destruct l as [|[a1 n1] l]; simpl in Hseg; destruct Hseg as (-> & ? & _); done. }
    rewrite (eqb_null_ne head Hhead).
    rewrite length_app in Hfuel. simpl in Hfuel.
    rewrite (bind_ok _ _ _ _ _
      (insert_scan_miss s hf q kc vc kf vf Hhooks k v l a n fuel head w
         Hseg Hno ltac:(lia))).
    unfold bind at 1, malloc at 1.
    unfold alloc_fails in Hscr.
    destruct w as [m tb lg [|[|p j] rest]]; cbn [script] in *;
      [reflexivity..|]. subst p. reflexivity.
Qed.
End TableOps.

(** ** The table: creation *)

Section TableCreate.
Import Table TableInv.
Implicit Types (w : W).

Lemma htable_create_invalid size' hash' keq' cbs' w :
  size' = 0 \/ hash' = None \/ keq' = None ->
  htable_create size' hash' keq' cbs' w = Ok (NULL, w).
Proof.
  intros H. unfold htable_create.
  destruct H as [->|[->| ->]]; [reflexivity| |].
  - destruct (size' =? 0); reflexivity.
  - destruct (size' =? 0); [reflexivity|].
    destruct (bool_decide (is_Some hash')); reflexivity.
Qed.

Lemma htable_create_ok C hf q cbs' w p j1 a j2 rest :
  C <> 0 -> script w = ABlock p j1 :: ABlock a j2 :: rest ->
  p <> NULL -> a <> NULL -> C * PTR_SIZE < ULONG_MOD ->
  htable_create C (Some hf) (Some q) cbs' w =
    Ok (p, World (mem w) (<[p := created C hf q cbs']> (tabs w)) (log w) rest).
Proof.
  intros HC Hs Hp Ha Hfit. unfold htable_create.
  rewrite (proj2 (Z.eqb_neq C 0) HC).
  rewrite !bool_decide_eq_true_2 by eauto. cbn [orb negb].
  unfold bind at 1, alloc_table at 1. cbv beta.
  rewrite Hs, !(eqb_null_ne p Hp).
  unfold bind at 1, calloc_buckets at 1. cbn [script].
  rewrite (eqb_null_ne a Ha), (proj2 (Z.ltb_lt _ _) Hfit). cbn [orb negb].
  munfold. mrewrite. rewrite insert_insert_eq.
  unfold created, installed. destruct cbs'; reflexivity.
Qed.

(** A non-NULL answer of [htable_create] is a fresh structure. *)
Lemma htable_create_success C hf q cbs' w t w' :
  C <> 0 -> htable_create C (Some hf) (Some q) cbs' w = Ok (t, w') -> t <> NULL ->
  mem w' = mem w /\ tabs w' = <[t := created C hf q cbs']> (tabs w) /\
  log w' = log w /\ C * PTR_SIZE < ULONG_MOD.
Proof.
  intros HC Hrun Ht. unfold htable_create in Hrun.
  rewrite (proj2 (Z.eqb_neq C 0) HC) in Hrun.
  rewrite !bool_decide_eq_true_2 in Hrun by eauto. cbn [orb negb] in Hrun.
  minvert; try done.
  match goal with H : (_ || _) = false |- _ =>
    apply orb_false_iff in H as [_ Hb]; apply negb_false_iff, Z.ltb_lt in Hb end.
  match goal with H : <[_ := _]> _ !! _ = Some _ |- _ =>
    rewrite lookup_insert_eq in H; injection H as <- end.
  rewrite insert_insert_eq.
  repeat split; try done.
  unfold created, installed. destruct cbs'; reflexivity.
Qed.
End TableCreate.

(** ** The table: what an insert does, case by case *)

Section TableInsert.
Import Table TableInv.
Variables (s : htable_t) (hf : htable_hash_t) (q : htable_keq_t)
          (kc vc : htable_cpy_t) (kf vf : htable_free_t).
Hypothesis Hhooks : hooks s hf q kc vc kf vf.
Implicit Types (w : W) (l : chain).
Local Abbreviation slot := (TableInv.slot s hf).

Lemma hooks_set_table a : hooks (set_table s a) hf q kc vc kf vf.
Proof using Hhooks. destruct Hhooks. split; assumption. Qed.

Lemma enough_lookup fuel cs (i : nat) l :
  enough fuel cs -> cs !! i = Some l -> (length l < fuel)%nat.
Proof. intros H Hl. exact (Forall_lookup_1 _ _ _ _ H Hl). Qed.

(** The four ways an insert into a live table ends. *)
Lemma htable_insert_cases w t heads cs k v head l fuel :
  live w t s heads cs -> v <> NULL -> fresh_script w -> enough fuel cs ->
  heads !! slot k = Some head -> cs !! slot k = Some l ->
  (exists l1 a n l2,
      l = l1 ++ (a, n) :: l2 /\ no_match q k l1 /\ q (key n) k <> 0 /\
      htable_insert fuel t k v w =
        Ok (0, World (<[a := set_value n (vc v)]> (mem w)) (tabs w)
                     (log w ++ [Call_vfree vf (value n)]) (script w)))
  \/ (no_match q k l /\ alloc_fails w /\
      htable_insert fuel t k v w =
        Ok (-2, World (mem w) (tabs w) (log w) (tail (script w))))
  \/ (exists p junk rest,
      l = [] /\ head = NULL /\ script w = ABlock p junk :: rest /\ p <> NULL /\
      mem w !! p = None /\
      htable_insert fuel t k v w =
        Ok (0, World (<[p := Node (kc k) (vc v) NULL]> (mem w))
                     (<[t := set_table s (Some (<[slot k := p]> heads))]> (tabs w))
                     (log w) rest))
  \/ (exists l0 a n p junk rest,
      l = l0 ++ [(a, n)] /\ no_match q k l /\
      script w = ABlock p junk :: rest /\ p <> NULL /\ mem w !! p = None /\
      htable_insert fuel t k v w =
        Ok (0, World (<[a := set_next n p]>
                        (<[p := Node (kc k) (vc v) (next junk)]> (mem w)))
                     (tabs w) (log w) rest)).
Proof using Hhooks.
  intros [Hshape Hch] Hv Hfresh Hfuel Hh Hl.
  pose proof (enough_lookup _ _ _ _ Hfuel Hl) as Hlen.
  pose proof (Forall2_lookup_lr _ _ _ _ _ _ Hch Hh Hl) as Hseg.
  cbv beta in Hseg.
  destruct (first_match q k l) as [Hno|(l1 & a & n & l2 & -> & Hno & Hq)].
  - destruct (alloc_dec w) as [Hfail|(p & junk & rest & Hs & Hp)].
    + right; left. repeat split; [assumption..|].
      eapply htable_insert_nomem; eauto.
    + pose proof (Hfresh p junk rest Hs) as Hpf.
      destruct l as [|[a n] l0 _] using rev_ind.
      * right; right; left. simpl in Hseg. subst head.
        exists p, junk, rest. repeat split; try done.
        eapply htable_insert_empty; eauto.
      * right; right; right. exists l0, a, n, p, junk, rest.
        repeat split; try done.
        rewrite length_app in Hlen. simpl in Hlen.
        eapply htable_insert_append; eauto. lia.
  - left. exists l1, a, n, l2. repeat split; try done.
    rewrite length_app in Hlen. simpl in Hlen.
    eapply htable_insert_hit; eauto. lia.
Qed.

End TableInsert.

(** ** Facts about the worked table *)

Section DemoFacts.
Import Table TableInv Demo.

Lemma demo_hooks :
  hooks s hf q htable_default_copy htable_default_copy kf kf.
Proof. split; reflexivity. Defined.

Lemma demo_shape : shape w t s heads.
Proof. split; [discriminate | reflexivity | reflexivity | reflexivity | reflexivity]. Defined.

Lemma demo_live : live w t s heads cs.
Proof.
  split; [exact demo_shape|].
  repeat constructor; discriminate.
Defined.


Lemma demo_enough : enough 3 cs.
Proof. repeat constructor. Defined.

Lemma demomap_shape : MapInv.shape DemoMap.w DemoMap.t DemoMap.s DemoMap.heads.
Proof. split; [discriminate | reflexivity | reflexivity | reflexivity | reflexivity]. Defined.

Lemma demomap_live : MapInv.live DemoMap.w DemoMap.t DemoMap.s DemoMap.heads DemoMap.cs.
Proof.
  split; [exact demomap_shape|].
  repeat constructor; discriminate.
Defined.
End DemoFacts.

(** ** Properties of the table *)

Section TableClaims.
Import Table TableInv.
Implicit Types (w : W) (l : chain).

(** [htable_get] writes nothing, whatever the world it runs in. *)
Lemma get_scan_pure fuel s k : forall cur w r w',
  get_scan fuel s k cur w = Ok (r, w') -> w' = w.
Proof.
  induction fuel as [|fuel IH]; intros cur w r w' H; simpl in H.
  - discriminate H.
  - minvert; eauto.
Qed.

Lemma htable_get_pure fuel t k w r w' :
  htable_get fuel t k w = Ok (r, w') -> w' = w.
Proof.
  intros H. unfold htable_get in H.
  minvert_with ltac:(idtac;
    match goal with
    | H : get_scan _ _ _ _ _ = Ok _ |- _ => apply get_scan_pure in H; subst
    end); reflexivity.
Qed.




(** A scan that runs off the chain has changed nothing; a scan that
    returns has returned 0. *)
Lemma insert_scan_inr fuel s k v : forall cur w prev w',
  insert_scan fuel s k v cur w = Ok (inr prev, w') -> w' = w.
Proof.
  induction fuel as [|fuel IH]; intros cur w prev w' H; simpl in H.
  - discriminate H.
  - minvert; eauto.
Qed.

Lemma insert_scan_inl fuel s k v : forall cur w c w',
  insert_scan fuel s k v cur w = Ok (inl c, w') -> c = 0.
Proof.
  induction fuel as [|fuel IH]; intros cur w c w' H; simpl in H.
  - discriminate H.
  - minvert; eauto.
Qed.

(** C7. When [htable_insert] answers -2 the node heap, the table
    structures and the call log are those it was given; and in a live
    table an insert that needs a node while the allocator has none
    does answer -2, leaving the table live with the same chains. *)
Theorem C7_insert_nomem_unchanged s hf q kc vc kf vf w t heads cs k v fuel :
  hooks s hf q kc vc kf vf -> live w t s heads cs -> enough fuel cs ->
  v <> NULL -> (forall l, cs !! slot s hf k = Some l -> no_match q k l) ->
  alloc_fails w ->
  (forall w0 fuel0 t0 k0 v0 w0',
      htable_insert fuel0 t0 k0 v0 w0 = Ok (-2, w0') ->
      mem w0' = mem w0 /\ tabs w0' = tabs w0 /\ log w0' = log w0) /\
  exists w',
    htable_insert fuel t k v w = Ok (-2, w') /\
    mem w' = mem w /\ tabs w' = tabs w /\ log w' = log w /\
    live w' t s heads cs.
Proof.
  intros Hhooks Hlive Hfuel Hv Habsent Hfail. split.
  - clear. intros w0 fuel0 t0 k0 v0 w0' H. unfold htable_insert in H.
    minvert_with ltac:(idtac;
      match goal with
      | H : insert_scan _ _ _ _ _ _ = Ok (inr _, _) |- _ =>
          apply insert_scan_inr in H; subst
      | H : insert_scan _ _ _ _ _ _ = Ok (inl _, _) |- _ =>
          apply insert_scan_inl in H; discriminate H
      end); auto.
  - destruct (live_bucket s hf w t heads cs k Hlive) as (head & l & Hh & Hl & Hseg).
    pose proof (enough_lookup _ _ _ _ Hfuel Hl) as Hlen.
    eexists. split.
    + apply (htable_insert_nomem s hf q kc vc kf vf Hhooks w t heads k v head l fuel);
        [apply Hlive | assumption | assumption | assumption
        | apply Habsent; assumption | assumption | lia].
    + cbn [mem tabs log]. repeat split; try reflexivity; apply Hlive.
Qed.

Lemma C7_insert_nomem_unchanged_witness :
  (forall w0 fuel0 t0 k0 v0 w0',
      htable_insert fuel0 t0 k0 v0 w0 = Ok (-2, w0') ->
      mem w0' = mem w0 /\ tabs w0' = tabs w0 /\ log w0' = log w0) /\
  exists w',
    htable_insert 3 Demo.t 6 60 Demo.w_nomem = Ok (-2, w') /\
    mem w' = mem Demo.w_nomem /\ tabs w' = tabs Demo.w_nomem /\
    log w' = log Demo.w_nomem /\
    live w' Demo.t Demo.s Demo.heads Demo.cs.
Proof.
  apply (C7_insert_nomem_unchanged Demo.s Demo.hf Demo.q htable_default_copy
           htable_default_copy Demo.kf Demo.kf Demo.w_nomem Demo.t Demo.heads
           Demo.cs 6 60 3 demo_hooks).
  - split; [split; [discriminate | reflexivity..] | repeat constructor; discriminate].
  - repeat constructor.
  - discriminate.
  - intros l Hl. vm_compute in Hl. injection Hl as <-. repeat constructor.
  - exact I.
Defined.
Lemma installed_hooks C hf q cbs' :
  exists kc vc kf vf, hooks (created C hf q cbs') hf q kc vc kf vf.
Proof.
  unfold created, installed.
  destruct cbs' as [[[kc|] [vc|] [kf|] [vf|]]|]; cbn;
    eexists _, _, _, _; split; reflexivity.
Qed.

(** C8. For a capacity [C >= 1] and present hash and equality hooks, a
    [htable_create] that returns a table leaves a structure of exactly
    [C] buckets, all NULL, on which [htable_get] of any key returns
    NULL; and it does return a table as soon as the allocator grants
    its two blocks and [C] slots fit [size_t]. *)
Theorem C8_create_empty C hf q cbs' w :
  1 <= C ->
  (forall t w',
      htable_create C (Some hf) (Some q) cbs' w = Ok (t, w') -> t <> NULL ->
      exists s heads,
        tabs w' !! t = Some s /\ table s = Some heads /\ size s = C /\
        Z.of_nat (length heads) = C /\ Forall (fun head => head = NULL) heads /\
        live w' t s heads (replicate (Z.to_nat C) []) /\
        forall fuel k, (0 < fuel)%nat -> htable_get fuel t k w' = Ok (NULL, w')) /\
  (forall p j1 a j2 rest,
      script w = ABlock p j1 :: ABlock a j2 :: rest ->
      p <> NULL -> a <> NULL -> C * PTR_SIZE < ULONG_MOD ->
      exists w', htable_create C (Some hf) (Some q) cbs' w = Ok (p, w')).
Proof.
  intros HC. split.
  - intros t w' Hrun Ht.
    destruct (htable_create_success C hf q cbs' w t w' ltac:(lia) Hrun Ht)
      as (Hmem & Htabs & Hlog & Hfit).
    set (s := created C hf q cbs'). set (heads := replicate (Z.to_nat C) NULL).
    assert (shape w' t s heads) as Hshape.
    { split; try done.
      - rewrite Htabs. apply lookup_insert_eq.
      - subst heads. rewrite length_replicate. cbn. lia.
      - cbn. lia. }
    assert (Forall2 (fun head l => lseg (mem w') head l NULL) heads
                    (replicate (Z.to_nat C) [])) as Hch.
    { subst heads. apply Forall2_replicate. reflexivity. }
    exists s, heads. repeat split; try apply Hshape; try done.
    + subst heads. rewrite length_replicate. lia.
    + subst heads. apply Forall_replicate. reflexivity.
    + intros fuel k Hfuel.
      destruct (installed_hooks C hf q cbs') as (kc & vc & kf & vf & Hhooks).
      destruct (live_bucket s hf w' t heads _ k (conj Hshape Hch))
        as (head & l & Hh & Hl & Hseg).
      apply lookup_replicate in Hl as [-> _].
      eapply htable_get_miss; eauto. constructor.
  - intros p j1 a j2 rest Hs Hp Ha Hfit. eexists.
    apply (htable_create_ok C hf q cbs' w p j1 a j2 rest); auto. lia.
Qed.

Lemma C8_create_empty_witness :
  exists w',
    htable_create 2 (Some Demo.hf) (Some Demo.q) None Demo.w_boot = Ok (100, w') /\
    exists s,
      tabs w' !! 100 = Some s /\ table s = Some [NULL; NULL] /\
      forall k, htable_get 1 100 k w' = Ok (NULL, w').
Proof.
  destruct (C8_create_empty 2 Demo.hf Demo.q None Demo.w_boot ltac:(lia))
    as [Hempty Hgrant].
  destruct (Hgrant 100 _ 200 _ _ eq_refl ltac:(discriminate) ltac:(discriminate)
              eq_refl) as [w' Hrun].
  exists w'. split; [exact Hrun|].
  destruct (Hempty 100 w' Hrun ltac:(discriminate))
    as (s & heads & Hs & Harr & Hsz & Hlen & Hnull & _ & Hget).
  exists s. split; [exact Hs|]. split.
  - rewrite Harr. f_equal.
    destruct heads as [|h1 [|h2 [|h3 heads]]];
      try (cbn [length] in Hlen; lia).
    apply Forall_cons in Hnull as [-> Hnull].
    apply Forall_cons in Hnull as [-> _]. reflexivity.
  - intros k. apply Hget. lia.
Defined.

(** ** The element count *)

Lemma same_counts_refl w : same_counts w w.
Proof. intros t0. reflexivity. Qed.

Lemma same_counts_trans w1 w2 w3 :
  same_counts w1 w2 -> same_counts w2 w3 -> same_counts w1 w3.
Proof. intros H12 H23 t0. rewrite H23. apply H12. Qed.

Lemma same_counts_tabs w w' : tabs w' = tabs w -> same_counts w w'.
Proof. intros H t0. rewrite H. reflexivity. Qed.

Lemma same_counts_bucket w t h a m lg sc :
  tabs w !! t = Some h ->
  same_counts w (World m (<[t := set_table h a]> (tabs w)) lg sc).
Proof.
  intros Hh t0. cbn [tabs]. destruct (decide (t = t0)) as [<-|Hne].
  - rewrite lookup_insert_eq, Hh. reflexivity.
  - rewrite lookup_insert_ne by done. reflexivity.
Qed.

Lemma insert_scan_tabs fuel s k v : forall cur w r w',
  insert_scan fuel s k v cur w = Ok (r, w') -> tabs w' = tabs w.
Proof.
  induction fuel as [|fuel IH]; intros cur w r w' H; simpl in H.
  - discriminate H.
  - minvert; eauto.
Qed.

Lemma remove_scan_counts fuel t s k hk : forall cur prev w r w',
  remove_scan fuel t s k hk cur prev w = Ok (r, w') -> same_counts w w'.
Proof.
  induction fuel as [|fuel IH]; intros cur prev w r w' H; simpl in H.
  - discriminate H.
  - minvert_with fail; eauto using same_counts_refl, same_counts_tabs.
    all: try (apply same_counts_bucket; assumption).
Qed.

Lemma htable_insert_counts fuel t k v w r w' :
  htable_insert fuel t k v w = Ok (r, w') -> same_counts w w'.
Proof.
  intros H. unfold htable_insert in H.
  minvert_with ltac:(idtac;
    match goal with
    | H : insert_scan _ _ _ _ _ _ = Ok (_, ?w1) |- _ =>
        apply insert_scan_tabs in H; destruct w1; cbn [tabs] in H; subst
    end);
    try (apply same_counts_tabs; reflexivity);
    try (apply same_counts_bucket; assumption).
Qed.

Lemma htable_remove_counts fuel t k w r w' :
  htable_remove fuel t k w = Ok (r, w') -> same_counts w w'.
Proof.
  intros H. unfold htable_remove in H.
  minvert_with ltac:(idtac;
    match goal with
    | H : remove_scan _ _ _ _ _ _ _ _ = Ok _ |- _ =>
        apply remove_scan_counts in H
    end);
    try assumption; try (apply same_counts_refl).
Qed.

Lemma run_ops_counts fuel t os : forall w w',
  run_ops fuel t os w = Ok (tt, w') -> same_counts w w'.
Proof.
  induction os as [|o os IH]; intros w w' H; simpl in H.
  - injection H as <-. apply same_counts_refl.
  - unfold bind at 1 in H.
    destruct (run_op fuel t o w) as [[[] w1]| | |] eqn:Hop; try discriminate H.
    apply IH in H. eapply same_counts_trans; [|exact H].
    destruct o as [k v|k|k]; unfold run_op, bind at 1 in Hop.
    + destruct (htable_insert fuel t k v w) as [[r w2]| | |] eqn:Hi;
        try discriminate Hop. injection Hop as <-.
      eapply htable_insert_counts; eauto.
    + destruct (htable_remove fuel t k w) as [[r w2]| | |] eqn:Hi;
        try discriminate Hop. injection Hop as <-.
      eapply htable_remove_counts; eauto.
    + destruct (htable_get fuel t k w) as [[r w2]| | |] eqn:Hi;
        try discriminate Hop. injection Hop as <-.
      apply htable_get_pure in Hi. subst. apply same_counts_refl.
Qed.
(** C10. The [count] field is cleared by [htable_create] and written by
    no operation: after any run of inserts, removes and gets on a
    created table it still reads 0, and one more insert, remove or get
    leaves it at 0. *)
Theorem C10_count_stays_zero size' hash' keq' cbs' w t w1 fuel os w2 :
  htable_create size' hash' keq' cbs' w = Ok (t, w1) -> t <> NULL ->
  run_ops fuel t os w1 = Ok (tt, w2) ->
  count <$> (tabs w1 !! t) = Some 0 /\
  count <$> (tabs w2 !! t) = Some 0 /\
  (forall fuel' k v r w3,
      htable_insert fuel' t k v w2 = Ok (r, w3) ->
      count <$> (tabs w3 !! t) = Some 0) /\
  (forall fuel' k r w3,
      htable_remove fuel' t k w2 = Ok (r, w3) ->
      count <$> (tabs w3 !! t) = Some 0) /\
  (forall fuel' k r w3,
      htable_get fuel' t k w2 = Ok (r, w3) ->
      count <$> (tabs w3 !! t) = Some 0).
Proof.
  intros Hcreate Ht Hrun.
  assert (count <$> (tabs w1 !! t) = Some 0) as H1.
  { destruct (Z.eq_dec size' 0) as [Hz|Hnz].
    { rewrite htable_create_invalid in Hcreate by auto. by simplify_eq. }
    destruct hash' as [hf|].
    2:{ rewrite htable_create_invalid in Hcreate by auto. by simplify_eq. }
    destruct keq' as [q|].
    2:{ rewrite htable_create_invalid in Hcreate by auto. by simplify_eq. }
    destruct (htable_create_success size' hf q cbs' w t w1 Hnz Hcreate Ht)
      as (_ & -> & _). rewrite lookup_insert_eq. reflexivity. }
  assert (count <$> (tabs w2 !! t) = Some 0) as H2.
  { transitivity (count <$> (tabs w1 !! t)); [|exact H1].
    apply (run_ops_counts _ _ _ _ _ Hrun t). }
  repeat split; try assumption.
  - intros fuel' k v r w3 Hop.
    transitivity (count <$> (tabs w2 !! t)); [|exact H2].
    apply (htable_insert_counts _ _ _ _ _ _ _ Hop t).
  - intros fuel' k r w3 Hop.
    transitivity (count <$> (tabs w2 !! t)); [|exact H2].
    apply (htable_remove_counts _ _ _ _ _ _ Hop t).
  - intros fuel' k r w3 Hop.
    apply htable_get_pure in Hop. subst. exact H2.
Qed.

Lemma C10_count_stays_zero_witness :
  exists w1 w2,
    htable_create 2 (Some Demo.hf) (Some Demo.q) None Demo.w_boot = Ok (100, w1) /\
    run_ops 3 100 [Op_insert 3 30; Op_insert 4 40; Op_remove 3; Op_get 4] w1
      = Ok (tt, w2) /\
    key <$> (mem w2 !! 12) = Some 4 /\ mem w2 !! 10 = None /\
    count <$> (tabs w2 !! 100) = Some 0.
Proof.
  eexists _, _.
  split; [vm_compute; reflexivity|].
  split; [vm_compute; reflexivity|].
  split; [vm_compute; reflexivity|].
  split; [vm_compute; reflexivity|].
  refine (proj1 (proj2 (C10_count_stays_zero 2 (Some Demo.hf) (Some Demo.q) None
            Demo.w_boot 100 _ 3
            [Op_insert 3 30; Op_insert 4 40; Op_remove 3; Op_get 4] _ _ _ _))).
  - vm_compute. reflexivity.
  - discriminate.
  - vm_compute. reflexivity.
Defined.
End TableClaims.

(** ** The table: destruction *)

Section TableDestroy.
Import Table TableInv.
Variables (s : htable_t) (hf : htable_hash_t) (q : htable_keq_t)
          (kc vc : htable_cpy_t) (kf vf : htable_free_t).
Hypothesis Hhooks : hooks s hf q kc vc kf vf.
Implicit Types (w : W) (l : chain).

Lemma lseg_delete_ne h l p e a :
  a ∉ l.*1 -> lseg h p l e -> lseg (delete a h) p l e.
Proof.
  revert p. induction l as [|[a' n'] l IH]; intros p; simpl; [done|].
  intros Hnin (-> & Ha & Hn & H).
  apply not_elem_of_cons in Hnin as [Hne Hnin].
  rewrite lookup_delete_ne by done. eauto.
Qed.

Lemma lseg_free_all h l' l p e :
  (forall a, a ∈ l'.*1 -> a ∉ l.*1) -> lseg h p l e ->
  lseg (free_all l' h) p l e.
Proof.
  revert h. induction l' as [|[a n] l' IH]; intros h Hdis Hseg; simpl; [done|].
  apply IH.
  - intros b Hb. apply Hdis. simpl. right. exact Hb.
  - apply lseg_delete_ne; [|exact Hseg]. apply Hdis. simpl. left.
Qed.

Lemma disjoint_tail l cs : disjoint (l :: cs) -> disjoint cs.
Proof.
  unfold disjoint. simpl. rewrite fmap_app. intros H.
  apply NoDup_app in H as (_ & _ & H). exact H.
Qed.

Lemma chains_free_all h l cs rest :
  disjoint (l :: cs) ->
  Forall2 (fun head l' => lseg h head l' NULL) rest cs ->
  Forall2 (fun head l' => lseg (free_all l h) head l' NULL) rest cs.
Proof.
  intros Hdis Hch. revert Hdis.
  induction Hch as [|head l' rest cs Hseg Hch IH]; intros Hdis; constructor.
  - apply lseg_free_all; [|exact Hseg].
    intros a Ha. unfold disjoint in Hdis. simpl in Hdis.
    rewrite !fmap_app in Hdis. apply NoDup_app in Hdis as (_ & Hdis & _).
    intros Hin. apply (Hdis a Ha). apply elem_of_app. left. exact Hin.
  - apply IH. unfold disjoint in *. simpl in *.
    rewrite !fmap_app in *.
    apply NoDup_app in Hdis as (H1 & H2 & H3).
    apply NoDup_app in H3 as (H3a & H3b & H3c).
    apply NoDup_app. repeat split; try assumption.
    intros a Ha Hin. apply (H2 a Ha). apply elem_of_app. right. exact Hin.
Qed.

(** The do-while over a non-empty null-terminated chain frees every
    node of it, calling both free hooks once per node. *)
Lemma destroy_chain_ok l : forall fuel p w,
  l <> [] -> lseg (mem w) p l NULL -> (length l <= fuel)%nat ->
  destroy_chain fuel s p w =
    Ok (tt, World (free_all l (mem w)) (tabs w)
                  (log w ++ destroy_log kf vf l) (script w)).
Proof using Hhooks.
  destruct Hhooks.
  induction l as [|[a n] l IH]; intros fuel p w Hne Hseg Hfuel; [done|].
  destruct fuel as [|fuel]; [simpl in Hfuel; lia|].
  pose proof (lseg_null_fresh (mem w) [] a n l p Hseg) as Hfresh.
  simpl in Hseg. destruct Hseg as (-> & Ha & Hn & Hseg).
  cbn [destroy_chain].
  rewrite (bind_ok _ _ _ _ _ (load_ok a n w Ha Hn)).
  munfold. mrewrite.
  destruct l as [|[a' n'] l].
  - simpl in Hseg. rewrite Hseg. change (NULL =? NULL) with true. cbn [negb].
    rewrite <- !app_assoc. reflexivity.
  - assert (next n <> NULL) as Hnn.
    { simpl in Hseg. destruct Hseg as (-> & ? & _). done. }
    rewrite (eqb_null_ne _ Hnn). cbn [negb].
    rewrite IH.
    + cbn [mem tabs log script]. rewrite <- !app_assoc. reflexivity.
    + done.
    + cbn [mem]. apply lseg_delete_ne; assumption.
    + simpl in *. lia.
Qed.

(** The do-while on an empty bucket reads through NULL. *)
Lemma destroy_chain_null fuel w :
  destroy_chain (S fuel) s NULL w = Undefined NullDeref.
Proof. reflexivity. Qed.

(** The buckets [rest], found behind [pre] in the array, when one of
    them is empty. *)
Lemma destroy_buckets_null t heads fuel : forall rest pre cs w,
  t <> NULL -> tabs w !! t = Some s -> table s = Some heads ->
  heads = pre ++ rest ->
  Forall2 (fun head l => lseg (mem w) head l NULL) rest cs ->
  disjoint cs -> enough fuel cs -> NULL ∈ rest ->
  destroy_buckets fuel t (length rest) (Z.of_nat (length pre)) w
    = Undefined NullDeref.
Proof using Hhooks.
  induction rest as [|head rest IH]; intros pre cs w Ht Htab Harr Hheads Hch Hdis
    Hfuel Hnull.
  - inversion Hnull.
  - destruct cs as [|l cs]; [inversion Hch|].
    apply Forall2_cons in Hch as [Hseg Hch].
    apply Forall_cons in Hfuel as [Hlen Hfuel].
    cbn [length destroy_buckets].
    rewrite (bind_ok _ _ _ _ _ (load_table_ok t s w Ht Htab)). rewrite Harr.
    unfold bucket_at. rewrite Nat2Z.id, Hheads.
    rewrite lookup_app_r by lia. rewrite Nat.sub_diag. cbn [lookup list_lookup].
    unfold bind at 1, ret at 1.
    destruct (Z.eq_dec head NULL) as [->|Hhead].
    + destruct fuel as [|fuel]; [lia|]. reflexivity.
    + assert (l <> []) as Hl.
      { intros ->. simpl in Hseg. contradiction. }
      rewrite (bind_ok _ _ _ _ _
                 (destroy_chain_ok l fuel head w Hl Hseg ltac:(lia))).
      replace (Z.of_nat (length pre) + 1) with (Z.of_nat (length (pre ++ [head])))
        by (rewrite length_app; simpl; lia).
      apply (IH (pre ++ [head]) cs).
      * assumption.
      * assumption.
      * assumption.
      * rewrite <- app_assoc. assumption.
      * cbn [mem]. apply chains_free_all; assumption.
      * eapply disjoint_tail; eauto.
      * assumption.
      * apply elem_of_cons in Hnull as [Heq|Hin]; [congruence|assumption].
Qed.

(** The buckets [rest] when none of them is empty. *)
Lemma destroy_buckets_ok t heads fuel : forall rest pre cs w,
  t <> NULL -> tabs w !! t = Some s -> table s = Some heads ->
  heads = pre ++ rest ->
  Forall2 (fun head l => lseg (mem w) head l NULL) rest cs ->
  disjoint cs -> enough fuel cs -> NULL ∉ rest ->
  destroy_buckets fuel t (length rest) (Z.of_nat (length pre)) w
    = Ok (tt, World (free_all (concat cs) (mem w)) (tabs w)
                    (log w ++ destroy_log kf vf (concat cs)) (script w)).
Proof using Hhooks.
  induction rest as [|head rest IH]; intros pre cs w Ht Htab Harr Hheads Hch Hdis
    Hfuel Hnull.
  - apply Forall2_nil_inv_l in Hch as ->. simpl.
    unfold ret. rewrite app_nil_r. destruct w; reflexivity.
  - destruct cs as [|l cs]; [inversion Hch|].
    apply Forall2_cons in Hch as [Hseg Hch].
    apply Forall_cons in Hfuel as [Hlen Hfuel].
    apply not_elem_of_cons in Hnull as [Hhead Hnull].
    cbn [length destroy_buckets].
    rewrite (bind_ok _ _ _ _ _ (load_table_ok t s w Ht Htab)). rewrite Harr.
    unfold bucket_at. rewrite Nat2Z.id, Hheads.
    rewrite lookup_app_r by lia. rewrite Nat.sub_diag. cbn [lookup list_lookup].
    unfold bind at 1, ret at 1.
    assert (l <> []) as Hl.
    { intros ->. simpl in Hseg. congruence. }
    rewrite (bind_ok _ _ _ _ _
               (destroy_chain_ok l fuel head w Hl Hseg ltac:(lia))).
    replace (Z.of_nat (length pre) + 1) with (Z.of_nat (length (pre ++ [head])))
      by (rewrite length_app; simpl; lia).
    rewrite (IH (pre ++ [head]) cs).
    + cbn [mem tabs log script concat]. unfold free_all, destroy_log.
      rewrite foldl_app, flat_map_app, <- app_assoc. reflexivity.
    + assumption.
    + assumption.
    + assumption.
    + rewrite <- app_assoc. assumption.
    + cbn [mem]. apply chains_free_all; assumption.
    + eapply disjoint_tail; eauto.
    + assumption.
    + assumption.
Qed.
End TableDestroy.

Section TableDestroyClaims.
Import Table TableInv.
Implicit Types (w : W) (l : chain).

Lemma destroy_log_kfree kf vf l : kfree_calls (destroy_log kf vf l) = length l.
Proof.
  unfold kfree_calls, destroy_log.
  induction l as [|[a n] l IH]; simpl; [reflexivity | now rewrite IH].
Qed.

Lemma destroy_log_vfree kf vf l : vfree_calls (destroy_log kf vf l) = length l.
Proof.
  unfold vfree_calls, destroy_log.
  induction l as [|[a n] l IH]; simpl; [reflexivity | now rewrite IH].
Qed.

(** On a live table none of whose buckets is empty, [htable_destroy]
    frees every node, calls each free hook once per entry, and
    releases the array and the structure. *)
Lemma htable_destroy_full s hf q kc vc kf vf w t heads cs fuel :
  hooks s hf q kc vc kf vf -> live w t s heads cs -> disjoint cs ->
  enough fuel cs -> NULL ∉ heads ->
  exists lg,
    htable_destroy fuel t w =
      Ok (tt, World (free_all (concat cs) (mem w)) (delete t (tabs w))
                    (log w ++ lg ++ [Free_array t; Free_table t]) (script w)) /\
    kfree_calls lg = length (concat cs) /\ vfree_calls lg = length (concat cs).
Proof.
  intros Hhooks [[Hp Ht Harr Hsz Hpos] Hch] Hdis Hfuel Hnn.
  exists (destroy_log kf vf (concat cs)).
  split; [|split; [apply destroy_log_kfree | apply destroy_log_vfree]].
  unfold htable_destroy. rewrite (eqb_null_ne t Hp).
  rewrite (bind_ok _ _ _ _ _ (load_table_ok t s w Hp Ht)). rewrite Harr.
  rewrite Hsz, Nat2Z.id.
  pose proof (destroy_buckets_ok s hf q kc vc kf vf Hhooks t heads fuel heads []
                cs w Hp Ht Harr eq_refl Hch Hdis Hfuel Hnn) as Hrun.
  change (Z.of_nat (length [])) with 0 in Hrun.
  rewrite (bind_ok _ _ _ _ _ Hrun).
  munfold. rewrite <- !app_assoc. reflexivity.
Qed.

(** C2. On a live table one of whose buckets is empty,
    [htable_destroy] does not skip that bucket: its do-while reads
    [current->next] through NULL and the run is undefined. *)
Theorem C2_destroy_empty_bucket s hf q kc vc kf vf w t heads cs fuel :
  hooks s hf q kc vc kf vf -> live w t s heads cs -> disjoint cs ->
  enough fuel cs -> NULL ∈ heads ->
  htable_destroy fuel t w = Undefined NullDeref.
Proof.
  intros Hhooks [[Hp Ht Harr Hsz Hpos] Hch] Hdis Hfuel Hnull.
  unfold htable_destroy. rewrite (eqb_null_ne t Hp).
  rewrite (bind_ok _ _ _ _ _ (load_table_ok t s w Hp Ht)). rewrite Harr.
  rewrite Hsz, Nat2Z.id.
  pose proof (destroy_buckets_null s hf q kc vc kf vf Hhooks t heads fuel heads []
                cs w Hp Ht Harr eq_refl Hch Hdis Hfuel Hnull) as Hrun.
  change (Z.of_nat (length [])) with 0 in Hrun.
  unfold bind at 1. rewrite Hrun. reflexivity.
Qed.

Lemma C2_destroy_empty_bucket_witness :
  htable_destroy 3 Demo.t Demo.w = Undefined NullDeref.
Proof.
  apply (C2_destroy_empty_bucket Demo.s Demo.hf Demo.q htable_default_copy
           htable_default_copy Demo.kf Demo.kf Demo.w Demo.t Demo.heads Demo.cs 3
           demo_hooks demo_live).
  - unfold disjoint. apply (bool_decide_unpack _). vm_compute. exact I.
  - exact demo_enough.
  - vm_compute. right. left.
Defined.
End TableDestroyClaims.

(** ** The table: removing a key the chain holds *)

Section TableRemove.
Import Table TableInv.
Variables (s : htable_t) (hf : htable_hash_t) (q : htable_keq_t)
          (kc vc : htable_cpy_t) (kf vf : htable_free_t).
Hypothesis Hhooks : hooks s hf q kc vc kf vf.
Implicit Types (w : W) (l : chain).


End TableRemove.

(** ** The map: scanning and the operations *)

Section MapOps.
Import Map MapInv.
Variables (s : htable_t) (hf : hash_func_t) (cmp : comp_func_t).
Hypothesis Hhash : hash s = Some hf.
Hypothesis Hcomp : comp s = Some cmp.
Implicit Types (w : world htable_t) (l : chain).
Local Abbreviation slot := (MapInv.slot s hf).

Lemma map_first_match k l :
  no_match cmp k l \/
  exists l1 a n l2, l = l1 ++ (a, n) :: l2 /\ no_match cmp k l1 /\ cmp (key n) k = 0.
Proof.
  induction l as [|[a n] l IH].
  - left. constructor.
  - destruct (Z.eq_dec (cmp (key n) k) 0) as [Hz|Hnz].
    + right. exists [], a, n, l. repeat split; auto. constructor.
    + destruct IH as [IH|(l1 & a' & n' & l2 & -> & H1 & H2)].
      * left. constructor; auto.
      * right. exists ((a, n) :: l1), a', n', l2. repeat split; auto.
        constructor; auto.
Qed.

Lemma map_get_scan_miss k l : forall fuel p w,
  lseg (mem w) p l NULL -> no_match cmp k l -> (length l < fuel)%nat ->
  get_scan fuel s k p w = Ok (NULL, w).
Proof using Hcomp.
  induction l as [|[a n] l IH]; intros fuel p w Hseg Hno Hfuel;
    (destruct fuel as [|fuel]; [simpl in Hfuel; lia|]); simpl in *.
  - subst p. reflexivity.
  - destruct Hseg as (-> & Ha & Hn & Hseg).
    apply Forall_cons in Hno as [Hz Hno]. simpl in Hz.
    rewrite (eqb_null_ne a Ha). cbn [negb].
    rewrite (bind_ok _ _ _ _ _ (load_ok a n w Ha Hn)).
    rewrite Hcomp. unfold bind at 1, fnptr at 1, ret at 1.
    apply Z.eqb_neq in Hz. rewrite Hz. apply IH; auto. lia.
Qed.

Lemma map_get_scan_hit k l1 a n l2 e : forall fuel p w,
  lseg (mem w) p (l1 ++ (a, n) :: l2) e -> no_match cmp k l1 ->
  cmp (key n) k = 0 -> (length l1 < fuel)%nat ->
  get_scan fuel s k p w = Ok (value n, w).
Proof using Hcomp.
  induction l1 as [|[a1 n1] l1 IH]; intros fuel p w Hseg Hno Hq Hfuel;
    (destruct fuel as [|fuel]; [simpl in Hfuel; lia|]); simpl in *.
  - destruct Hseg as (-> & Ha & Hn & Hseg).
    rewrite (eqb_null_ne a Ha). cbn [negb].
    rewrite (bind_ok _ _ _ _ _ (load_ok a n w Ha Hn)).
    rewrite Hcomp. unfold bind at 1, fnptr at 1, ret at 1.
    rewrite Hq. reflexivity.
  - destruct Hseg as (-> & Ha & Hn & Hseg).
    apply Forall_cons in Hno as [Hz Hno]. simpl in Hz.
    rewrite (eqb_null_ne a1 Ha). cbn [negb].
    rewrite (bind_ok _ _ _ _ _ (load_ok a1 n1 w Ha Hn)).
    rewrite Hcomp. unfold bind at 1, fnptr at 1, ret at 1.
    apply Z.eqb_neq in Hz. rewrite Hz. apply IH; auto. lia.
Qed.


Lemma map_insert_scan_miss k v l a n : forall fuel p w,
  lseg (mem w) p (l ++ [(a, n)]) NULL -> no_match cmp k (l ++ [(a, n)]) ->
  (length l < fuel)%nat ->
  insert_scan fuel s k v p w = Ok (inr a, w).
Proof using Hcomp.
  induction l as [|[a1 n1] l IH]; intros fuel p w Hseg Hno Hfuel;
    (destruct fuel as [|fuel]; [simpl in Hfuel; lia|]); simpl in *.
  - destruct Hseg as (-> & Ha & Hn & Hseg).
    apply Forall_cons in Hno as [Hz Hno]. simpl in Hz.
    rewrite (bind_ok _ _ _ _ _ (load_ok a n w Ha Hn)).
    rewrite Hcomp. unfold bind at 1, fnptr at 1, ret at 1.
    apply Z.eqb_neq in Hz. rewrite Hz, Hseg. reflexivity.
  - destruct Hseg as (-> & Ha & Hn & Hseg).
    apply Forall_cons in Hno as [Hz Hno]. simpl in Hz.
    rewrite (bind_ok _ _ _ _ _ (load_ok a1 n1 w Ha Hn)).
    rewrite Hcomp. unfold bind at 1, fnptr at 1, ret at 1.
    apply Z.eqb_neq in Hz. rewrite Hz.
    assert (next n1 <> NULL) as Hnn.
    { destruct l as [|[a2 n2] l]; simpl in Hseg; destruct Hseg as (-> & ? & _); done. }
    rewrite (eqb_null_ne _ Hnn). cbn [negb]. apply IH; auto. lia.
Qed.

Lemma map_remove_scan_miss t k hk l : forall fuel p prev w,
  lseg (mem w) p l NULL -> no_match cmp k l -> (length l < fuel)%nat ->
  remove_scan fuel t s k hk p prev w = Ok (-1, w).
Proof using Hcomp.
  induction l as [|[a n] l IH]; intros fuel p prev w Hseg Hno Hfuel;
    (destruct fuel as [|fuel]; [simpl in Hfuel; lia|]); simpl in *.
  - subst p. reflexivity.
  - destruct Hseg as (-> & Ha & Hn & Hseg).
    apply Forall_cons in Hno as [Hz Hno]. simpl in Hz.
    rewrite (eqb_null_ne a Ha). cbn [negb].
    rewrite (bind_ok _ _ _ _ _ (load_ok a n w Ha Hn)).
    rewrite Hcomp. unfold bind at 1, fnptr at 1, ret at 1.
    apply Z.eqb_neq in Hz. rewrite Hz. apply IH; auto. lia.
Qed.

Lemma map_slot_lt w t heads k :
  shape w t s heads -> (slot k < length heads)%nat.
Proof.
  intros [_ _ _ Hsz Hpos]. unfold MapInv.slot, bucket_of.
  pose proof (Z.mod_pos_bound (hf k mod ULONG_MOD) (size s) Hpos). lia.
Qed.

Lemma map_slot_of_nat w t heads k :
  shape w t s heads -> bucket_of hf (size s) k = Z.of_nat (slot k).
Proof.
  intros [_ _ _ _ Hpos]. unfold MapInv.slot, bucket_of.
  pose proof (Z.mod_pos_bound (hf k mod ULONG_MOD) (size s) Hpos). lia.
Qed.

Lemma map_get_hash_ok w t heads k :
  shape w t s heads -> get_hash t k w = Ok (bucket_of hf (size s) k, w).
Proof using Hhash.
  intros [Hp Ht _ _ Hpos]. unfold get_hash.
  rewrite (bind_ok _ _ _ _ _ (load_table_ok t s w Hp Ht)).
  rewrite Hhash. unfold bind at 1, fnptr at 1, ret at 1.
  destruct (Z.eqb_spec (size s) 0); [lia | reflexivity].
Qed.

Lemma map_store_bucket_ok w t heads i p :
  shape w t s heads -> (i < length heads)%nat ->
  store_bucket t (Z.of_nat i) p w =
    Ok (tt, World (mem w) (<[t := set_table s (Some (<[i := p]> heads))]> (tabs w))
                  (log w) (script w)).
Proof.
  intros [Hp Ht Harr _ _] Hi. unfold store_bucket.
  rewrite (bind_ok _ _ _ _ _ (load_table_ok t s w Hp Ht)). rewrite Harr.
  rewrite Nat2Z.id. rewrite bool_decide_eq_true_2 by done. reflexivity.
Qed.

(** The common prologue of the map operations on a shaped structure. *)
Ltac map_prologue Hshape :=
  let Hp := fresh "Hp" in let Ht := fresh "Ht" in let Harr := fresh "Harr" in
  pose proof Hshape as [Hp Ht Harr _ _];
  unfold assert at 1; rewrite (eqb_null_ne _ Hp); cbn [negb];
  unfold bind at 1;
  rewrite (bind_ok _ _ _ _ _ (load_table_ok _ _ _ Hp Ht));
  rewrite Harr.

Lemma map_htable_get_miss w t heads k head l fuel :
  shape w t s heads -> heads !! slot k = Some head ->
  lseg (mem w) head l NULL -> no_match cmp k l -> (length l < fuel)%nat ->
  htable_get fuel t k w = Ok (NULL, w).
Proof using Hhash Hcomp.
  intros Hshape Hh Hseg Hno Hfuel. unfold htable_get. map_prologue Hshape.
  rewrite bool_decide_eq_true_2 by eauto. unfold assert at 1, bind at 1.
  rewrite (bind_ok _ _ _ _ _ (map_get_hash_ok w t heads k Hshape)).
  unfold bucket_at. fold (slot k). rewrite Hh. unfold bind at 1, ret at 1.
  eapply map_get_scan_miss; eauto.
Qed.

Lemma map_htable_get_hit w t heads k head l1 a n l2 e fuel :
  shape w t s heads -> heads !! slot k = Some head ->
  lseg (mem w) head (l1 ++ (a, n) :: l2) e -> no_match cmp k l1 ->
  cmp (key n) k = 0 -> (length l1 < fuel)%nat ->
  htable_get fuel t k w = Ok (value n, w).
Proof using Hhash Hcomp.
  intros Hshape Hh Hseg Hno Hq Hfuel. unfold htable_get. map_prologue Hshape.
  rewrite bool_decide_eq_true_2 by eauto. unfold assert at 1, bind at 1.
  rewrite (bind_ok _ _ _ _ _ (map_get_hash_ok w t heads k Hshape)).
  unfold bucket_at. fold (slot k). rewrite Hh. unfold bind at 1, ret at 1.
  eapply map_get_scan_hit; eauto.
Qed.

Lemma map_htable_remove_miss w t heads k head l fuel :
  shape w t s heads -> heads !! slot k = Some head ->
  lseg (mem w) head l NULL -> no_match cmp k l -> (length l < fuel)%nat ->
  htable_remove fuel t k w = Ok (-1, w).
Proof using Hhash Hcomp.
  intros Hshape Hh Hseg Hno Hfuel. unfold htable_remove. map_prologue Hshape.
  rewrite bool_decide_eq_true_2 by eauto. unfold assert at 1, bind at 1.
  rewrite (bind_ok _ _ _ _ _ (map_get_hash_ok w t heads k Hshape)).
  unfold bucket_at. fold (slot k). rewrite Hh. unfold bind at 1, ret at 1.
  eapply map_remove_scan_miss; eauto.
Qed.
Lemma map_remove_scan_hit t heads (i : nat) k a n l2 e l1 : forall fuel p prev w,
  shape w t s heads -> (i < length heads)%nat ->
  lseg (mem w) p (l1 ++ (a, n) :: l2) e -> no_match cmp k l1 ->
  cmp (key n) k = 0 -> (length l1 < fuel)%nat ->
  (prev = NULL \/ is_Some (mem w !! prev)) ->
  exists w',
    remove_scan fuel t s k (Z.of_nat i) p prev w = Ok (0, w') /\
    mem w' !! a = None /\ log w' = log w ++ [Free_node a] /\
    script w' = script w.
Proof using Hcomp.
  induction l1 as [|[a1 n1] l1 IH]; intros fuel p prev w Hshape Hi Hseg Hno Hq
    Hfuel Hprev;
    (destruct fuel as [|fuel]; [simpl in Hfuel; lia|]); simpl in *.
  - destruct Hseg as (-> & Ha & Hn & Hseg).
    rewrite (eqb_null_ne a Ha). cbn [negb].
    rewrite (bind_ok _ _ _ _ _ (load_ok a n w Ha Hn)).
    rewrite Hcomp. unfold bind at 1, fnptr at 1, ret at 1.
    rewrite Hq. cbn [Z.eqb].
    destruct (Z.eqb_spec prev NULL) as [->|Hpn].
    + rewrite (bind_ok _ _ _ _ _ (map_store_bucket_ok w t heads i (next n) Hshape Hi)).
      munfold. eexists. split; [reflexivity|].
      cbn [mem log script]. rewrite lookup_delete_eq. done.
    + destruct Hprev as [?|[pn Hpv]]; [done|].
      munfold. mrewrite. eexists. split; [reflexivity|].
      cbn [mem log script]. rewrite lookup_delete_eq. done.
  - destruct Hseg as (-> & Ha & Hn & Hseg).
    apply Forall_cons in Hno as [Hz Hno]. simpl in Hz.
    rewrite (eqb_null_ne a1 Ha). cbn [negb].
    rewrite (bind_ok _ _ _ _ _ (load_ok a1 n1 w Ha Hn)).
    rewrite Hcomp. unfold bind at 1, fnptr at 1, ret at 1.
    apply Z.eqb_neq in Hz. rewrite Hz.
    apply IH; auto. lia.
Qed.

Lemma map_htable_remove_hit w t heads k head l1 a n l2 e fuel :
  shape w t s heads -> heads !! slot k = Some head ->
  lseg (mem w) head (l1 ++ (a, n) :: l2) e -> no_match cmp k l1 ->
  cmp (key n) k = 0 -> (length l1 < fuel)%nat ->
  exists w',
    htable_remove fuel t k w = Ok (0, w') /\
    mem w' !! a = None /\ log w' = log w ++ [Free_node a] /\
    script w' = script w.
Proof using Hhash Hcomp.
  intros Hshape Hh Hseg Hno Hq Hfuel. unfold htable_remove. map_prologue Hshape.
  rewrite bool_decide_eq_true_2 by eauto. unfold assert at 1, bind at 1.
  rewrite (bind_ok _ _ _ _ _ (map_get_hash_ok w t heads k Hshape)).
  unfold bucket_at. fold (slot k). rewrite Hh. unfold bind at 1, ret at 1.
  rewrite (map_slot_of_nat w t heads k Hshape).
  eapply map_remove_scan_hit; eauto.
  eapply map_slot_lt; eauto.
Qed.


Lemma map_htable_insert_append w t heads k v head l a n p junk rest fuel :
  shape w t s heads -> v <> NULL -> heads !! slot k = Some head ->
  lseg (mem w) head (l ++ [(a, n)]) NULL -> no_match cmp k (l ++ [(a, n)]) ->
  script w = ABlock p junk :: rest -> p <> NULL -> mem w !! p = None ->
  (length l < fuel)%nat ->
  htable_insert fuel t k v w =
    Ok (0, World (<[a := set_next n p]> (<[p := Node k v (next junk)]> (mem w)))
                 (tabs w) (log w) rest).
Proof using Hhash Hcomp.
  intros Hshape Hv Hh Hseg Hno Hscr Hpn Hfresh Hfuel.
  assert (head <> NULL) as Hhead.
  { destruct l as [|[a1 n1] l]; simpl in Hseg; destruct Hseg as (-> & ? & _); done. }
  destruct (lseg_lookup _ _ _ _ a n Hseg) as [Han Hane].
  { apply elem_of_app. right. apply list_elem_of_singleton. reflexivity. }
  assert (a <> p) as Hap by congruence.
  unfold htable_insert. map_prologue Hshape.
  rewrite bool_decide_eq_true_2 by eauto. rewrite (eqb_null_ne v Hv).
  unfold assert at 1, bind at 1. cbn [negb andb].
  rewrite (bind_ok _ _ _ _ _ (map_get_hash_ok w t heads k Hshape)).
  unfold bucket_at. fold (slot k). rewrite Hh. unfold bind at 1, ret at 1.
  rewrite (eqb_null_ne head Hhead).
  rewrite (bind_ok _ _ _ _ _
    (map_insert_scan_miss k v l a n fuel head w Hseg Hno Hfuel)).
  unfold bind at 1, malloc at 1. rewrite Hscr, (eqb_null_ne p Hpn).
  rewrite (eqb_null_ne p Hpn).
  munfold. mrewrite.
  rewrite !insert_insert_eq. reflexivity.
Qed.

End MapOps.

(** ** Properties of both implementations *)

Section BothClaims.

(** C3. Insert of a key that a non-empty chain does not hold links a
    new node behind the last one, in the table and in the map alike;
    the successor link of the new node is never written, so it is what
    the block held before, and the chain now runs on to wherever that
    link points. *)
Theorem C3_append_link_not_cleared :
  (forall s hf q kc vc kf vf w t heads k v head l a n p junk rest fuel,
      TableInv.hooks s hf q kc vc kf vf -> TableInv.shape w t s heads ->
      v <> NULL -> heads !! TableInv.slot s hf k = Some head ->
      lseg (mem w) head (l ++ [(a, n)]) NULL -> no_match q k (l ++ [(a, n)]) ->
      script w = ABlock p junk :: rest -> p <> NULL -> mem w !! p = None ->
      (length l < fuel)%nat ->
      exists w',
        Table.htable_insert fuel t k v w = Ok (0, w') /\
        mem w' !! p = Some (Node (kc k) (vc v) (next junk)) /\
        lseg (mem w') head
             (l ++ [(a, set_next n p); (p, Node (kc k) (vc v) (next junk))])
             (next junk)) /\
  (forall s hf cmp w t heads k v head l a n p junk rest fuel,
      Map.hash s = Some hf -> Map.comp s = Some cmp -> MapInv.shape w t s heads ->
      v <> NULL -> heads !! MapInv.slot s hf k = Some head ->
      lseg (mem w) head (l ++ [(a, n)]) NULL ->
      MapInv.no_match cmp k (l ++ [(a, n)]) ->
      script w = ABlock p junk :: rest -> p <> NULL -> mem w !! p = None ->
      (length l < fuel)%nat ->
      exists w',
        Map.htable_insert fuel t k v w = Ok (0, w') /\
        mem w' !! p = Some (Node k v (next junk)) /\
        lseg (mem w') head (l ++ [(a, set_next n p); (p, Node k v (next junk))])
             (next junk)).
Proof.
  split.
  - intros s hf q kc vc kf vf w t heads k v head l a n p junk rest fuel
      Hhooks Hshape Hv Hh Hseg Hno Hs Hp Hfresh Hfuel.
    eexists. split; [eapply htable_insert_append; eauto|]. cbn [mem].
    assert (a <> p) as Hap.
    { intros ->. destruct (lseg_lookup _ _ _ _ p n Hseg) as [Hin _]; [|congruence].
      apply elem_of_app. right. constructor. }
    split.
    + rewrite lookup_insert_ne by done. apply lookup_insert_eq.
    + apply (lseg_append_node (mem w) l a n head p
               (Node (kc k) (vc v) (next junk))); assumption.
  - intros s hf cmp w t heads k v head l a n p junk rest fuel
      Hhash Hcomp Hshape Hv Hh Hseg Hno Hs Hp Hfresh Hfuel.
    eexists. split; [eapply map_htable_insert_append; eauto|]. cbn [mem].
    assert (a <> p) as Hap.
    { intros ->. destruct (lseg_lookup _ _ _ _ p n Hseg) as [Hin _]; [|congruence].
      apply elem_of_app. right. constructor. }
    split.
    + rewrite lookup_insert_ne by done. apply lookup_insert_eq.
    + apply (lseg_append_node (mem w) l a n head p (Node k v (next junk)));
        assumption.
Qed.

(** The worked table: key 6 is appended behind 2 and 4 in a block whose
    stale link points back at the head of the chain. *)
Lemma C3_append_link_not_cleared_witness :
  (exists w',
      Table.htable_insert 3 Demo.t 6 60 Demo.w = Ok (0, w') /\
      mem w' !! 14 = Some (Node 6 60 10) /\
      lseg (mem w') 10
           [(10, Demo.n10); (12, set_next Demo.n12 14); (14, Node 6 60 10)] 10) /\
  (exists w',
      Map.htable_insert 3 DemoMap.t 6 60 DemoMap.w = Ok (0, w') /\
      mem w' !! 14 = Some (Node 6 60 10) /\
      lseg (mem w') 10
           [(10, Demo.n10); (12, set_next Demo.n12 14); (14, Node 6 60 10)] 10).
Proof.
  split.
  - apply (proj1 C3_append_link_not_cleared Demo.s Demo.hf Demo.q
             Table.htable_default_copy Table.htable_default_copy Demo.kf Demo.kf Demo.w Demo.t
             Demo.heads 6 60 10 [(10, Demo.n10)] 12 Demo.n12 14 (Node 0 0 10) [] 3%nat
             demo_hooks demo_shape).
    + discriminate.
    + reflexivity.
    + simpl. repeat split; discriminate.
    + repeat constructor.
    + reflexivity.
    + discriminate.
    + reflexivity.
    + simpl. lia.
  - apply (proj2 C3_append_link_not_cleared DemoMap.s DemoMap.hf DemoMap.cmp
             DemoMap.w DemoMap.t DemoMap.heads 6 60 10 [(10, Demo.n10)] 12 Demo.n12
             14 (Node 0 0 10) [] 3%nat eq_refl eq_refl demomap_shape).
    + discriminate.
    + reflexivity.
    + simpl. repeat split; discriminate.
    + repeat constructor; discriminate.
    + reflexivity.
    + discriminate.
    + reflexivity.
    + simpl. lia.
Defined.
(** The map's [htable_create] never looks at its function arguments. *)
Lemma map_htable_create_ok size' hash' comp' w p j1 a j2 rest :
  0 < size' -> script w = ABlock p j1 :: ABlock a j2 :: rest ->
  p <> NULL -> a <> NULL ->
  Map.htable_create size' hash' comp' w =
    Ok (p, World (mem w)
                 (<[p := Map.Hmap
                           (Some (memset_zero
                                    (replicate
                                       (Z.to_nat ((size' * PTR_SIZE) mod ULONG_MOD
                                                  / PTR_SIZE)) (next j2))
                                    ((size' * PTR_SIZE) mod ULONG_MOD)))
                           size' hash' comp']> (tabs w))
                 (log w) rest).
Proof.
  intros Hpos Hs Hp Ha. unfold Map.htable_create.
  rewrite (proj2 (Z.ltb_lt 0 size') Hpos).
  unfold assert at 1, bind at 1.
  unfold bind at 1, alloc_table at 1. cbv beta. rewrite Hs, !(eqb_null_ne p Hp).
  unfold bind at 1, malloc_buckets at 1. cbn [script].
  rewrite (eqb_null_ne a Ha).
  munfold. mrewrite. rewrite !insert_insert_eq. reflexivity.
Qed.

Lemma map_htable_create_zero hash' comp' w :
  Map.htable_create 0 hash' comp' w = AssertFail.
Proof. reflexivity. Qed.

(** C9 does not hold of the map: with both functions missing its
    [htable_create] hands out a table. *)
Lemma C9_counterexample :
  exists w' s,
    Map.htable_create 2 None None DemoMap.w_boot = Ok (100, w') /\
    tabs w' !! 100 = Some s /\
    Map.hash s = None /\ Map.comp s = None /\ Map.table s = Some [NULL; NULL].
Proof. eexists _, _. repeat split; vm_compute; reflexivity. Qed.

(** C9. The table's [htable_create] answers NULL, with the world
    untouched (nothing allocated, nothing written), whenever the
    capacity is zero or the hash or the equality function is missing.
    The map's [htable_create] stops on its assertion when the capacity
    is zero, before anything is allocated, and does not examine the
    functions: with a positive capacity and two granted blocks it
    hands out a table whatever the functions are. *)
Theorem C9_create_invalid_argument :
  (forall size' hash' keq' cbs' (w : Table.W),
      size' = 0 \/ hash' = None \/ keq' = None ->
      Table.htable_create size' hash' keq' cbs' w = Ok (NULL, w)) /\
  (forall hash' comp' (w : world Map.htable_t),
      Map.htable_create 0 hash' comp' w = AssertFail) /\
  (forall size' hash' comp' (w : world Map.htable_t) p j1 a j2 rest,
      0 < size' -> script w = ABlock p j1 :: ABlock a j2 :: rest ->
      p <> NULL -> a <> NULL ->
      exists w' s,
        Map.htable_create size' hash' comp' w = Ok (p, w') /\
        tabs w' !! p = Some s /\ Map.hash s = hash' /\ Map.comp s = comp').
Proof.
  split; [|split].
  - intros. apply htable_create_invalid. assumption.
  - intros. apply map_htable_create_zero.
  - intros size' hash' comp' w p j1 a j2 rest Hpos Hs Hp Ha.
    eexists _, _. split; [apply (map_htable_create_ok _ _ _ _ _ _ _ _ _ Hpos Hs Hp Ha)|].
    cbn [tabs]. rewrite lookup_insert_eq. repeat split; reflexivity.
Qed.

Lemma C9_create_invalid_argument_witness :
  Table.htable_create 0 (Some Demo.hf) (Some Demo.q) None Demo.w_boot
    = Ok (NULL, Demo.w_boot) /\
  Table.htable_create 2 None (Some Demo.q) None Demo.w_boot = Ok (NULL, Demo.w_boot) /\
  Table.htable_create 2 (Some Demo.hf) None None Demo.w_boot = Ok (NULL, Demo.w_boot) /\
  Map.htable_create 0 None None DemoMap.w_boot = AssertFail /\
  exists w' s,
    Map.htable_create 2 None None DemoMap.w_boot = Ok (100, w') /\
    tabs w' !! 100 = Some s /\ Map.hash s = None /\ Map.comp s = None.
Proof.
  destruct C9_create_invalid_argument as (Htable & Hzero & Hmap).
  split; [apply Htable; left; reflexivity|].
  split; [apply Htable; right; left; reflexivity|].
  split; [apply Htable; right; right; reflexivity|].
  split; [apply Hzero|].
  apply (Hmap 2 None None DemoMap.w_boot 100 (Node 1 2 3) 200 (Node 4 5 6) []).
  - lia.
  - reflexivity.
  - discriminate.
  - discriminate.
Defined.


End BothClaims.

(** ** The table: one entry per key *)

Section TableUnique.
Import Table TableInv.
Variables (s : htable_t) (hf : htable_hash_t) (q : htable_keq_t)
          (kc vc : htable_cpy_t) (kf vf : htable_free_t).
Hypothesis Hhooks : hooks s hf q kc vc kf vf.
Implicit Types (w : W) (l : chain).

Lemma lseg_prefix h l1 a n l2 p e :
  lseg h p (l1 ++ (a, n) :: l2) e -> lseg h p (l1 ++ [(a, n)]) (next n).
Proof.
  intros H. apply lseg_app in H as (m & H1 & H2). simpl in H2.
  destruct H2 as (-> & Ha & Hn & _).
  apply lseg_app. exists a. split; [assumption|]. simpl. auto.
Qed.

Lemma lseg_update_last h l1 a n p n' :
  lseg h p (l1 ++ [(a, n)]) (next n) -> a ∉ l1.*1 -> next n' = next n ->
  lseg (<[a := n']> h) p (l1 ++ [(a, n')]) (next n').
Proof.
  intros H Hnin Hnext. apply lseg_app in H as (m & H1 & H2). simpl in H2.
  destruct H2 as (-> & Ha & Hn & _).
  apply lseg_app. exists a. split.
  - apply lseg_insert_ne; assumption.
  - simpl. rewrite lookup_insert_eq. auto.
Qed.

(** Where the key sits after a successful insert: behind a prefix [l1]
    of its bucket chain that does not match it, in a node [(a, n)]
    that matches it and holds the new value.  Every other node of the
    new heap is a node of the old heap with the same key; [(a, n)]
    itself is either such a node or a fresh one, and it is fresh only
    when the old bucket chain had no match. *)
Lemma htable_insert_post w t heads cs k v fuel w1 l :
  live w t s heads cs -> v <> NULL -> fresh_script w -> enough fuel cs ->
  q (kc k) k <> 0 -> cs !! slot s hf k = Some l ->
  htable_insert fuel t k v w = Ok (0, w1) ->
  exists s1 heads1 head1 l1 a n,
    hooks s1 hf q kc vc kf vf /\ shape w1 t s1 heads1 /\
    slot s1 hf k = slot s hf k /\
    heads1 !! slot s hf k = Some head1 /\
    lseg (mem w1) head1 (l1 ++ [(a, n)]) (next n) /\ (a ∉ l1.*1) /\
    no_match q k l1 /\ q (key n) k <> 0 /\ value n = vc v /\
    (length l1 < fuel)%nat /\
    (forall a' n', mem w1 !! a' = Some n' ->
       a' = a \/ exists n0, mem w !! a' = Some n0 /\ key n0 = key n') /\
    ((exists n0, mem w !! a = Some n0 /\ key n0 = key n /\ script w1 = script w) \/
     (mem w !! a = None /\ key n = kc k /\ no_match q k l)).
Proof using Hhooks.
  intros Hlive Hv Hfresh Hfuel Hrefl Hl Hins.
  destruct (live_bucket s hf w t heads cs k Hlive) as (head & l' & Hh & Hl' & Hseg).
  rewrite Hl in Hl'. injection Hl' as <-.
  pose proof (enough_lookup _ _ _ _ Hfuel Hl) as Hlen.
  pose proof Hlive as [Hshape Hch]. pose proof Hshape as [Hp Ht Harr Hsz Hpos].
  destruct (htable_insert_cases s hf q kc vc kf vf Hhooks w t heads cs k v head l fuel
              Hlive Hv Hfresh Hfuel Hh Hl)
    as [(l1 & a & n & l2 & -> & Hno & Hq & Hrun)
       |[(Hno & Hfail & Hrun)
       |[(p & junk & rest & -> & -> & Hs & Hpn & Hpf & Hrun)
        |(l0 & a & n & p & junk & rest & -> & Hno & Hs & Hpn & Hpf & Hrun)]]];
    rewrite Hrun in Hins; simplify_eq.
  - (* the value of a match is overwritten *)
    pose proof (lseg_null_fresh _ _ _ _ _ _ Hseg) as Hnin.
    rewrite fmap_app, not_elem_of_app in Hnin. destruct Hnin as [Hnin _].
    destruct (lseg_lookup _ _ _ _ a n Hseg) as [Han _].
    { apply elem_of_app. right. left. }
    rewrite length_app in Hlen. simpl in Hlen.
    exists s, heads, head, l1, a, (set_value n (vc v)).
    split_and!; try assumption; try reflexivity; try lia.
    + split; assumption.
    + cbn [mem]. apply (lseg_update_last _ _ _ n); [|assumption|reflexivity].
      eapply lseg_prefix; eauto.
    + cbn [mem]. intros a' n' Hn'.
      destruct (decide (a = a')) as [->|Hne]; [left; reflexivity|].
      rewrite lookup_insert_ne in Hn' by done. right. eauto.
    + left. exists n. auto.
  - (* the bucket was empty *)
    exists (set_table s (Some (<[slot s hf k := p]> heads))),
           (<[slot s hf k := p]> heads), p, [], p, (Node (kc k) (vc v) NULL).
    split_and!; try assumption; try reflexivity; cbn [tabs mem].
    + apply hooks_set_table. assumption.
    + split; cbn [tabs]; try assumption.
      * apply lookup_insert_eq.
      * reflexivity.
      * cbn. rewrite length_insert. assumption.
    + apply list_lookup_insert_eq. eapply slot_lt; eauto.
    + cbn [app lseg]. rewrite lookup_insert_eq. done.
    + intros Hin. inversion Hin.
    + constructor.
    + intros a' n' Hn'.
      destruct (decide (p = a')) as [->|Hne]; [left; reflexivity|].
      rewrite lookup_insert_ne in Hn' by done. right. eauto.
    + right. repeat split; [assumption|constructor].
  - (* the chain had no match *)
    rewrite length_app in Hlen. simpl in Hlen.
    destruct (lseg_lookup _ _ _ _ a n Hseg) as [Han _].
    { apply elem_of_app. right. left. }
    assert (a <> p) as Hap by congruence.
    pose proof (lseg_append_node (mem w) l0 a n head p
                  (Node (kc k) (vc v) (next junk)) Hseg Hpf Hpn) as Hnew.
    exists s, heads, head, (l0 ++ [(a, set_next n p)]), p,
           (Node (kc k) (vc v) (next junk)).
    split_and!; try assumption; try reflexivity; cbn [tabs mem].
    + split; assumption.
    + rewrite <- app_assoc. exact Hnew.
    + intros Hin. apply list_elem_of_fmap in Hin as ([b m] & Hb & Hin).
      simpl in Hb. subst b.
      apply elem_of_app in Hin as [Hin|Hin].
      * destruct (lseg_lookup _ _ _ _ p m Hseg) as [Hpm _]; [|congruence].
        apply elem_of_app. left. assumption.
      * apply list_elem_of_singleton in Hin. congruence.
    + unfold no_match in *. rewrite Forall_app in *. destruct Hno as [Hno1 Hno2].
      split; [assumption|]. apply Forall_singleton. apply Forall_inv in Hno2.
      exact Hno2.
    + rewrite length_app. simpl. lia.
    + intros a' n' Hn'.
      destruct (decide (p = a')) as [->|Hne]; [left; reflexivity|]. right.
      destruct (decide (a = a')) as [->|Hne'].
      * rewrite lookup_insert_eq in Hn'. injection Hn' as <-. eauto.
      * rewrite !lookup_insert_ne in Hn' by done. eauto.
    + right. repeat split; assumption.
Qed.
End TableUnique.

Section TableUniqueClaim.
Import Table TableInv.
Implicit Types (w : W) (l : chain).

(** When the bucket chain of [k] has no match, no node of the heap
    matches [k]: a matching node would sit in that very bucket. *)
Lemma no_match_anywhere s hf q w t heads cs k l :
  live w t s heads cs -> owned (mem w) cs -> placed hf (size s) cs ->
  (forall x y, same q x y -> bucket_of hf (size s) x = bucket_of hf (size s) y) ->
  cs !! slot s hf k = Some l -> no_match q k l ->
  forall a0 n0, mem w !! a0 = Some n0 -> ~ same q (key n0) k.
Proof.
  intros Hlive Hown Hplaced Hhash Hl Hno a0 n0 Hn0 Hsame.
  destruct (Hown a0 n0 Hn0) as (i & l' & Hl' & Hin).
  pose proof (Hplaced i l' a0 n0 Hl' Hin) as Hb.
  rewrite (Hhash _ _ Hsame) in Hb.
  assert (i = slot s hf k) as -> by (unfold slot; lia).
  pose proof (eq_trans (eq_sym Hl') Hl) as E. injection E as ->.
  unfold no_match in Hno. rewrite Forall_forall in Hno.
  apply Hsame. exact (Hno (a0, n0) Hin).
Qed.

(** A successful insert keeps the keys of the heap pairwise distinct. *)
Lemma insert_keeps_uniq s hf q kc vc kf vf w t heads cs k v fuel w1 :
  hooks s hf q kc vc kf vf -> live w t s heads cs ->
  owned (mem w) cs -> placed hf (size s) cs ->
  Equivalence (same q) ->
  (forall x y, same q x y -> bucket_of hf (size s) x = bucket_of hf (size s) y) ->
  (forall x, same q (kc x) x) ->
  uniq_keys (same q) (mem w) ->
  fresh_script w -> enough fuel cs -> v <> NULL ->
  htable_insert fuel t k v w = Ok (0, w1) ->
  uniq_keys (same q) (mem w1).
Proof.
  intros Hhooks Hlive Hown Hplaced Hequiv Hhash Hcopy Huniq Hfresh Hfuel Hv1 Hins.
  destruct (live_bucket s hf w t heads cs k Hlive) as (head & l & Hh & Hl & Hseg).
  destruct (htable_insert_post s hf q kc vc kf vf Hhooks w t heads cs k v fuel w1 l
              Hlive Hv1 Hfresh Hfuel (Hcopy k) Hl Hins)
    as (s1 & heads1 & head1 & l1 & a & n & Hhooks1 & Hshape1 & Hslot & Hh1 & Hseg1
        & Hnin & Hno1 & Hq & Hval & Hlen & Hold & Hstatus).
  destruct (lseg_lookup _ _ _ _ a n Hseg1) as [Han Hane].
  { apply elem_of_app. right. left. }
  intros a1 n1 a2 n2 Hn1 Hn2 Hsame.
  destruct Hstatus as [(na & Hna & Hka & _)|(Hnone & Hkey & Hno)].
  - assert (forall a' n', mem w1 !! a' = Some n' ->
              exists n0, mem w !! a' = Some n0 /\ key n0 = key n') as Hall.
    { intros a' n' Hn'. destruct (Hold a' n' Hn') as [->|?]; [|assumption].
      exists na. split; [assumption|].
      pose proof (eq_trans (eq_sym Han) Hn') as E. injection E as <-.
      exact Hka. }
    destruct (Hall a1 n1 Hn1) as (m1 & Hm1 & Hk1).
    destruct (Hall a2 n2 Hn2) as (m2 & Hm2 & Hk2).
    apply (Huniq a1 m1 a2 m2 Hm1 Hm2). rewrite Hk1, Hk2. exact Hsame.
  - assert (forall a0 n0, mem w !! a0 = Some n0 -> ~ same q (key n0) k) as Hnobody.
    { eapply no_match_anywhere; eauto. }
    destruct (Hold a1 n1 Hn1) as [->|(m1 & Hm1 & Hk1)];
      destruct (Hold a2 n2 Hn2) as [E2|(m2 & Hm2 & Hk2)]; subst.
    + reflexivity.
    + exfalso. apply (Hnobody a2 m2 Hm2). rewrite Hk2.
      pose proof (eq_trans (eq_sym Han) Hn1) as E. injection E as <-.
      transitivity (key n); [symmetry; exact Hsame|exact Hq].
    + exfalso. apply (Hnobody a1 m1 Hm1). rewrite Hk1.
      pose proof (eq_trans (eq_sym Han) Hn2) as E. injection E as <-.
      transitivity (key n); [exact Hsame|exact Hq].
    + apply (Huniq a1 m1 a2 m2 Hm1 Hm2). rewrite Hk1, Hk2. exact Hsame.
Qed.

End TableUniqueClaim.

Section DemoUnique.
Import Table TableInv Demo.

Lemma demo_same a b : same q a b <-> a = b.
Proof.
  unfold same, q. destruct (Z.eqb_spec a b); split; intros; done.
Qed.

Lemma demo_equiv : Equivalence (same q).
Proof.
  split.
  - intros x. apply demo_same. reflexivity.
  - intros x y H. apply demo_same in H. apply demo_same. auto.
  - intros x y z H1 H2. apply demo_same in H1, H2. apply demo_same. congruence.
Qed.

Lemma demo_mem a n :
  mem w !! a = Some n -> (a = 10 /\ n = n10) \/ (a = 12 /\ n = n12).
Proof.
  unfold w. cbn [mem]. intros H.
  destruct (decide (a = 10)) as [->|H10].
  - rewrite lookup_insert_eq in H. injection H as <-. auto.
  - rewrite lookup_insert_ne in H by done.
    destruct (decide (a = 12)) as [->|H12].
    + rewrite lookup_insert_eq in H. injection H as <-. auto.
    + rewrite lookup_insert_ne in H by done. rewrite lookup_empty in H. done.
Qed.

Lemma demo_owned : owned (mem w) cs.
Proof.
  intros a n H. exists 0%nat, [(10, n10); (12, n12)]. split; [reflexivity|].
  destruct (demo_mem a n H) as [[-> ->]|[-> ->]]; [left | right; left].
Qed.

Lemma demo_placed : placed hf (size s) cs.
Proof.
  intros i l a n Hl Hin. destruct i as [|[|i]]; simpl in Hl; simplify_eq.
  - apply elem_of_cons in Hin as [Hin|Hin]; [simplify_eq; reflexivity|].
    apply elem_of_cons in Hin as [Hin|Hin]; [simplify_eq; reflexivity|].
    inversion Hin.
  - inversion Hin.
Qed.

Lemma demo_uniq : uniq_keys (same q) (mem w).
Proof.
  intros a1 n1 a2 n2 H1 H2 Hsame. apply demo_same in Hsame.
  destruct (demo_mem a1 n1 H1) as [[-> ->]|[-> ->]];
    destruct (demo_mem a2 n2 H2) as [[-> ->]|[-> ->]];
    try reflexivity; discriminate Hsame.
Qed.

End DemoUnique.

(** ** The two defects at work *)

Section Defects.
Import Table TableInv.

(** A table fresh from [htable_create] cannot be destroyed: its first
    bucket is empty. *)
Example destroy_fresh_table :
  exists w1,
    htable_create 2 (Some Demo.hf) (Some Demo.q) None Demo.w_boot = Ok (100, w1) /\
    htable_destroy 1 100 w1 = Undefined NullDeref.
Proof. eexists. split; vm_compute; reflexivity. Qed.

(** After the append of key 6 into the worked table the chain of
    bucket 0 is the cycle 10, 12, 14, 10, ...: the search for a key
    that is not there uses up any budget. *)
Lemma insert_makes_cycle :
  htable_insert 3 Demo.t 6 60 Demo.w = Ok (0, Demo.w_cyclic).
Proof.
  apply (htable_insert_append Demo.s Demo.hf Demo.q htable_default_copy
           htable_default_copy Demo.kf Demo.kf demo_hooks Demo.w Demo.t Demo.heads
           6 60 10 [(10, Demo.n10)] 12 Demo.n12 14 (Node 0 0 10) [] 3 demo_shape).
  - discriminate.
  - reflexivity.
  - simpl. repeat split; discriminate.
  - repeat constructor.
  - reflexivity.
  - discriminate.
  - reflexivity.
  - simpl. lia.
Qed.

Lemma get_scan_cycle fuel :
  get_scan fuel Demo.s 8 10 Demo.w_cyclic = OutOfFuel /\
  get_scan fuel Demo.s 8 12 Demo.w_cyclic = OutOfFuel /\
  get_scan fuel Demo.s 8 14 Demo.w_cyclic = OutOfFuel.
Proof.
  induction fuel as [|fuel (IH10 & IH12 & IH14)]; [repeat split; reflexivity|].
  split; [|split]; cbn [get_scan].
  - change (negb (10 =? NULL)) with true. cbv iota.
    rewrite (bind_ok _ _ _ _ _ (load_ok 10 Demo.n10 Demo.w_cyclic ltac:(discriminate) eq_refl)).
    exact IH12.
  - change (negb (12 =? NULL)) with true. cbv iota.
    rewrite (bind_ok _ _ _ _ _
               (load_ok 12 (set_next Demo.n12 14) Demo.w_cyclic ltac:(discriminate) eq_refl)).
    exact IH14.
  - change (negb (14 =? NULL)) with true. cbv iota.
    rewrite (bind_ok _ _ _ _ _
               (load_ok 14 (Node 6 60 10) Demo.w_cyclic ltac:(discriminate) eq_refl)).
    exact IH10.
Qed.

Example get_never_returns_after_append fuel :
  htable_get fuel Demo.t 8 Demo.w_cyclic = OutOfFuel.
Proof.
  unfold htable_get. change (Demo.t =? NULL) with false. cbv iota.
  rewrite (bind_ok _ _ _ _ _
             (load_table_ok Demo.t Demo.s Demo.w_cyclic ltac:(discriminate) eq_refl)).
  change (table Demo.s) with (Some Demo.heads). cbv iota.
  assert (get_hash Demo.t 8 Demo.w_cyclic = Ok (0, Demo.w_cyclic)) as Hh by reflexivity.
  rewrite (bind_ok _ _ _ _ _ Hh).
  change (bucket_at Demo.heads 0) with (ret (T:=htable_t) 10).
  unfold bind at 1, ret at 1.
  apply get_scan_cycle.
Qed.
End Defects.

(** ** Association lists *)

Section Assoc.
Import Table TableInv.
Variable q : ptr -> ptr -> Z.
Implicit Types (l : chain) (es : list (ptr * ptr)).

Lemma contents_app l1 l2 : contents (l1 ++ l2) = contents l1 ++ contents l2.
Proof. unfold contents. apply fmap_app. Qed.

Lemma contents_length l : length (contents l) = length l.
Proof. unfold contents. apply length_fmap. Qed.

Lemma assoc_find_miss k l : no_match q k l -> assoc_find q k (contents l) = NULL.
Proof.
  induction 1 as [|[a n] l Hz _ IH]; simpl; [reflexivity|].
  simpl in Hz. rewrite Hz. exact IH.
Qed.

Lemma assoc_find_hit k l1 a n l2 :
  no_match q k l1 -> q (key n) k <> 0 ->
  assoc_find q k (contents (l1 ++ (a, n) :: l2)) = value n.
Proof.
  intros Hno Hq. induction Hno as [|[a1 n1] l1 Hz _ IH]; simpl.
  - apply Z.eqb_neq in Hq. rewrite Hq. reflexivity.
  - simpl in Hz. rewrite Hz. exact IH.
Qed.

Lemma assoc_upsert_miss k k' v' l :
  no_match q k l ->
  assoc_upsert q k k' v' (contents l) = contents l ++ [(k', v')].
Proof.
  induction 1 as [|[a n] l Hz _ IH]; simpl; [reflexivity|].
  simpl in Hz. rewrite Hz. cbn [Z.eqb]. f_equal. exact IH.
Qed.

Lemma assoc_upsert_hit k k' v' l1 a n l2 :
  no_match q k l1 -> q (key n) k <> 0 ->
  assoc_upsert q k k' v' (contents (l1 ++ (a, n) :: l2)) =
    contents (l1 ++ (a, set_value n v') :: l2).
Proof.
  intros Hno Hq. induction Hno as [|[a1 n1] l1 Hz _ IH]; simpl.
  - apply Z.eqb_neq in Hq. rewrite Hq. reflexivity.
  - simpl in Hz. rewrite Hz. cbn [Z.eqb]. f_equal. exact IH.
Qed.

Lemma assoc_erase_miss k l :
  no_match q k l -> assoc_erase q k (contents l) = contents l.
Proof.
  induction 1 as [|[a n] l Hz _ IH]; simpl; [reflexivity|].
  simpl in Hz. rewrite Hz. cbn [Z.eqb]. f_equal. exact IH.
Qed.

Lemma assoc_erase_hit k l1 a n l2 :
  no_match q k l1 -> q (key n) k <> 0 ->
  assoc_erase q k (contents (l1 ++ (a, n) :: l2)) = contents (l1 ++ l2).
Proof.
  intros Hno Hq. induction Hno as [|[a1 n1] l1 Hz _ IH]; simpl.
  - apply Z.eqb_neq in Hq. rewrite Hq. reflexivity.
  - simpl in Hz. rewrite Hz. cbn [Z.eqb]. f_equal. exact IH.
Qed.

(** The entry just written answers for its key. *)
Lemma assoc_find_upsert_same k k' v' es :
  q k' k <> 0 -> assoc_find q k (assoc_upsert q k k' v' es) = v'.
Proof.
  intros Hq. induction es as [|[k0 v0] es IH]; simpl.
  - apply Z.eqb_neq in Hq. rewrite Hq. reflexivity.
  - destruct (q k0 k =? 0) eqn:E; simpl; rewrite E; [exact IH | reflexivity].
Qed.

Section Equiv.
Hypothesis Hequiv : Equivalence (same q).

Lemma same_apart k k2 x : same q x k -> ~ same q k k2 -> q x k2 = 0.
Proof using Hequiv.
  intros Hxk Hkk2. destruct (Z.eq_dec (q x k2) 0) as [Hz|Hnz]; [exact Hz|].
  exfalso. apply Hkk2. transitivity x; [symmetry; exact Hxk | exact Hnz].
Qed.

(** An upsert for [k] is not seen by a key that differs from [k]. *)
Lemma assoc_find_upsert_other k k2 k' v' es :
  same q k' k -> ~ same q k k2 ->
  assoc_find q k2 (assoc_upsert q k k' v' es) = assoc_find q k2 es.
Proof using Hequiv.
  intros Hk' Hne. induction es as [|[k0 v0] es IH]; simpl.
  - rewrite (same_apart k k2 k' Hk' Hne). reflexivity.
  - destruct (Z.eqb_spec (q k0 k) 0) as [Hz|Hnz]; simpl.
    + rewrite IH. reflexivity.
    + rewrite (same_apart k k2 k0 Hnz Hne). reflexivity.
Qed.

(** An erase for [k] is not seen by a key that differs from [k]. *)
Lemma assoc_find_erase_other k k2 es :
  ~ same q k k2 ->
  assoc_find q k2 (assoc_erase q k es) = assoc_find q k2 es.
Proof using Hequiv.
  intros Hne. induction es as [|[k0 v0] es IH]; simpl; [reflexivity|].
  destruct (Z.eqb_spec (q k0 k) 0) as [Hz|Hnz]; simpl.
  - rewrite IH. reflexivity.
  - rewrite (same_apart k k2 k0 Hnz Hne). reflexivity.
Qed.

(** Among distinct keys, the erased entry was the only one for [k]. *)
Lemma assoc_find_erase_same k es :
  distinct_keys q es -> assoc_find q k (assoc_erase q k es) = NULL.
Proof using Hequiv.
  induction es as [|[k0 v0] es IH]; simpl; [reflexivity|].
  intros [Hfirst Hrest].
  destruct (Z.eqb_spec (q k0 k) 0) as [Hz|Hnz]; simpl.
  - rewrite Hz. cbn [Z.eqb]. apply IH. exact Hrest.
  - clear IH Hrest. induction Hfirst as [|[k1 v1] es Hz1 _ IH]; simpl; [reflexivity|].
    simpl in Hz1.
    destruct (Z.eqb_spec (q k1 k) 0) as [Hz|Hnz1]; [exact IH|].
    exfalso. assert (same q k1 k0) as Hs.
    { transitivity k; [exact Hnz1 | symmetry; exact Hnz]. }
    exact (Hs Hz1).
Qed.
End Equiv.

(** The keys along a null-terminated chain are distinct when the keys
    of the heap are. *)
Lemma chain_distinct (h : gmap Z htable_node) l : forall p,
  uniq_keys (same q) h -> lseg h p l NULL -> distinct_keys q (contents l).
Proof.
  induction l as [|[a n] l IH]; intros p Huniq Hseg; [exact I|].
  pose proof (lseg_null_fresh h [] a n l p Hseg) as Hfresh. simpl in Hfresh.
  simpl in Hseg. destruct Hseg as (-> & Ha & Hn & Hseg).
  split; [|eapply IH; eauto].
  apply Forall_fmap, Forall_forall. intros [a' n'] Hin. simpl.
  destruct (Z.eq_dec (q (key n') (key n)) 0) as [Hz|Hnz]; [exact Hz|].
  exfalso. apply Hfresh.
  destruct (lseg_lookup _ _ _ _ a' n' Hseg Hin) as [Hn' _].
  rewrite <- (Huniq a' n' a n Hn' Hn Hnz).
  apply list_elem_of_fmap. exists (a', n'). split; [reflexivity | exact Hin].
Qed.
End Assoc.

(** ** The table: [htable_get] as a search of the bucket's entries *)

Section TableGet.
Import Table TableInv.

Lemma htable_get_find s hf q kc vc kf vf w t heads cs k l fuel :
  hooks s hf q kc vc kf vf -> live w t s heads cs -> enough fuel cs ->
  cs !! slot s hf k = Some l ->
  htable_get fuel t k w = Ok (assoc_find q k (contents l), w).
Proof.
  intros Hhooks Hlive Hfuel Hl.
  destruct (live_bucket s hf w t heads cs k Hlive) as (head & l' & Hh & Hl' & Hseg).
  pose proof (eq_trans (eq_sym Hl') Hl) as E. injection E as ->.
  pose proof (enough_lookup _ _ _ _ Hfuel Hl) as Hlen.
  destruct Hlive as [Hshape _].
  destruct (first_match q k l) as [Hno|(l1 & a & n & l2 & -> & Hno & Hq)].
  - rewrite (assoc_find_miss q k l Hno).
    eapply htable_get_miss; eauto.
  - rewrite (assoc_find_hit q k l1 a n l2 Hno Hq).
    rewrite length_app in Hlen. simpl in Hlen.
    eapply htable_get_hit; eauto. lia.
Qed.
End TableGet.

(** ** The table: the invariant across inserts *)

Section TableInvariant.
Import Table TableInv.
Implicit Types (w : W) (l : chain).

Lemma chains_rebuild (h h' : gmap Z htable_node) heads cs (i : nat) head' l' :
  Forall2 (fun hd l => lseg h hd l NULL) heads cs ->
  lseg h' head' l' NULL ->
  (forall (j : nat) hd lj, j <> i -> heads !! j = Some hd -> cs !! j = Some lj ->
     lseg h' hd lj NULL) ->
  Forall2 (fun hd l => lseg h' hd l NULL) (<[i := head']> heads) (<[i := l']> cs).
Proof.
  intros Hch Hnew Hother.
  pose proof (Forall2_length _ _ _ Hch) as Hlen.
  apply Forall2_same_length_lookup_2.
  - rewrite !length_insert. exact Hlen.
  - intros j x y Hx Hy. destruct (decide (j = i)) as [->|Hne].
    + assert (i < length heads)%nat as Hi.
      { apply lookup_lt_Some in Hx. rewrite length_insert in Hx. exact Hx. }
      rewrite list_lookup_insert_eq in Hx by exact Hi.
      rewrite list_lookup_insert_eq in Hy by lia.
      simplify_eq. exact Hnew.
    + rewrite list_lookup_insert_ne in Hx by done.
      rewrite list_lookup_insert_ne in Hy by done.
      eapply Hother; eauto.
Qed.

(** A node of the bucket [i] is on no other chain. *)
Lemma foreign_chain hf sz (h : gmap Z htable_node) heads cs (i j : nat) l lj a n :
  Forall2 (fun hd l => lseg h hd l NULL) heads cs -> placed hf sz cs ->
  cs !! i = Some l -> (a, n) ∈ l -> j <> i -> cs !! j = Some lj ->
  a ∉ lj.*1.
Proof.
  intros Hch Hplaced Hl Hin Hne Hlj Ha.
  apply list_elem_of_fmap in Ha as ([b m] & Hb & Hm). simpl in Hb. subst b.
  destruct (Forall2_lookup_r _ _ _ _ _ Hch Hl) as (hd & _ & Hseg).
  destruct (Forall2_lookup_r _ _ _ _ _ Hch Hlj) as (hdj & _ & Hsegj).
  destruct (lseg_lookup _ _ _ _ a n Hseg Hin) as [Hn _].
  destruct (lseg_lookup _ _ _ _ a m Hsegj Hm) as [Hm' _].
  assert (m = n) as -> by congruence.
  pose proof (Hplaced i l a n Hl Hin) as Hi.
  pose proof (Hplaced j lj a n Hlj Hm) as Hj. lia.
Qed.

(** A fresh address is on no chain. *)
Lemma fresh_off_chain (h : gmap Z htable_node) hd l p :
  lseg h hd l NULL -> h !! p = None -> p ∉ l.*1.
Proof.
  intros Hseg Hp Hin.
  apply list_elem_of_fmap in Hin as ([b m] & Hb & Hm). simpl in Hb. subst b.
  destruct (lseg_lookup _ _ _ _ p m Hseg Hm) as [Hm' _].
  pose proof (eq_trans (eq_sym Hm') Hp) as E. discriminate E.
Qed.

(** With an allocator that hands out fresh, cleared blocks, a successful
    insert rewrites the entries of the key's bucket as an
    update-or-append, calls the value free hook on the value it
    replaces and on nothing else, leaves every other bucket alone and
    keeps the invariant and the capacity. *)
Lemma htable_insert_refines s hf q kc vc kf vf w t heads cs k v fuel w1 l :
  hooks s hf q kc vc kf vf -> invariant hf q w t s heads cs ->
  Equivalence (same q) ->
  (forall x y, same q x y -> bucket_of hf (size s) x = bucket_of hf (size s) y) ->
  (forall x, same q (kc x) x) ->
  fresh_script w -> clean_script w -> enough fuel cs -> v <> NULL ->
  cs !! slot s hf k = Some l ->
  htable_insert fuel t k v w = Ok (0, w1) ->
  exists s1 heads1 l1,
    hooks s1 hf q kc vc kf vf /\ size s1 = size s /\
    contents l1 = assoc_upsert q k (kc k) (vc v) (contents l) /\
    log w1 = log w ++ (if decide (no_match q k l) then []
                       else [Call_vfree vf (assoc_find q k (contents l))]) /\
    invariant hf q w1 t s1 heads1 (<[slot s hf k := l1]> cs).
Proof.
  intros Hhooks (Hlive & Hown & Hplaced & Huniq) Hequiv Hhash Hcopy Hfresh Hclean
    Hfuel Hv Hl0 Hins.
  pose proof (insert_keeps_uniq s hf q kc vc kf vf w t heads cs k v fuel w1 Hhooks
                Hlive Hown Hplaced Hequiv Hhash Hcopy Huniq Hfresh Hfuel Hv Hins)
    as Huniq1.
  destruct (live_bucket s hf w t heads cs k Hlive) as (head & l' & Hh & Hl & Hseg).
  pose proof (eq_trans (eq_sym Hl0) Hl) as E. injection E as <-. clear Hl0.
  pose proof Hlive as [Hshape Hch]. pose proof Hshape as [Hp Ht Harr Hsz Hpos].
  pose proof (slot_lt s hf w t heads k Hshape) as Hi.
  assert (bucket_of hf (size s) (kc k) = Z.of_nat (slot s hf k)) as Hbk.
  { rewrite (Hhash _ _ (Hcopy k)). eapply slot_of_nat; eauto. }
  destruct (htable_insert_cases s hf q kc vc kf vf Hhooks w t heads cs k v head l fuel
              Hlive Hv Hfresh Hfuel Hh Hl)
    as [(l1 & a & n & l2 & -> & Hno & Hq & Hrun)
       |[(Hno & Hfail & Hrun)
       |[(p & junk & rest & -> & -> & Hs & Hpn & Hpf & Hrun)
        |(l0 & a & n & p & junk & rest & -> & Hno & Hs & Hpn & Hpf & Hrun)]]];
    rewrite Hrun in Hins; simplify_eq.
  - (* the value of a match is overwritten *)
    set (n' := set_value n (vc v)).
    assert ((a, n) ∈ l1 ++ (a, n) :: l2) as Hin by (apply elem_of_app; right; left).
    destruct (lseg_lookup _ _ _ _ a n Hseg Hin) as [Han _].
    pose proof (lseg_null_fresh _ _ _ _ _ _ Hseg) as Hnin.
    exists s, heads, (l1 ++ (a, n') :: l2).
    split; [assumption|]. split; [reflexivity|].
    split; [symmetry; apply assoc_upsert_hit; assumption|].
    split; [cbn [log]; rewrite decide_False; [rewrite (assoc_find_hit q k l1 a n l2 Hno Hq); reflexivity|]; intros Hall; apply Hq; unfold no_match in Hall; rewrite Forall_app, Forall_cons in Hall; tauto|].
    split_and!; try assumption.
    + split; [split; assumption|]. cbn [mem].
      rewrite <- (list_insert_id heads (slot s hf k) head Hh) at 1.
      apply (chains_rebuild (mem w)); [assumption| |].
      * apply (lseg_update_node _ _ _ n); [assumption|reflexivity].
      * intros j hd lj Hne Hhd Hlj.
        apply lseg_insert_ne.
        -- exact (foreign_chain hf (size s) (mem w) heads cs (slot s hf k) j _ lj a n
                    Hch Hplaced Hl Hin Hne Hlj).
        -- exact (Forall2_lookup_lr _ _ _ _ _ _ Hch Hhd Hlj).
    + cbn [mem]. intros a' m' Hm'.
      destruct (decide (a = a')) as [<-|Hne].
      * rewrite lookup_insert_eq in Hm'. injection Hm' as <-.
        exists (slot s hf k), (l1 ++ (a, n') :: l2).
        split; [apply list_lookup_insert_eq; apply lookup_lt_Some in Hl; lia|].
        apply elem_of_app. right. left.
      * rewrite lookup_insert_ne in Hm' by done.
        destruct (Hown a' m' Hm') as (j & lj & Hlj & Hinj).
        destruct (decide (j = slot s hf k)) as [->|Hnej].
        -- pose proof (eq_trans (eq_sym Hlj) Hl) as E. injection E as ->.
           exists (slot s hf k), (l1 ++ (a, n') :: l2).
           split; [apply list_lookup_insert_eq; apply lookup_lt_Some in Hl; lia|].
           apply elem_of_app in Hinj as [Hinj|Hinj].
           ++ apply elem_of_app. left. assumption.
           ++ apply elem_of_cons in Hinj as [Heq|Hinj]; [congruence|].
              apply elem_of_app. right. right. assumption.
        -- exists j, lj. split; [|assumption].
           rewrite list_lookup_insert_ne by done. assumption.
    + intros j lj a' m' Hlj Hinj.
      destruct (decide (j = slot s hf k)) as [->|Hnej].
      * rewrite list_lookup_insert_eq in Hlj by (apply lookup_lt_Some in Hl; lia).
        injection Hlj as <-.
        apply elem_of_app in Hinj as [Hinj|Hinj].
        -- apply (Hplaced _ _ a' m' Hl). apply elem_of_app. left. assumption.
        -- apply elem_of_cons in Hinj as [Heq|Hinj].
           ++ injection Heq as -> ->. exact (Hplaced _ _ a n Hl Hin).
           ++ apply (Hplaced _ _ a' m' Hl). apply elem_of_app. right. right.
              assumption.
      * rewrite list_lookup_insert_ne in Hlj by done. eauto.
  - (* the bucket was empty *)
    set (nn := Node (kc k) (vc v) NULL).
    exists (set_table s (Some (<[slot s hf k := p]> heads))),
           (<[slot s hf k := p]> heads), [(p, nn)].
    split; [apply hooks_set_table; assumption|]. split; [reflexivity|].
    split; [reflexivity|].
    split; [cbn [log]; rewrite decide_True by constructor; symmetry; apply app_nil_r|].
    split_and!; try assumption.
    + split.
      * split; cbn [tabs]; try assumption.
        -- apply lookup_insert_eq.
        -- reflexivity.
        -- cbn. rewrite length_insert. assumption.
      * cbn [mem]. apply (chains_rebuild (mem w)); [assumption| |].
        -- simpl. rewrite lookup_insert_eq. done.
        -- intros j hd lj Hne Hhd Hlj.
           pose proof (Forall2_lookup_lr _ _ _ _ _ _ Hch Hhd Hlj) as Hsegj.
           cbv beta in Hsegj.
           apply lseg_insert_ne; [|exact Hsegj].
           exact (fresh_off_chain _ _ _ _ Hsegj Hpf).
    + cbn [mem]. intros a' m' Hm'.
      destruct (decide (p = a')) as [<-|Hne].
      * rewrite lookup_insert_eq in Hm'. injection Hm' as <-.
        exists (slot s hf k), [(p, nn)].
        split; [apply list_lookup_insert_eq; apply lookup_lt_Some in Hl; lia|].
        left.
      * rewrite lookup_insert_ne in Hm' by done.
        destruct (Hown a' m' Hm') as (j & lj & Hlj & Hinj).
        destruct (decide (j = slot s hf k)) as [->|Hnej].
        -- pose proof (eq_trans (eq_sym Hlj) Hl) as E. injection E as ->.
           inversion Hinj.
        -- exists j, lj. split; [|assumption].
           rewrite list_lookup_insert_ne by done. assumption.
    + intros j lj a' m' Hlj Hinj.
      destruct (decide (j = slot s hf k)) as [->|Hnej].
      * rewrite list_lookup_insert_eq in Hlj by (apply lookup_lt_Some in Hl; lia).
        injection Hlj as <-.
        apply list_elem_of_singleton in Hinj. injection Hinj as -> ->. exact Hbk.
      * rewrite list_lookup_insert_ne in Hlj by done. eauto.
  - (* the chain had no match *)
    pose proof (Hclean p junk rest Hs) as Hnull.
    set (nn := Node (kc k) (vc v) (next junk)).
    assert ((a, n) ∈ l0 ++ [(a, n)]) as Hin by (apply elem_of_app; right; left).
    destruct (lseg_lookup _ _ _ _ a n Hseg Hin) as [Han _].
    assert (a <> p) as Hap by congruence.
    pose proof (lseg_null_fresh _ _ _ _ _ _ Hseg) as Hnin. rewrite app_nil_r in Hnin.
    exists s, heads, (l0 ++ [(a, set_next n p); (p, nn)]).
    split; [assumption|]. split; [reflexivity|].
    split; [rewrite (assoc_upsert_miss q k _ _ _ Hno), !contents_app; simpl; rewrite <- app_assoc; reflexivity|].
    split; [cbn [log]; rewrite decide_True by assumption; symmetry; apply app_nil_r|].
    split_and!; try assumption.
    + split; [split; assumption|]. cbn [mem].
      rewrite <- (list_insert_id heads (slot s hf k) head Hh) at 1.
      apply (chains_rebuild (mem w)); [assumption| |].
      * pose proof (lseg_append_node (mem w) l0 a n head p nn Hseg Hpf Hpn) as H.
        subst nn. cbn [next] in H. rewrite Hnull in H. rewrite Hnull. exact H.
      * intros j hd lj Hne Hhd Hlj.
        pose proof (Forall2_lookup_lr _ _ _ _ _ _ Hch Hhd Hlj) as Hsegj.
        cbv beta in Hsegj.
        apply lseg_insert_ne.
        -- exact (foreign_chain hf (size s) (mem w) heads cs (slot s hf k) j _ lj a n
                    Hch Hplaced Hl Hin Hne Hlj).
        -- apply lseg_insert_ne; [|exact Hsegj].
           exact (fresh_off_chain _ _ _ _ Hsegj Hpf).
    + cbn [mem]. intros a' m' Hm'.
      destruct (decide (a = a')) as [<-|Hne].
      * rewrite lookup_insert_eq in Hm'. injection Hm' as <-.
        exists (slot s hf k), (l0 ++ [(a, set_next n p); (p, nn)]).
        split; [apply list_lookup_insert_eq; apply lookup_lt_Some in Hl; lia|].
        apply elem_of_app. right. left.
      * rewrite lookup_insert_ne in Hm' by done.
        destruct (decide (p = a')) as [<-|Hne'].
        -- rewrite lookup_insert_eq in Hm'. injection Hm' as <-.
           exists (slot s hf k), (l0 ++ [(a, set_next n p); (p, nn)]).
           split; [apply list_lookup_insert_eq; apply lookup_lt_Some in Hl; lia|].
           apply elem_of_app. right. right. left.
        -- rewrite lookup_insert_ne in Hm' by done.
           destruct (Hown a' m' Hm') as (j & lj & Hlj & Hinj).
           destruct (decide (j = slot s hf k)) as [->|Hnej].
           ++ pose proof (eq_trans (eq_sym Hlj) Hl) as E. injection E as ->.
              exists (slot s hf k), (l0 ++ [(a, set_next n p); (p, nn)]).
              split; [apply list_lookup_insert_eq; apply lookup_lt_Some in Hl; lia|].
              apply elem_of_app in Hinj as [Hinj|Hinj].
              ** apply elem_of_app. left. assumption.
              ** apply list_elem_of_singleton in Hinj. congruence.
           ++ exists j, lj. split; [|assumption].
              rewrite list_lookup_insert_ne by done. assumption.
    + intros j lj a' m' Hlj Hinj.
      destruct (decide (j = slot s hf k)) as [->|Hnej].
      * rewrite list_lookup_insert_eq in Hlj by (apply lookup_lt_Some in Hl; lia).
        injection Hlj as <-.
        apply elem_of_app in Hinj as [Hinj|Hinj].
        -- apply (Hplaced _ _ a' m' Hl). apply elem_of_app. left. assumption.
        -- apply elem_of_cons in Hinj as [Heq|Hinj].
           ++ injection Heq as -> ->. exact (Hplaced _ _ a n Hl Hin).
           ++ apply list_elem_of_singleton in Hinj. injection Hinj as -> ->.
              exact Hbk.
      * rewrite list_lookup_insert_ne in Hlj by done. eauto.
Qed.

(** With an allocator that hands out cleared blocks, a successful insert
    keeps the invariant and the capacity. *)
Lemma htable_insert_invariant s hf q kc vc kf vf w t heads cs k v fuel w1 :
  hooks s hf q kc vc kf vf -> invariant hf q w t s heads cs ->
  Equivalence (same q) ->
  (forall x y, same q x y -> bucket_of hf (size s) x = bucket_of hf (size s) y) ->
  (forall x, same q (kc x) x) ->
  fresh_script w -> clean_script w -> enough fuel cs -> v <> NULL ->
  htable_insert fuel t k v w = Ok (0, w1) ->
  exists s1 heads1 cs1,
    hooks s1 hf q kc vc kf vf /\ size s1 = size s /\
    invariant hf q w1 t s1 heads1 cs1.
Proof.
  intros Hhooks Hinv Hequiv Hhash Hcopy Hfresh Hclean Hfuel Hv Hins.
  pose proof Hinv as (Hlive & _).
  destruct (live_bucket s hf w t heads cs k Hlive) as (head & l & Hh & Hl & Hseg).
  destruct (htable_insert_refines s hf q kc vc kf vf w t heads cs k v fuel w1 l
              Hhooks Hinv Hequiv Hhash Hcopy Hfresh Hclean Hfuel Hv Hl Hins)
    as (s1 & heads1 & l1 & Hh1 & Hsz & _ & _ & Hinv1).
  eauto 10.
Qed.
(** A created table over an empty heap starts within the invariant. *)
Lemma htable_create_invariant C hf q cbs' w t w' :
  0 < C -> mem w = ∅ ->
  htable_create C (Some hf) (Some q) cbs' w = Ok (t, w') -> t <> NULL ->
  invariant hf q w' t (created C hf q cbs') (replicate (Z.to_nat C) NULL)
            (replicate (Z.to_nat C) []).
Proof.
  intros HC Hempty Hrun Ht.
  destruct (htable_create_success C hf q cbs' w t w' ltac:(lia) Hrun Ht)
    as (Hmem & Htabs & _ & Hfit).
  split_and!.
  - split.
    + split; [done | rewrite Htabs; apply lookup_insert_eq | reflexivity
             | rewrite length_replicate; cbn; lia | cbn; lia].
    + apply Forall2_replicate. reflexivity.
  - intros a n Hn. rewrite Hmem, Hempty, lookup_empty in Hn. discriminate Hn.
  - intros i l a n Hl Hin. apply lookup_replicate in Hl as [-> _]. inversion Hin.
  - intros a1 n1 a2 n2 Hn1. rewrite Hmem, Hempty, lookup_empty in Hn1.
    discriminate Hn1.
Qed.
End TableInvariant.

(** ** The table: what a remove leaves behind *)

Section TableUnlink.
Import Table TableInv.
Variables (s : htable_t) (hf : htable_hash_t) (q : htable_keq_t)
          (kc vc : htable_cpy_t) (kf vf : htable_free_t).
Hypothesis Hhooks : hooks s hf q kc vc kf vf.
Implicit Types (w : W) (l : chain).

Lemma behind_cons prev x l1 : behind prev (x :: l1) = behind (Some x) l1.
Proof. unfold behind. rewrite last_cons. destruct (last l1); reflexivity. Qed.

Lemma remove_scan_unlink t heads (i : nat) k a n l2 e l1 : forall fuel p prev w,
  shape w t s heads -> (i < length heads)%nat ->
  lseg (mem w) p (l1 ++ (a, n) :: l2) e -> no_match q k l1 ->
  q (key n) k <> 0 -> (length l1 < fuel)%nat ->
  (forall ap np, prev = Some (ap, np) -> ap <> NULL /\ mem w !! ap = Some np) ->
  remove_scan fuel t s k (Z.of_nat i) p (prev_ptr prev) w =
    Ok (0, unlinked w t s heads i (behind prev l1) a n kf vf).
Proof using Hhooks.
  destruct Hhooks.
  induction l1 as [|[a1 n1] l1 IH]; intros fuel p prev w Hshape Hi Hseg Hno Hq
    Hfuel Hprev;
    (destruct fuel as [|fuel]; [simpl in Hfuel; lia|]); simpl in *.
  - destruct Hseg as (-> & Ha & Hn & Hseg).
    rewrite (eqb_null_ne a Ha). cbn [negb].
    rewrite (bind_ok _ _ _ _ _ (load_ok a n w Ha Hn)).
    rewrite hooks_keq0. unfold bind at 1, fnptr at 1, ret at 1.
    apply Z.eqb_neq in Hq. rewrite Hq. cbn [negb].
    unfold behind. cbn [last]. destruct prev as [[ap np]|]; cbn [prev_ptr].
    + destruct (Hprev ap np eq_refl) as [Hap Hnp].
      rewrite (eqb_null_ne ap Hap).
      munfold. mrewrite. unfold unlinked. rewrite <- !app_assoc. reflexivity.
    + change (NULL =? NULL) with true. cbv iota.
      rewrite (bind_ok _ _ _ _ _ (store_bucket_ok s w t heads i (next n) Hshape Hi)).
      munfold. mrewrite. unfold unlinked. rewrite <- !app_assoc. reflexivity.
  - destruct Hseg as (-> & Ha & Hn & Hseg).
    apply Forall_cons in Hno as [Hz Hno]. simpl in Hz.
    rewrite (eqb_null_ne a1 Ha). cbn [negb].
    rewrite (bind_ok _ _ _ _ _ (load_ok a1 n1 w Ha Hn)).
    rewrite hooks_keq0. unfold bind at 1, fnptr at 1, ret at 1.
    rewrite Hz. cbn [Z.eqb negb].
    rewrite behind_cons.
    apply (IH fuel (next n1) (Some (a1, n1)) w); auto; [lia|].
    intros ap np E. injection E as <- <-. auto.
Qed.

Lemma htable_remove_unlink w t heads k head l1 a n l2 e fuel :
  shape w t s heads -> heads !! slot s hf k = Some head ->
  lseg (mem w) head (l1 ++ (a, n) :: l2) e -> no_match q k l1 ->
  q (key n) k <> 0 -> (length l1 < fuel)%nat ->
  htable_remove fuel t k w =
    Ok (0, unlinked w t s heads (slot s hf k) (last l1) a n kf vf).
Proof using Hhooks.
  intros Hshape Hh Hseg Hno Hq Hfuel. pose proof Hshape as [Hp Ht Harr _ _].
  unfold htable_remove. rewrite (eqb_null_ne t Hp).
  rewrite (bind_ok _ _ _ _ _ (load_table_ok t s w Hp Ht)). rewrite Harr.
  rewrite (bind_ok _ _ _ _ _ (get_hash_ok s hf q kc vc kf vf Hhooks w t heads k Hshape)).
  unfold bucket_at. fold (slot s hf k). rewrite Hh. unfold bind at 1, ret at 1.
  rewrite (slot_of_nat s hf w t heads k Hshape).
  change NULL with (prev_ptr None) at 1.
  rewrite (remove_scan_unlink t heads (slot s hf k) k a n l2 e l1 fuel head None w
             Hshape (slot_lt s hf w t heads k Hshape) Hseg Hno Hq Hfuel).
  - unfold behind. destruct (last l1); reflexivity.
  - intros ap np E. discriminate E.
Qed.
End TableUnlink.

Section TableRemoveInv.
Import Table TableInv.
Implicit Types (w : W) (l : chain).

Lemma uniq_keys_sub (same : ptr -> ptr -> Prop) (h h' : gmap Z htable_node) :
  (forall a n', h' !! a = Some n' -> exists n0, h !! a = Some n0 /\ key n0 = key n') ->
  uniq_keys same h -> uniq_keys same h'.
Proof.
  intros Hsub Huniq a1 n1 a2 n2 H1 H2 Hs.
  destruct (Hsub a1 n1 H1) as (m1 & Hm1 & Hk1).
  destruct (Hsub a2 n2 H2) as (m2 & Hm2 & Hk2).
  apply (Huniq a1 m1 a2 m2 Hm1 Hm2). rewrite Hk1, Hk2. exact Hs.
Qed.

Lemma enough_insert fuel cs (i : nat) l l' :
  enough fuel cs -> cs !! i = Some l -> (length l' <= length l)%nat ->
  enough fuel (<[i := l']> cs).
Proof.
  intros Hfuel Hl Hlen. unfold enough in *.
  apply Forall_insert; [exact Hfuel|].
  pose proof (Forall_lookup_1 _ _ _ _ Hfuel Hl) as H. simpl in H. lia.
Qed.

(** Removing the first match of a bucket chain: the node is unlinked
    and freed, both free hooks are called on it once, and the table
    stays within the invariant with that entry gone. *)
Lemma htable_remove_refines s hf q kc vc kf vf w t heads cs k fuel l1 a n l2 :
  hooks s hf q kc vc kf vf -> invariant hf q w t s heads cs -> enough fuel cs ->
  cs !! slot s hf k = Some (l1 ++ (a, n) :: l2) -> no_match q k l1 ->
  q (key n) k <> 0 ->
  exists w1 s1 heads1 l',
    htable_remove fuel t k w = Ok (0, w1) /\
    hooks s1 hf q kc vc kf vf /\ size s1 = size s /\
    contents l' = contents (l1 ++ l2) /\
    mem w1 !! a = None /\
    (forall a' n', mem w1 !! a' = Some n' ->
       a' <> a /\ exists n0, mem w !! a' = Some n0 /\ key n0 = key n' /\
                             value n0 = value n') /\
    log w1 = log w ++ [Call_kfree kf (key n); Call_vfree vf (value n); Free_node a] /\
    script w1 = script w /\
    invariant hf q w1 t s1 heads1 (<[slot s hf k := l']> cs).
Proof.
  intros Hhooks (Hlive & Hown & Hplaced & Huniq) Hfuel Hl Hno Hq.
  destruct (live_bucket s hf w t heads cs k Hlive) as (head & l' & Hh & Hl' & Hseg).
  pose proof (eq_trans (eq_sym Hl) Hl') as E. injection E as <-. clear Hl'.
  pose proof Hlive as [Hshape Hch]. pose proof Hshape as [Hp Ht Harr Hsz Hpos].
  pose proof (slot_lt s hf w t heads k Hshape) as Hi.
  pose proof (enough_lookup _ _ _ _ Hfuel Hl) as Hlen.
  rewrite length_app in Hlen. simpl in Hlen.
  assert ((a, n) ∈ l1 ++ (a, n) :: l2) as Hin by (apply elem_of_app; right; left).
  destruct (lseg_lookup _ _ _ _ a n Hseg Hin) as [Han Hane].
  pose proof (lseg_null_fresh _ _ _ _ _ _ Hseg) as Hnin.
  rewrite fmap_app, not_elem_of_app in Hnin. destruct Hnin as [Hnin1 Hnin2].
  assert (length l1 < fuel)%nat as Hlen1 by lia.
  pose proof (htable_remove_unlink s hf q kc vc kf vf Hhooks w t heads k head l1 a n
                l2 NULL fuel Hshape Hh Hseg Hno Hq Hlen1) as Hrun.
  assert (forall (j : nat) lj, j <> slot s hf k -> cs !! j = Some lj -> a ∉ lj.*1)
    as Hother.
  { intros j lj Hne Hlj.
    exact (foreign_chain hf (size s) (mem w) heads cs (slot s hf k) j _ lj a n
             Hch Hplaced Hl Hin Hne Hlj). }
  assert (slot s hf k < length cs)%nat as Hics by (apply lookup_lt_Some in Hl; exact Hl).
  destruct l1 as [|[ap np] l1 _] using rev_ind.
  - (* the match heads the bucket *)
    simpl in Hseg. destruct Hseg as (-> & _ & _ & Hseg2).
    cbn [last] in Hrun. simpl in Hl, Hin.
    eexists _, (set_table s (Some (<[slot s hf k := next n]> heads))),
            (<[slot s hf k := next n]> heads), l2.
    split; [exact Hrun|]. unfold unlinked. cbn [mem tabs log script].
    split; [apply hooks_set_table; assumption|]. split; [reflexivity|].
    split; [reflexivity|]. split; [apply lookup_delete_eq|].
    assert (forall a' n', delete a (mem w) !! a' = Some n' ->
              a' <> a /\ mem w !! a' = Some n') as Hsub.
    { intros a' n' Hn'. destruct (decide (a' = a)) as [->|Hne].
      - rewrite lookup_delete_eq in Hn'. discriminate Hn'.
      - rewrite lookup_delete_ne in Hn' by done. auto. }
    split; [intros a' n' Hn'; destruct (Hsub a' n' Hn'); eauto 10|].
    split; [reflexivity|]. split; [reflexivity|].
    split_and!.
    + split.
      * split; cbn [tabs]; try assumption.
        -- apply lookup_insert_eq.
        -- reflexivity.
        -- cbn. rewrite length_insert. assumption.
      * apply (chains_rebuild (mem w)); [assumption| |].
        -- apply lseg_delete_ne; assumption.
        -- intros j hd lj Hne Hhd Hlj.
           apply lseg_delete_ne; [eauto|].
           exact (Forall2_lookup_lr _ _ _ _ _ _ Hch Hhd Hlj).
    + intros a' m' Hm'. destruct (Hsub a' m' Hm') as [Hne Hold].
      destruct (Hown a' m' Hold) as (j & lj & Hlj & Hinj).
      destruct (decide (j = slot s hf k)) as [->|Hnej].
      * pose proof (eq_trans (eq_sym Hlj) Hl) as E. injection E as ->.
        exists (slot s hf k), l2.
        split; [apply list_lookup_insert_eq; assumption|].
        apply elem_of_cons in Hinj as [Heq|Hinj]; [congruence|assumption].
      * exists j, lj. split; [|assumption].
        rewrite list_lookup_insert_ne by done. assumption.
    + intros j lj a' m' Hlj Hinj. cbn [size set_table].
      destruct (decide (j = slot s hf k)) as [->|Hnej].
      * rewrite list_lookup_insert_eq in Hlj by assumption. injection Hlj as <-.
        apply (Hplaced _ _ a' m' Hl). right. assumption.
      * rewrite list_lookup_insert_ne in Hlj by done. eauto.
    + apply (uniq_keys_sub _ (mem w)); [|assumption].
      intros a' n' Hn'. destruct (Hsub a' n' Hn'). eauto.
  - (* the match sits behind the node [ap] *)
    rewrite last_snoc in Hrun.
    set (np' := set_next np (next n)).
    assert ((ap, np) ∈ (l1 ++ [(ap, np)]) ++ (a, n) :: l2) as Hinp.
    { apply elem_of_app. left. apply elem_of_app. right. left. }
    destruct (lseg_lookup _ _ _ _ ap np Hseg Hinp) as [Hanp Hapne].
    assert (ap <> a) as Hapa.
    { intros ->. apply Hnin1. rewrite fmap_app. apply elem_of_app. right. left. }
    pose proof Hseg as Hseg'. rewrite <- app_assoc in Hseg'.
    pose proof (lseg_null_fresh _ _ _ _ _ _ Hseg') as Hninp.
    rewrite fmap_app, not_elem_of_app in Hninp. destruct Hninp as [Hninp1 Hninp2].
    rewrite fmap_app, not_elem_of_app in Hnin1. destruct Hnin1 as [Hnin1 _].
    apply lseg_app in Hseg' as (m & Hs1 & Hs2). simpl in Hs2.
    destruct Hs2 as (-> & _ & _ & Hnext & _ & _ & Hs2).
    assert (ap ∉ l2.*1) as Hapl2.
    { intros Hx. apply Hninp2. simpl. right. exact Hx. }
    eexists _, s, heads, (l1 ++ (ap, np') :: l2).
    split; [exact Hrun|]. unfold unlinked. cbn [mem tabs log script].
    split; [assumption|]. split; [reflexivity|].
    split; [rewrite <- app_assoc, !contents_app; reflexivity|].
    split; [apply lookup_delete_eq|].
    assert (forall a' n', delete a (<[ap := np']> (mem w)) !! a' = Some n' ->
              a' <> a /\
              ((a' = ap /\ n' = np') \/ (a' <> ap /\ mem w !! a' = Some n'))) as Hsub.
    { intros a' n' Hn'. destruct (decide (a' = a)) as [->|Hne].
      - rewrite lookup_delete_eq in Hn'. discriminate Hn'.
      - rewrite lookup_delete_ne in Hn' by done. split; [assumption|].
        destruct (decide (a' = ap)) as [->|Hne'].
        + rewrite lookup_insert_eq in Hn'. injection Hn' as <-. auto.
        + rewrite lookup_insert_ne in Hn' by done. auto. }
    assert (forall a' n', delete a (<[ap := np']> (mem w)) !! a' = Some n' ->
              a' <> a /\ exists n0, mem w !! a' = Some n0 /\ key n0 = key n' /\
                                    value n0 = value n') as Hsub'.
    { intros a' n' Hn'. destruct (Hsub a' n' Hn') as [Hne [[-> ->]|[_ Hold]]];
        (split; [assumption|]); eauto. }
    split; [exact Hsub'|].
    split; [reflexivity|]. split; [reflexivity|].
    assert (forall (j : nat) lj, j <> slot s hf k -> cs !! j = Some lj -> ap ∉ lj.*1)
      as Hotherp.
    { intros j lj Hne Hlj.
      exact (foreign_chain hf (size s) (mem w) heads cs (slot s hf k) j _ lj ap np
               Hch Hplaced Hl Hinp Hne Hlj). }
    split_and!.
    + split; [split; assumption|].
      rewrite <- (list_insert_id heads (slot s hf k) head Hh) at 1.
      apply (chains_rebuild (mem w)); [assumption| |].
      * apply lseg_app. exists ap. split.
        -- apply lseg_delete_ne; [assumption|]. apply lseg_insert_ne; assumption.
        -- simpl. rewrite lookup_delete_ne by done. rewrite lookup_insert_eq.
           split_and!; try done.
           apply lseg_delete_ne; [assumption|]. apply lseg_insert_ne; assumption.
      * intros j hd lj Hne Hhd Hlj.
        apply lseg_delete_ne; [eauto|]. apply lseg_insert_ne; [eauto|].
        exact (Forall2_lookup_lr _ _ _ _ _ _ Hch Hhd Hlj).
    + intros a' m' Hm'. destruct (Hsub a' m' Hm') as [Hne [[-> ->]|[Hne' Hold]]].
      * exists (slot s hf k), (l1 ++ (ap, np') :: l2).
        split; [apply list_lookup_insert_eq; assumption|].
        apply elem_of_app. right. left.
      * destruct (Hown a' m' Hold) as (j & lj & Hlj & Hinj).
        destruct (decide (j = slot s hf k)) as [->|Hnej].
        -- pose proof (eq_trans (eq_sym Hlj) Hl) as E. injection E as ->.
           exists (slot s hf k), (l1 ++ (ap, np') :: l2).
           split; [apply list_lookup_insert_eq; assumption|].
           apply elem_of_app in Hinj as [Hinj|Hinj].
           ++ apply elem_of_app in Hinj as [Hinj|Hinj].
              ** apply elem_of_app. left. assumption.
              ** apply list_elem_of_singleton in Hinj. congruence.
           ++ apply elem_of_cons in Hinj as [Heq|Hinj]; [congruence|].
              apply elem_of_app. right. right. assumption.
        -- exists j, lj. split; [|assumption].
           rewrite list_lookup_insert_ne by done. assumption.
    + intros j lj a' m' Hlj Hinj.
      destruct (decide (j = slot s hf k)) as [->|Hnej].
      * rewrite list_lookup_insert_eq in Hlj by assumption. injection Hlj as <-.
        apply elem_of_app in Hinj as [Hinj|Hinj].
        -- apply (Hplaced _ _ a' m' Hl). apply elem_of_app. left.
           apply elem_of_app. left. assumption.
        -- apply elem_of_cons in Hinj as [Heq|Hinj].
           ++ injection Heq as -> ->. exact (Hplaced _ _ ap np Hl Hinp).
           ++ apply (Hplaced _ _ a' m' Hl). apply elem_of_app. right. right.
              assumption.
      * rewrite list_lookup_insert_ne in Hlj by done. eauto.
    + apply (uniq_keys_sub _ (mem w)); [|assumption].
      intros a' n' Hn'. destruct (Hsub' a' n' Hn') as (_ & n0 & ? & ? & _). eauto.
Qed.
End TableRemoveInv.

(** ** The table as a finite map: what callers can rely on *)

Section TableAsMap.
Import Table TableInv.
Implicit Types (w : W) (l : chain).

Lemma slot_size s s1 hf k : size s1 = size s -> slot s1 hf k = slot s hf k.
Proof. unfold slot. now intros ->. Qed.

Lemma assoc_upsert_length q k k' v' es :
  (length (assoc_upsert q k k' v' es) <= S (length es))%nat.
Proof.
  induction es as [|[k0 v0] es IH]; simpl; [lia|].
  destruct (q k0 k =? 0); simpl; lia.
Qed.

Lemma assoc_erase_length q k es :
  (length (assoc_erase q k es) <= length es)%nat.
Proof.
  induction es as [|[k0 v0] es IH]; simpl; [lia|].
  destruct (q k0 k =? 0); simpl; lia.
Qed.

Lemma enough_grow fuel cs (i : nat) l' l :
  enough fuel cs -> cs !! i = Some l -> (length l' <= S (length l))%nat ->
  enough (S fuel) (<[i := l']> cs).
Proof.
  intros Hfuel Hl Hlen. unfold enough in *.
  pose proof (Forall_lookup_1 _ _ _ _ Hfuel Hl) as H. simpl in H.
  apply Forall_insert; [|lia].
  eapply Forall_impl; [exact Hfuel|]. simpl. intros; lia.
Qed.

Lemma demo_invariant : invariant Demo.hf Demo.q Demo.w Demo.t Demo.s Demo.heads Demo.cs.
Proof.
  split_and!; [exact demo_live | exact demo_owned | exact demo_placed | exact demo_uniq].
Qed.

Lemma democlean_invariant :
  invariant Demo.hf Demo.q DemoClean.w Demo.t Demo.s Demo.heads Demo.cs.
Proof.
  destruct demo_invariant as ([[Hp Ht Harr Hsz Hpos] Hch] & Hown & Hplaced & Huniq).
  split_and!; [|assumption..]. split; [split; assumption | exact Hch].
Qed.

Lemma demo_hash_respects x y :
  same Demo.q x y ->
  bucket_of Demo.hf (size Demo.s) x = bucket_of Demo.hf (size Demo.s) y.
Proof. intros H. apply demo_same in H. now subst. Qed.

Lemma demo_copy_respects x : same Demo.q (htable_default_copy x) x.
Proof. apply demo_same. reflexivity. Qed.

(** X1. On a live table [htable_get] returns the value of the first
    entry of the key's bucket chain that [keq] accepts, NULL when the
    chain has none, and leaves the world as it was. *)
Theorem get_returns_first_match s hf q kc vc kf vf w t heads cs k l fuel :
  hooks s hf q kc vc kf vf -> live w t s heads cs -> enough fuel cs ->
  cs !! slot s hf k = Some l ->
  htable_get fuel t k w = Ok (assoc_find q k (contents l), w).
Proof. apply htable_get_find. Qed.

Lemma get_returns_first_match_witness :
  htable_get 3 Demo.t 4 Demo.w = Ok (40, Demo.w).
Proof.
  exact (get_returns_first_match Demo.s Demo.hf Demo.q htable_default_copy
           htable_default_copy Demo.kf Demo.kf Demo.w Demo.t Demo.heads Demo.cs 4
           [(10, Demo.n10); (12, Demo.n12)] 3 demo_hooks demo_live demo_enough
           eq_refl).
Defined.

(** X2. With an allocator that hands out fresh, cleared blocks, a
    successful [htable_insert] acts on the entries of the key's bucket
    as an update-or-append: the value of the first entry [keq] accepts
    is replaced by the copy of the new one (after one call of the value
    free hook on the old one), or the copied pair is added at the end
    (no hook called).  Every other bucket keeps its chain, the capacity
    is kept, and the table stays within the invariant. *)
Theorem insert_is_update_or_append s hf q kc vc kf vf w t heads cs k v fuel w1 l :
  hooks s hf q kc vc kf vf -> invariant hf q w t s heads cs ->
  Equivalence (same q) ->
  (forall x y, same q x y -> bucket_of hf (size s) x = bucket_of hf (size s) y) ->
  (forall x, same q (kc x) x) ->
  fresh_script w -> clean_script w -> enough fuel cs -> v <> NULL ->
  cs !! slot s hf k = Some l ->
  htable_insert fuel t k v w = Ok (0, w1) ->
  exists s1 heads1 l1,
    hooks s1 hf q kc vc kf vf /\ size s1 = size s /\
    contents l1 = assoc_upsert q k (kc k) (vc v) (contents l) /\
    log w1 = log w ++ (if decide (no_match q k l) then []
                       else [Call_vfree vf (assoc_find q k (contents l))]) /\
    invariant hf q w1 t s1 heads1 (<[slot s hf k := l1]> cs).
Proof. apply htable_insert_refines. Qed.

Lemma insert_is_update_or_append_witness :
  exists w1,
    htable_insert 3 Demo.t 6 60 DemoClean.w = Ok (0, w1) /\
    exists s1 heads1 l1,
      hooks s1 Demo.hf Demo.q htable_default_copy htable_default_copy Demo.kf Demo.kf /\
      size s1 = 2 /\
      contents l1 = [(2, 20); (4, 40); (6, 60)] /\
      log w1 = [] /\
      invariant Demo.hf Demo.q w1 Demo.t s1 heads1 [l1; []].
Proof.
  eexists. split; [vm_compute; reflexivity|].
  apply (insert_is_update_or_append Demo.s Demo.hf Demo.q htable_default_copy
           htable_default_copy Demo.kf Demo.kf DemoClean.w Demo.t Demo.heads Demo.cs
           6 60 3 _ [(10, Demo.n10); (12, Demo.n12)] demo_hooks democlean_invariant
           demo_equiv demo_hash_respects demo_copy_respects).
  - intros p junk rest H. injection H as <- _ _. reflexivity.
  - intros p junk rest H. injection H as _ <- _. reflexivity.
  - exact demo_enough.
  - discriminate.
  - reflexivity.
  - vm_compute. reflexivity.
Defined.

(** The two ways a remove on a table within the invariant ends. *)
Lemma htable_remove_cases s hf q kc vc kf vf w t heads cs k fuel l :
  hooks s hf q kc vc kf vf -> invariant hf q w t s heads cs -> enough fuel cs ->
  cs !! slot s hf k = Some l ->
  (no_match q k l /\ htable_remove fuel t k w = Ok (-1, w)) \/
  (exists l1 a n l2 w1 s1 heads1 l',
     l = l1 ++ (a, n) :: l2 /\ no_match q k l1 /\ q (key n) k <> 0 /\
     htable_remove fuel t k w = Ok (0, w1) /\
     hooks s1 hf q kc vc kf vf /\ size s1 = size s /\
     contents l' = assoc_erase q k (contents l) /\
     mem w1 !! a = None /\
     (forall a' n', mem w1 !! a' = Some n' ->
        a' <> a /\ exists n0, mem w !! a' = Some n0 /\ key n0 = key n' /\
                              value n0 = value n') /\
     log w1 = log w ++ [Call_kfree kf (key n); Call_vfree vf (value n); Free_node a] /\
     script w1 = script w /\
     invariant hf q w1 t s1 heads1 (<[slot s hf k := l']> cs)).
Proof.
  intros Hhooks Hinv Hfuel Hl.
  destruct (first_match q k l) as [Hno|(l1 & a & n & l2 & -> & Hno & Hq)].
  - left. split; [assumption|].
    destruct Hinv as (Hlive & _).
    destruct (live_bucket s hf w t heads cs k Hlive) as (head & l' & Hh & Hl' & Hseg).
    pose proof (eq_trans (eq_sym Hl) Hl') as E. injection E as <-.
    destruct Hlive as [Hshape _].
    eapply htable_remove_miss; eauto. eapply enough_lookup; eauto.
  - right.
    destruct (htable_remove_refines s hf q kc vc kf vf w t heads cs k fuel l1 a n l2
                Hhooks Hinv Hfuel Hl Hno Hq)
      as (w1 & s1 & heads1 & l' & Hrun & Hh1 & Hsz & Hc & Hfree & Hsub & Hlog & Hscr
          & Hinv1).
    exists l1, a, n, l2, w1, s1, heads1, l'. split_and!; try assumption; try reflexivity.
    rewrite Hc. symmetry. apply assoc_erase_hit; assumption.
Qed.

(** X3. On a table within the invariant [htable_remove] answers -1 and
    changes nothing when no entry of the key's bucket matches;
    otherwise it answers 0, takes the first match out of the bucket's
    entries, calls the key free hook and the value free hook once each
    on that entry, frees its node and no other, and leaves the table
    within the invariant with the same capacity. *)
Theorem remove_takes_first_match_out s hf q kc vc kf vf w t heads cs k fuel l :
  hooks s hf q kc vc kf vf -> invariant hf q w t s heads cs -> enough fuel cs ->
  cs !! slot s hf k = Some l ->
  (no_match q k l /\ htable_remove fuel t k w = Ok (-1, w)) \/
  (exists l1 a n l2 w1 s1 heads1 l',
     l = l1 ++ (a, n) :: l2 /\ no_match q k l1 /\ q (key n) k <> 0 /\
     htable_remove fuel t k w = Ok (0, w1) /\
     hooks s1 hf q kc vc kf vf /\ size s1 = size s /\
     contents l' = assoc_erase q k (contents l) /\
     mem w1 !! a = None /\
     (forall a' n', mem w1 !! a' = Some n' ->
        a' <> a /\ exists n0, mem w !! a' = Some n0 /\ key n0 = key n' /\
                              value n0 = value n') /\
     log w1 = log w ++ [Call_kfree kf (key n); Call_vfree vf (value n); Free_node a] /\
     script w1 = script w /\
     invariant hf q w1 t s1 heads1 (<[slot s hf k := l']> cs)).
Proof. apply htable_remove_cases. Qed.

Lemma remove_takes_first_match_out_witness :
  exists l1 a n l2 w1 s1 heads1 l',
    [(10, Demo.n10); (12, Demo.n12)] = l1 ++ (a, n) :: l2 /\ no_match Demo.q 4 l1 /\
    Demo.q (key n) 4 <> 0 /\
    htable_remove 3 Demo.t 4 Demo.w = Ok (0, w1) /\
    hooks s1 Demo.hf Demo.q htable_default_copy htable_default_copy Demo.kf Demo.kf /\
    size s1 = 2 /\ contents l' = [(2, 20)] /\ mem w1 !! a = None /\
    (forall a' n', mem w1 !! a' = Some n' ->
       a' <> a /\ exists n0, mem Demo.w !! a' = Some n0 /\ key n0 = key n' /\
                             value n0 = value n') /\
    log w1 = [Call_kfree Demo.kf (key n); Call_vfree Demo.kf (value n); Free_node a] /\
    script w1 = script Demo.w /\
    invariant Demo.hf Demo.q w1 Demo.t s1 heads1 [l'; []].
Proof.
  destruct (remove_takes_first_match_out Demo.s Demo.hf Demo.q htable_default_copy
              htable_default_copy Demo.kf Demo.kf Demo.w Demo.t Demo.heads Demo.cs 4 3
              [(10, Demo.n10); (12, Demo.n12)] demo_hooks demo_invariant demo_enough
              eq_refl) as [[Hno _]|H].
  - exfalso. apply Forall_cons in Hno as [_ Hno]. apply Forall_cons in Hno as [Hno _].
    vm_compute in Hno. discriminate Hno.
  - exact H.
Defined.

(** X4. Remove, then get: once [htable_remove] has answered 0 for a
    key, [htable_get] answers NULL for it. *)
Theorem get_after_remove s hf q kc vc kf vf w t heads cs k fuel w1 :
  hooks s hf q kc vc kf vf -> invariant hf q w t s heads cs ->
  Equivalence (same q) -> enough fuel cs ->
  htable_remove fuel t k w = Ok (0, w1) ->
  htable_get fuel t k w1 = Ok (NULL, w1).
Proof.
  intros Hhooks Hinv Hequiv Hfuel Hrem.
  pose proof Hinv as (Hlive & _ & _ & Huniq).
  destruct (live_bucket s hf w t heads cs k Hlive) as (head & l & Hh & Hl & Hseg).
  destruct (htable_remove_cases s hf q kc vc kf vf w t heads cs k fuel l
              Hhooks Hinv Hfuel Hl)
    as [[_ Hrun]|(l1 & a & n & l2 & w1' & s1 & heads1 & l' & -> & Hno & Hq & Hrun
                  & Hh1 & Hsz & Hc & _ & _ & _ & _ & Hinv1)];
    rewrite Hrun in Hrem; simplify_eq.
  destruct Hinv1 as (Hlive1 & _).
  assert (slot s hf k < length cs)%nat as Hi by (apply lookup_lt_Some in Hl; exact Hl).
  rewrite (htable_get_find s1 hf q kc vc kf vf w1 t heads1 _ k l' fuel Hh1 Hlive1).
  - rewrite Hc. rewrite (assoc_find_erase_same q Hequiv); [reflexivity|].
    eapply chain_distinct; eauto.
  - eapply enough_insert; eauto.
    rewrite <- (contents_length l'), Hc, <- (contents_length (l1 ++ (a, n) :: l2)).
    apply assoc_erase_length.
  - rewrite (slot_size s s1 hf k Hsz). apply list_lookup_insert_eq. exact Hi.
Qed.

Lemma get_after_remove_witness :
  exists w1,
    htable_remove 3 Demo.t 4 Demo.w = Ok (0, w1) /\
    htable_get 3 Demo.t 4 w1 = Ok (NULL, w1).
Proof.
  eexists. split; [vm_compute; reflexivity|].
  apply (get_after_remove Demo.s Demo.hf Demo.q htable_default_copy
           htable_default_copy Demo.kf Demo.kf Demo.w Demo.t Demo.heads Demo.cs 4 3 _
           demo_hooks demo_invariant demo_equiv demo_enough).
  vm_compute. reflexivity.
Defined.
End TableAsMap.

Section TableFrames.
Import Table TableInv.
Implicit Types (w : W) (l : chain).

(** X5. An insert for one key is not seen by another: when
    [htable_insert] has answered 0 for [k], [htable_get] answers for
    every key that [keq] tells apart from [k] what it answered before. *)
Theorem insert_leaves_other_keys s hf q kc vc kf vf w t heads cs k k2 v fuel w1 :
  hooks s hf q kc vc kf vf -> invariant hf q w t s heads cs ->
  Equivalence (same q) ->
  (forall x y, same q x y -> bucket_of hf (size s) x = bucket_of hf (size s) y) ->
  (forall x, same q (kc x) x) ->
  fresh_script w -> clean_script w -> enough fuel cs -> v <> NULL ->
  ~ same q k k2 ->
  htable_insert fuel t k v w = Ok (0, w1) ->
  exists r, htable_get fuel t k2 w = Ok (r, w) /\
            htable_get (S fuel) t k2 w1 = Ok (r, w1).
Proof.
  intros Hhooks Hinv Hequiv Hhash Hcopy Hfresh Hclean Hfuel Hv Hne Hins.
  pose proof Hinv as (Hlive & _).
  destruct (live_bucket s hf w t heads cs k Hlive) as (head & l & Hh & Hl & Hseg).
  destruct (live_bucket s hf w t heads cs k2 Hlive) as (head2 & l2 & Hh2 & Hl2 & Hseg2).
  destruct (htable_insert_refines s hf q kc vc kf vf w t heads cs k v fuel w1 l
              Hhooks Hinv Hequiv Hhash Hcopy Hfresh Hclean Hfuel Hv Hl Hins)
    as (s1 & heads1 & l1 & Hh1 & Hsz & Hc & _ & Hinv1).
  destruct Hinv1 as (Hlive1 & _).
  assert (slot s hf k < length cs)%nat as Hi by (apply lookup_lt_Some in Hl; exact Hl).
  assert (enough (S fuel) (<[slot s hf k := l1]> cs)) as Hfuel1.
  { eapply enough_grow; eauto.
    rewrite <- (contents_length l1), Hc, <- (contents_length l).
    apply assoc_upsert_length. }
  exists (assoc_find q k2 (contents l2)). split.
  - exact (htable_get_find s hf q kc vc kf vf w t heads cs k2 l2 fuel Hhooks Hlive
             Hfuel Hl2).
  - destruct (decide (slot s hf k2 = slot s hf k)) as [E|E].
    + rewrite E in Hl2.
      pose proof (eq_trans (eq_sym Hl2) Hl) as E2. injection E2 as ->.
      rewrite (htable_get_find s1 hf q kc vc kf vf w1 t heads1 _ k2 l1 (S fuel) Hh1
                 Hlive1 Hfuel1).
      * rewrite Hc. rewrite (assoc_find_upsert_other q Hequiv k k2); auto.
      * rewrite (slot_size s s1 hf k2 Hsz), E. apply list_lookup_insert_eq. exact Hi.
    + rewrite (htable_get_find s1 hf q kc vc kf vf w1 t heads1 _ k2 l2 (S fuel) Hh1
                 Hlive1 Hfuel1).
      * reflexivity.
      * rewrite (slot_size s s1 hf k2 Hsz).
        rewrite list_lookup_insert_ne by (symmetry; exact E). exact Hl2.
Qed.

Lemma insert_leaves_other_keys_witness :
  exists w1,
    htable_insert 3 Demo.t 6 60 DemoClean.w = Ok (0, w1) /\
    exists r, htable_get 3 Demo.t 4 DemoClean.w = Ok (r, DemoClean.w) /\
              htable_get 4 Demo.t 4 w1 = Ok (r, w1).
Proof.
  eexists. split; [vm_compute; reflexivity|].
  apply (insert_leaves_other_keys Demo.s Demo.hf Demo.q htable_default_copy
           htable_default_copy Demo.kf Demo.kf DemoClean.w Demo.t Demo.heads Demo.cs
           6 4 60 3 _ demo_hooks democlean_invariant
           demo_equiv demo_hash_respects demo_copy_respects).
  - intros p junk rest H. injection H as <- _ _. reflexivity.
  - intros p junk rest H. injection H as _ <- _. reflexivity.
  - exact demo_enough.
  - discriminate.
  - intros H. apply demo_same in H. discriminate H.
  - vm_compute. reflexivity.
Defined.

(** X6. A remove for one key is not seen by another: whatever
    [htable_remove] answers for [k], [htable_get] answers for every key
    that [keq] tells apart from [k] what it answered before. *)
Theorem remove_leaves_other_keys s hf q kc vc kf vf w t heads cs k k2 fuel r0 w1 :
  hooks s hf q kc vc kf vf -> invariant hf q w t s heads cs ->
  Equivalence (same q) -> enough fuel cs ->
  ~ same q k k2 ->
  htable_remove fuel t k w = Ok (r0, w1) ->
  exists r, htable_get fuel t k2 w = Ok (r, w) /\
            htable_get fuel t k2 w1 = Ok (r, w1).
Proof.
  intros Hhooks Hinv Hequiv Hfuel Hne Hrem.
  pose proof Hinv as (Hlive & _).
  destruct (live_bucket s hf w t heads cs k Hlive) as (head & l & Hh & Hl & Hseg).
  destruct (live_bucket s hf w t heads cs k2 Hlive) as (head2 & l2 & Hh2 & Hl2 & Hseg2).
  pose proof (htable_get_find s hf q kc vc kf vf w t heads cs k2 l2 fuel Hhooks Hlive
                Hfuel Hl2) as Hget.
  exists (assoc_find q k2 (contents l2)). split; [exact Hget|].
  destruct (htable_remove_cases s hf q kc vc kf vf w t heads cs k fuel l
              Hhooks Hinv Hfuel Hl)
    as [[_ Hrun]|(l1 & a & n & l3 & w1' & s1 & heads1 & l' & -> & Hno & Hq & Hrun
                  & Hh1 & Hsz & Hc & _ & _ & _ & _ & Hinv1)];
    rewrite Hrun in Hrem; simplify_eq; [exact Hget|].
  destruct Hinv1 as (Hlive1 & _).
  assert (slot s hf k < length cs)%nat as Hi by (apply lookup_lt_Some in Hl; exact Hl).
  assert (enough fuel (<[slot s hf k := l']> cs)) as Hfuel1.
  { eapply enough_insert; eauto.
    rewrite <- (contents_length l'), Hc, <- (contents_length (l1 ++ (a, n) :: l3)).
    apply assoc_erase_length. }
  destruct (decide (slot s hf k2 = slot s hf k)) as [E|E].
  - rewrite E in Hl2.
    pose proof (eq_trans (eq_sym Hl2) Hl) as E2. injection E2 as ->.
    rewrite (htable_get_find s1 hf q kc vc kf vf w1 t heads1 _ k2 l' fuel Hh1
               Hlive1 Hfuel1).
    + rewrite Hc. rewrite (assoc_find_erase_other q Hequiv k k2); auto.
    + rewrite (slot_size s s1 hf k2 Hsz), E. apply list_lookup_insert_eq. exact Hi.
  - rewrite (htable_get_find s1 hf q kc vc kf vf w1 t heads1 _ k2 l2 fuel Hh1
               Hlive1 Hfuel1).
    + reflexivity.
    + rewrite (slot_size s s1 hf k2 Hsz).
      rewrite list_lookup_insert_ne by (symmetry; exact E). exact Hl2.
Qed.

Lemma remove_leaves_other_keys_witness :
  exists w1,
    htable_remove 3 Demo.t 2 Demo.w = Ok (0, w1) /\
    exists r, htable_get 3 Demo.t 4 Demo.w = Ok (r, Demo.w) /\
              htable_get 3 Demo.t 4 w1 = Ok (r, w1).
Proof.
  eexists. split; [vm_compute; reflexivity|].
  apply (remove_leaves_other_keys Demo.s Demo.hf Demo.q htable_default_copy
           htable_default_copy Demo.kf Demo.kf Demo.w Demo.t Demo.heads Demo.cs
           2 4 3 0 _ demo_hooks demo_invariant demo_equiv demo_enough).
  - intros H. apply demo_same in H. discriminate H.
  - vm_compute. reflexivity.
Defined.
End TableFrames.

(** ** The table: a destroy that goes through *)

Section TableDestroyAll.
Import Table TableInv.
Implicit Types (w : W) (l : chain).

Lemma lseg_NoDup (h : gmap Z htable_node) l : forall p,
  lseg h p l NULL -> NoDup l.*1.
Proof.
  induction l as [|[a n] l IH]; intros p Hseg; [constructor|].
  pose proof (lseg_null_fresh h [] a n l p Hseg) as Hfresh. simpl in Hfresh.
  simpl in Hseg. destruct Hseg as (-> & _ & _ & Hseg).
  simpl. constructor; eauto.
Qed.

Lemma NoDup_concat_fst (cs : list chain) :
  (forall (i : nat) l, cs !! i = Some l -> NoDup l.*1) ->
  (forall (i j : nat) li lj a, i <> j -> cs !! i = Some li -> cs !! j = Some lj ->
     a ∈ li.*1 -> a ∉ lj.*1) ->
  NoDup (concat cs).*1.
Proof.
  induction cs as [|l cs IH]; intros Hone Htwo; [constructor|].
  simpl. rewrite fmap_app. apply NoDup_app. split_and!.
  - exact (Hone 0%nat l eq_refl).
  - intros a Ha Hin.
    apply list_elem_of_fmap in Hin as ([a' n'] & E & Hin). simpl in E. subst a'.
    apply list_elem_of_In, in_concat in Hin as (lj & Hlj & Hin).
    apply list_elem_of_In, list_elem_of_lookup in Hlj as (j & Hlj).
    apply (Htwo 0%nat (S j) l lj a); [lia | reflexivity | exact Hlj | exact Ha |].
    apply list_elem_of_fmap. exists (a, n'). split; [reflexivity|].
    apply list_elem_of_In. exact Hin.
  - apply IH.
    + intros i li Hli. exact (Hone (S i) li Hli).
    + intros i j li lj a Hne Hli Hlj. apply (Htwo (S i) (S j)); [lia|assumption..].
Qed.

(** The chains of a live table whose nodes sit in the buckets of their
    keys share no node. *)
Lemma live_disjoint hf sz (h : gmap Z htable_node) heads cs :
  Forall2 (fun hd l => lseg h hd l NULL) heads cs -> placed hf sz cs -> disjoint cs.
Proof.
  intros Hch Hplaced. apply NoDup_concat_fst.
  - intros i l Hl. destruct (Forall2_lookup_r _ _ _ _ _ Hch Hl) as (hd & _ & Hseg).
    eapply lseg_NoDup; eauto.
  - intros i j li lj a Hne Hli Hlj Ha.
    apply list_elem_of_fmap in Ha as ([a' n] & E & Hin). simpl in E. subst a'.
    exact (foreign_chain hf sz h heads cs i j li lj a n Hch Hplaced Hli Hin
             (not_eq_sym Hne) Hlj).
Qed.

Lemma free_all_none l : forall (h : gmap Z htable_node) a,
  h !! a = None -> free_all l h !! a = None.
Proof.
  induction l as [|[a0 n0] l IH]; intros h a Ha; simpl; [exact Ha|].
  apply IH. destruct (decide (a0 = a)) as [->|Hne].
  - apply lookup_delete_eq.
  - rewrite lookup_delete_ne by done. exact Ha.
Qed.

Lemma free_all_in l : forall (h : gmap Z htable_node) a,
  a ∈ l.*1 -> free_all l h !! a = None.
Proof.
  induction l as [|[a0 n0] l IH]; intros h a Ha; simpl in *.
  - inversion Ha.
  - apply elem_of_cons in Ha as [->|Ha].
    + apply free_all_none, lookup_delete_eq.
    + apply IH. exact Ha.
Qed.

(** Freeing every chain of a heap that the chains own empties it. *)
Lemma free_all_owned (h : gmap Z htable_node) cs :
  owned h cs -> free_all (concat cs) h = ∅.
Proof.
  intros Hown. apply map_eq. intros a. rewrite lookup_empty.
  destruct (h !! a) as [n|] eqn:Hn; [|apply free_all_none; exact Hn].
  destruct (Hown a n Hn) as (i & l & Hl & Hin).
  apply free_all_in. apply list_elem_of_fmap. exists (a, n). split; [reflexivity|].
  apply list_elem_of_In, in_concat. exists l. split; apply list_elem_of_In.
  - eapply list_elem_of_lookup_2; eauto.
  - exact Hin.
Qed.

Lemma demofull_invariant :
  invariant Demo.hf Demo.q DemoFull.w Demo.t DemoFull.s DemoFull.heads DemoFull.cs.
Proof.
  assert (forall a n, mem DemoFull.w !! a = Some n ->
            (a = 10 /\ n = Demo.n10) \/ (a = 11 /\ n = DemoFull.n11) \/
            (a = 12 /\ n = Demo.n12)) as Hmem.
  { unfold DemoFull.w. cbn [mem]. intros a n H.
    destruct (decide (a = 10)) as [->|H10].
    { rewrite lookup_insert_eq in H. injection H as <-. auto. }
    rewrite lookup_insert_ne in H by done.
    destruct (decide (a = 11)) as [->|H11].
    { rewrite lookup_insert_eq in H. injection H as <-. auto. }
    rewrite lookup_insert_ne in H by done.
    destruct (decide (a = 12)) as [->|H12].
    { rewrite lookup_insert_eq in H. injection H as <-. auto. }
    rewrite lookup_insert_ne in H by done. rewrite lookup_empty in H. done. }
  split_and!.
  - split; [split; [discriminate | reflexivity..]|].
    repeat constructor; discriminate.
  - intros a n H. destruct (Hmem a n H) as [[-> ->]|[[-> ->]|[-> ->]]].
    + exists 0%nat, [(10, Demo.n10); (12, Demo.n12)]. split; [reflexivity|left].
    + exists 1%nat, [(11, DemoFull.n11)]. split; [reflexivity|left].
    + exists 0%nat, [(10, Demo.n10); (12, Demo.n12)]. split; [reflexivity|right; left].
  - intros i l a n Hl Hin. destruct i as [|[|i]]; simpl in Hl; simplify_eq.
    + apply elem_of_cons in Hin as [Hin|Hin]; [simplify_eq; reflexivity|].
      apply elem_of_cons in Hin as [Hin|Hin]; [simplify_eq; reflexivity|].
      inversion Hin.
    + apply elem_of_cons in Hin as [Hin|Hin]; [simplify_eq; reflexivity|].
      inversion Hin.
  - intros a1 n1 a2 n2 H1 H2 Hsame. apply demo_same in Hsame.
    destruct (Hmem a1 n1 H1) as [[-> ->]|[[-> ->]|[-> ->]]];
      destruct (Hmem a2 n2 H2) as [[-> ->]|[[-> ->]|[-> ->]]];
      try reflexivity; discriminate Hsame.
Qed.

Lemma demofull_hooks :
  hooks DemoFull.s Demo.hf Demo.q htable_default_copy htable_default_copy
        Demo.kf Demo.kf.
Proof. split; reflexivity. Qed.

(** X7. On a table within the invariant none of whose buckets is empty,
    [htable_destroy] returns.  Bucket by bucket and entry by entry, in
    chain order, it has called the key free hook on the stored key,
    then the value free hook on the stored value, then freed the node;
    that is one call of each hook per entry, and no node is left
    allocated.  Last it has released the bucket array and then the
    structure. *)
Theorem destroy_releases_everything s hf q kc vc kf vf w t heads cs fuel :
  hooks s hf q kc vc kf vf -> invariant hf q w t s heads cs ->
  enough fuel cs -> NULL ∉ heads ->
  htable_destroy fuel t w =
    Ok (tt, World ∅ (delete t (tabs w))
                  (log w ++ destroy_log kf vf (concat cs)
                         ++ [Free_array t; Free_table t]) (script w)) /\
  kfree_calls (destroy_log kf vf (concat cs)) = length (concat cs) /\
  vfree_calls (destroy_log kf vf (concat cs)) = length (concat cs).
Proof.
  intros Hhooks (Hlive & Hown & Hplaced & _) Hfuel Hnn.
  pose proof Hlive as [[Hp Ht Harr Hsz Hpos] Hch].
  split; [|split; [apply destroy_log_kfree | apply destroy_log_vfree]].
  unfold htable_destroy. rewrite (eqb_null_ne t Hp).
  rewrite (bind_ok _ _ _ _ _ (load_table_ok t s w Hp Ht)). rewrite Harr.
  rewrite Hsz, Nat2Z.id.
  pose proof (destroy_buckets_ok s hf q kc vc kf vf Hhooks t heads fuel heads []
                cs w Hp Ht Harr eq_refl Hch
                (live_disjoint hf (size s) (mem w) heads cs Hch Hplaced) Hfuel Hnn)
    as Hrun.
  change (Z.of_nat (length [])) with 0 in Hrun.
  rewrite (free_all_owned (mem w) cs Hown) in Hrun.
  rewrite (bind_ok _ _ _ _ _ Hrun).
  munfold. rewrite <- !app_assoc. reflexivity.
Qed.

Lemma destroy_releases_everything_witness :
  htable_destroy 3 Demo.t DemoFull.w =
    Ok (tt, World ∅ (delete Demo.t (tabs DemoFull.w))
                  ([Call_kfree Demo.kf 2; Call_vfree Demo.kf 20; Free_node 10;
                    Call_kfree Demo.kf 4; Call_vfree Demo.kf 40; Free_node 12;
                    Call_kfree Demo.kf 3; Call_vfree Demo.kf 30; Free_node 11;
                    Free_array Demo.t; Free_table Demo.t]) []) /\
  kfree_calls (destroy_log Demo.kf Demo.kf (concat DemoFull.cs)) = 3%nat /\
  vfree_calls (destroy_log Demo.kf Demo.kf (concat DemoFull.cs)) = 3%nat.
Proof.
  apply (destroy_releases_everything DemoFull.s Demo.hf Demo.q htable_default_copy
           htable_default_copy Demo.kf Demo.kf DemoFull.w Demo.t DemoFull.heads
           DemoFull.cs 3 demofull_hooks demofull_invariant).
  - repeat constructor.
  - intros H. apply elem_of_cons in H as [H|H]; [discriminate H|].
    apply elem_of_cons in H as [H|H]; [discriminate H|]. inversion H.
Defined.
End TableDestroyAll.

(** ** The table: arguments it turns away, handles it cannot use *)

Section TableGuards.
Import Table TableInv.
Implicit Types (w : W) (l : chain).

(** X8. Every operation of the table turns away a NULL table and a
    table whose bucket array is NULL before it touches anything:
    insert and remove answer -1, get answers NULL, destroy returns, and
    the world is as it was.  Insert does the same for a NULL value on a
    table it could otherwise use. *)
Theorem null_arguments_are_turned_away fuel t k v w s :
  t = NULL \/
  (tabs w !! t = Some s /\ (table s = None \/ v = NULL)) ->
  htable_insert fuel t k v w = Ok (-1, w) /\
  (t = NULL \/ table s = None ->
   htable_remove fuel t k w = Ok (-1, w) /\
   htable_get fuel t k w = Ok (NULL, w) /\
   htable_destroy fuel t w = Ok (tt, w)).
Proof.
  intros H. split.
  - destruct H as [->|(Ht & H)]; [reflexivity|].
    unfold htable_insert. destruct (Z.eqb_spec t NULL) as [|Hp]; [reflexivity|].
    rewrite (bind_ok _ _ _ _ _ (load_table_ok t s w Hp Ht)).
    destruct H as [->| ->]; [reflexivity|]. destruct (table s); reflexivity.
  - intros H'. destruct H as [->|(Ht & _)]; [repeat split; reflexivity|].
    destruct H' as [->|Hnone]; [repeat split; reflexivity|].
    unfold htable_remove, htable_get, htable_destroy.
    destruct (Z.eqb_spec t NULL) as [|Hp]; [repeat split; reflexivity|].
    rewrite !(bind_ok _ _ _ _ _ (load_table_ok t s w Hp Ht)), Hnone.
    repeat split; reflexivity.
Qed.

Lemma null_arguments_are_turned_away_witness :
  htable_insert 3 Demo.t 6 NULL Demo.w = Ok (-1, Demo.w) /\
  (Demo.t = NULL \/ table Demo.s = None ->
   htable_remove 3 Demo.t 6 Demo.w = Ok (-1, Demo.w) /\
   htable_get 3 Demo.t 6 Demo.w = Ok (NULL, Demo.w) /\
   htable_destroy 3 Demo.t Demo.w = Ok (tt, Demo.w)).
Proof.
  apply (null_arguments_are_turned_away 3 Demo.t 6 NULL Demo.w Demo.s).
  right. split; [reflexivity|]. right. reflexivity.
Defined.

Lemma destroy_chain_tabs fuel s : forall cur w r w',
  destroy_chain fuel s cur w = Ok (r, w') -> tabs w' = tabs w.
Proof.
  induction fuel as [|fuel IH]; intros cur w r w' H; simpl in H.
  - discriminate H.
  - minvert; try reflexivity.
    match goal with H : destroy_chain _ _ _ _ = Ok _ |- _ => apply IH in H end.
    assumption.
Qed.

Lemma destroy_buckets_tabs fuel t : forall todo idx w r w',
  destroy_buckets fuel t todo idx w = Ok (r, w') -> tabs w' = tabs w.
Proof.
  induction todo as [|todo IH]; intros idx w r w' H; simpl in H.
  - unfold ret in H. by simplify_eq.
  - unfold bind at 1 in H.
    destruct (load_table t w) as [[s0 w0]| | |] eqn:Hload; try discriminate H.
    assert (w0 = w) as ->.
    { unfold load_table in Hload. destruct (t =? NULL); [discriminate|].
      destruct (tabs w !! t); by simplify_eq. }
    destruct (table s0) as [arr|]; [|discriminate H].
    unfold bind at 1, bucket_at in H.
    destruct (arr !! Z.to_nat idx) as [cur|]; [|discriminate H].
    unfold ret at 1 in H. unfold bind at 1 in H.
    destruct (destroy_chain fuel s0 cur w) as [[[] w1]| | |] eqn:Hchain;
      try discriminate H.
    apply destroy_chain_tabs in Hchain. apply IH in H. congruence.
Qed.

(** X9. Once [htable_destroy] has released a table, its address holds
    no structure any more: insert, remove, get and a second destroy on
    the stale handle all read freed memory. *)
Theorem destroyed_table_is_unusable fuel t w s heads w1 :
  t <> NULL -> tabs w !! t = Some s -> table s = Some heads ->
  htable_destroy fuel t w = Ok (tt, w1) ->
  tabs w1 !! t = None /\
  (forall fuel' k v, htable_insert fuel' t k v w1 = Undefined WildDeref) /\
  (forall fuel' k, htable_remove fuel' t k w1 = Undefined WildDeref) /\
  (forall fuel' k, htable_get fuel' t k w1 = Undefined WildDeref) /\
  (forall fuel', htable_destroy fuel' t w1 = Undefined WildDeref).
Proof.
  intros Hp Ht Harr Hrun.
  assert (tabs w1 !! t = None) as Hgone.
  { unfold htable_destroy in Hrun. rewrite (eqb_null_ne t Hp) in Hrun.
    rewrite (bind_ok _ _ _ _ _ (load_table_ok t s w Hp Ht)), Harr in Hrun.
    unfold bind at 1 in Hrun.
    destruct (destroy_buckets fuel t (Z.to_nat (size s)) 0 w) as [[[] w0]| | |]
      eqn:Hb; try discriminate Hrun.
    munfold_in Hrun. simplify_eq. cbn [tabs]. apply lookup_delete_eq. }
  assert (load_table t w1 = Undefined WildDeref) as Hload.
  { unfold load_table. rewrite (eqb_null_ne t Hp), Hgone. reflexivity. }
  split; [exact Hgone|].
  unfold htable_insert, htable_remove, htable_get, htable_destroy.
  rewrite (eqb_null_ne t Hp). unfold bind. rewrite Hload. auto.
Qed.

Lemma destroyed_table_is_unusable_witness :
  exists w1,
    htable_destroy 3 Demo.t DemoFull.w = Ok (tt, w1) /\
    tabs w1 !! Demo.t = None /\
    (forall fuel' k v, htable_insert fuel' Demo.t k v w1 = Undefined WildDeref) /\
    (forall fuel' k, htable_remove fuel' Demo.t k w1 = Undefined WildDeref) /\
    (forall fuel' k, htable_get fuel' Demo.t k w1 = Undefined WildDeref) /\
    (forall fuel', htable_destroy fuel' Demo.t w1 = Undefined WildDeref).
Proof.
  eexists. split; [vm_compute; reflexivity|].
  apply (destroyed_table_is_unusable 3 Demo.t DemoFull.w DemoFull.s DemoFull.heads).
  - discriminate.
  - reflexivity.
  - reflexivity.
  - vm_compute. reflexivity.
Defined.
End TableGuards.

(** ** The table: creation, its failures and its hooks *)

Section TableCreateMore.
Import Table TableInv.
Implicit Types (w : W).

(** X10. [htable_create] always returns, and when it answers NULL it
    has kept nothing: no node and no structure is allocated that was
    not before, the structure obtained before the bucket array was
    refused having been freed again. *)
Theorem create_failure_keeps_nothing size' hash' keq' cbs' w :
  fresh_table_script w ->
  exists t w',
    htable_create size' hash' keq' cbs' w = Ok (t, w') /\
    mem w' = mem w /\
    (t = NULL -> tabs w' = tabs w) /\
    (t <> NULL -> tabs w !! t = None /\ is_Some (tabs w' !! t)).
Proof.
  intros Hfresh. unfold htable_create.
  destruct ((size' =? 0) || negb (bool_decide (is_Some hash'))
            || negb (bool_decide (is_Some keq'))).
  { eexists _, _. split; [reflexivity|]. repeat split; try done. }
  unfold bind at 1, alloc_table at 1. cbv beta.
  pose proof (Hfresh) as Hf. unfold fresh_table_script in Hf.
  destruct (script w) as [|[|p j] rest] eqn:Hs.
  - eexists _, _. split; [reflexivity|]. repeat split; try done.
  - eexists _, _. split; [reflexivity|]. repeat split; try done.
  - specialize (Hf p j rest eq_refl).
    destruct (Z.eqb_spec p NULL) as [Hp|Hp].
    { eexists _, _. split; [reflexivity|]. repeat split; try done. }
    rewrite (eqb_null_ne p Hp).
    unfold bind at 1, calloc_buckets at 1. cbn [script].
    destruct rest as [|[|a j2] rest'].
    + eexists _, _. split; [munfold; reflexivity|]. cbn [mem tabs].
      repeat split; try done. intros _. apply delete_insert_id. exact Hf.
    + eexists _, _. split; [munfold; reflexivity|]. cbn [mem tabs].
      repeat split; try done. intros _. apply delete_insert_id. exact Hf.
    + destruct ((a =? NULL) || negb (size' * PTR_SIZE <? ULONG_MOD)).
      * eexists _, _. split; [munfold; reflexivity|]. cbn [mem tabs].
        repeat split; try done. intros _. apply delete_insert_id. exact Hf.
      * eexists _, _. split.
        { munfold. rewrite (eqb_null_ne p Hp), lookup_insert_eq. reflexivity. }
        cbn [mem tabs]. repeat split; try done.
        rewrite lookup_insert_eq. eauto.
Qed.

Lemma create_failure_keeps_nothing_witness :
  exists t w',
    htable_create 2 (Some Demo.hf) (Some Demo.q) None
      (World (mem Demo.w) (tabs Demo.w) [] [ABlock 200 (Node 1 2 3); AFail])
      = Ok (t, w') /\
    mem w' = mem Demo.w /\
    (t = NULL -> tabs w' = tabs Demo.w) /\
    (t <> NULL -> tabs Demo.w !! t = None /\ is_Some (tabs w' !! t)).
Proof.
  apply (create_failure_keeps_nothing 2 (Some Demo.hf) (Some Demo.q) None
           (World (mem Demo.w) (tabs Demo.w) [] [ABlock 200 (Node 1 2 3); AFail])).
  intros p junk rest H. injection H as <- _ _. reflexivity.
Defined.

(** X11. The hooks a created table calls: each of the four is the one
    the caller's policy names, and the library's default (the identity
    for the copies, the no-op for the frees) where the policy is
    omitted or leaves that hook NULL. *)
Theorem create_installs_hooks C hf q cbs' w t w' :
  C <> 0 -> htable_create C (Some hf) (Some q) cbs' w = Ok (t, w') -> t <> NULL ->
  exists s,
    tabs w' !! t = Some s /\
    hooks s hf q
      (default htable_default_copy (cbs' ≫= kcpy))
      (default htable_default_copy (cbs' ≫= vcpy))
      (default htable_default_free (cbs' ≫= kfree))
      (default htable_default_free (cbs' ≫= vfree)).
Proof.
  intros HC Hrun Ht.
  destruct (htable_create_success C hf q cbs' w t w' HC Hrun Ht) as (_ & Htabs & _).
  exists (created C hf q cbs'). split; [rewrite Htabs; apply lookup_insert_eq|].
  destruct cbs' as [[[kc|] [vc|] [kf|] [vf|]]|]; split; reflexivity.
Qed.

Lemma create_installs_hooks_witness :
  exists w' s,
    htable_create 2 (Some Demo.hf) (Some Demo.q)
      (Some (Callbacks None (Some (fun p => p + 1)) (Some (extern_free 7)) None))
      Demo.w_boot = Ok (100, w') /\
    tabs w' !! 100 = Some s /\
    hooks s Demo.hf Demo.q htable_default_copy (fun p => p + 1)
          (extern_free 7) htable_default_free.
Proof.
  eassert (htable_create 2 (Some Demo.hf) (Some Demo.q)
             (Some (Callbacks None (Some (fun p => p + 1)) (Some (extern_free 7)) None))
             Demo.w_boot = Ok (100, _)) as Hrun by (vm_compute; reflexivity).
  destruct (create_installs_hooks 2 Demo.hf Demo.q
              (Some (Callbacks None (Some (fun p => p + 1)) (Some (extern_free 7)) None))
              Demo.w_boot 100 _ ltac:(discriminate) Hrun ltac:(discriminate))
    as (s & Hs & Hh).
  eexists _, s. split; [exact Hrun|]. split; [exact Hs | exact Hh].
Defined.
End TableCreateMore.

(** ** The table: a comparator in the place of [keq] *)

Section TableComparator.
Import Table TableInv.
Implicit Types (w : W) (l : chain).

(** X12. When [keq] answers 0 for a key and its stored copy, as a
    comparator in the style of [strcmp] does, a key that is inserted
    into a bucket with no matching entry cannot be found again: the
    insert answers 0 and the [htable_get] that follows answers NULL. *)
Theorem comparator_keq_hides_inserted_key s hf q kc vc kf vf w t heads cs k v
    fuel w1 l :
  hooks s hf q kc vc kf vf -> live w t s heads cs ->
  fresh_script w -> clean_script w -> enough fuel cs -> v <> NULL ->
  cs !! slot s hf k = Some l -> no_match q k l -> q (kc k) k = 0 ->
  htable_insert fuel t k v w = Ok (0, w1) ->
  htable_get (S fuel) t k w1 = Ok (NULL, w1).
Proof.
  intros Hhooks Hlive Hfresh Hclean Hfuel Hv Hl Hnol Hcmp Hins.
  destruct (live_bucket s hf w t heads cs k Hlive) as (head & l' & Hh & Hl' & Hseg).
  pose proof (eq_trans (eq_sym Hl) Hl') as E. injection E as <-. clear Hl'.
  pose proof (enough_lookup _ _ _ _ Hfuel Hl) as Hlen.
  pose proof Hlive as [Hshape Hch]. pose proof Hshape as [Hp Ht Harr Hsz Hpos].
  destruct (htable_insert_cases s hf q kc vc kf vf Hhooks w t heads cs k v head l fuel
              Hlive Hv Hfresh Hfuel Hh Hl)
    as [(l1 & a & n & l2 & -> & Hno & Hq & Hrun)
       |[(Hno & Hfail & Hrun)
       |[(p & junk & rest & -> & -> & Hs & Hpn & Hpf & Hrun)
        |(l0 & a & n & p & junk & rest & -> & Hno & Hs & Hpn & Hpf & Hrun)]]];
    rewrite Hrun in Hins; simplify_eq.
  - exfalso. apply Hq. unfold no_match in Hnol.
    rewrite Forall_app, Forall_cons in Hnol. tauto.
  - set (s' := set_table s (Some (<[slot s hf k := p]> heads))).
    eapply (htable_get_miss s' hf q kc vc kf vf (hooks_set_table s hf q kc vc kf vf
              Hhooks _) _ t (<[slot s hf k := p]> heads) k p
              [(p, Node (kc k) (vc v) NULL)]).
    + split; cbn [tabs]; try done.
      * apply lookup_insert_eq.
      * cbn. rewrite length_insert. assumption.
    + change (slot s' hf k) with (slot s hf k).
      apply list_lookup_insert_eq. eapply slot_lt; eauto.
    + cbn [mem]. simpl. rewrite lookup_insert_eq. done.
    + constructor; [exact Hcmp | constructor].
    + simpl. lia.
  - pose proof (Hclean p junk rest Hs) as Hnull.
    rewrite length_app in Hlen. simpl in Hlen.
    eapply (htable_get_miss s hf q kc vc kf vf Hhooks _ t heads k head
              (l0 ++ [(a, set_next n p); (p, Node (kc k) (vc v) (next junk))])).
    + split; assumption.
    + assumption.
    + cbn [mem].
      pose proof (lseg_append_node (mem w) l0 a n head p
                    (Node (kc k) (vc v) (next junk)) Hseg Hpf Hpn) as H.
      cbn [next] in H. rewrite Hnull in H. rewrite Hnull. exact H.
    + unfold no_match in *. rewrite Forall_app in *. destruct Hno as [Hno1 Hno2].
      split; [assumption|]. apply Forall_inv in Hno2.
      repeat constructor; assumption.
    + rewrite length_app. simpl. lia.
Qed.

Lemma democmp_live : live DemoCmp.w Demo.t Demo.s_cmp Demo.heads Demo.cs.
Proof.
  split; [split; [discriminate | reflexivity..]|].
  repeat constructor; discriminate.
Qed.

Lemma comparator_keq_hides_inserted_key_witness :
  exists w1,
    htable_insert 3 Demo.t 3 30 DemoCmp.w = Ok (0, w1) /\
    htable_get 4 Demo.t 3 w1 = Ok (NULL, w1).
Proof.
  eexists. split; [vm_compute; reflexivity|].
  apply (comparator_keq_hides_inserted_key Demo.s_cmp Demo.hf Demo.cmp
           htable_default_copy htable_default_copy Demo.kf Demo.kf DemoCmp.w Demo.t
           Demo.heads Demo.cs 3 30 3 _ []).
  - split; reflexivity.
  - exact democmp_live.
  - intros p junk rest H. injection H as <- _ _. reflexivity.
  - intros p junk rest H. injection H as _ <- _. reflexivity.
  - exact demo_enough.
  - discriminate.
  - reflexivity.
  - constructor.
  - reflexivity.
  - vm_compute. reflexivity.
Defined.
End TableComparator.

(** ** The table: what no operation writes *)

Section TableConfig.
Import Table TableInv.
Implicit Types (w : W).

Lemma same_config_refl w : same_config w w.
Proof. intros t0. reflexivity. Qed.

Lemma same_config_trans w1 w2 w3 :
  same_config w1 w2 -> same_config w2 w3 -> same_config w1 w3.
Proof. intros H12 H23 t0. rewrite H23. apply H12. Qed.

Lemma same_config_tabs w w' : tabs w' = tabs w -> same_config w w'.
Proof. intros H t0. rewrite H. reflexivity. Qed.

Lemma same_config_bucket w t h arr (i : nat) p m lg sc :
  tabs w !! t = Some h -> table h = Some arr ->
  same_config w (World m (<[t := set_table h (Some (<[i := p]> arr))]> (tabs w)) lg sc).
Proof.
  intros Hh Harr t0. cbn [tabs]. destruct (decide (t = t0)) as [<-|Hne].
  - rewrite lookup_insert_eq, Hh. unfold config. cbn. rewrite Harr. cbn.
    rewrite length_insert. reflexivity.
  - rewrite lookup_insert_ne by done. reflexivity.
Qed.

Lemma remove_scan_config fuel t s k hk : forall cur prev w r w',
  remove_scan fuel t s k hk cur prev w = Ok (r, w') -> same_config w w'.
Proof.
  induction fuel as [|fuel IH]; intros cur prev w r w' H; simpl in H.
  - discriminate H.
  - minvert_with fail; eauto using same_config_refl, same_config_tabs.
    all: try (eapply same_config_bucket; eassumption).
Qed.

Lemma htable_insert_config fuel t k v w r w' :
  htable_insert fuel t k v w = Ok (r, w') -> same_config w w'.
Proof.
  intros H. unfold htable_insert in H.
  minvert_with ltac:(idtac;
    match goal with
    | H : insert_scan _ _ _ _ _ _ = Ok (_, ?w1) |- _ =>
        apply insert_scan_tabs in H; destruct w1; cbn [tabs] in H; subst
    end);
    try (apply same_config_tabs; reflexivity);
    try (eapply same_config_bucket; eassumption).
  all: match goal with
       | H : insert_scan _ _ _ _ _ _ = Ok _ |- _ => apply insert_scan_tabs in H
       end.
  all: apply same_config_tabs; cbn [tabs]; congruence.
Qed.

Lemma htable_remove_config fuel t k w r w' :
  htable_remove fuel t k w = Ok (r, w') -> same_config w w'.
Proof.
  intros H. unfold htable_remove in H.
  minvert_with ltac:(idtac;
    match goal with
    | H : remove_scan _ _ _ _ _ _ _ _ = Ok _ |- _ =>
        apply remove_scan_config in H
    end);
    try assumption; try (apply same_config_refl).
Qed.

(** X13. The capacity is fixed at creation: no run of inserts, removes
    and gets changes the [size] field of any table structure, the
    length of its bucket array, its hash and equality functions or its
    callbacks. *)
Theorem capacity_and_hooks_never_change fuel t os w w' :
  run_ops fuel t os w = Ok (tt, w') -> same_config w w'.
Proof.
  revert w w'. induction os as [|o os IH]; intros w w' H; simpl in H.
  - injection H as <-. apply same_config_refl.
  - unfold bind at 1 in H.
    destruct (run_op fuel t o w) as [[[] w1]| | |] eqn:Hop; try discriminate H.
    apply IH in H. eapply same_config_trans; [|exact H].
    destruct o as [k v|k|k]; unfold run_op, bind at 1 in Hop.
    + destruct (htable_insert fuel t k v w) as [[r w2]| | |] eqn:Hi;
        try discriminate Hop. injection Hop as <-.
      eapply htable_insert_config; eauto.
    + destruct (htable_remove fuel t k w) as [[r w2]| | |] eqn:Hi;
        try discriminate Hop. injection Hop as <-.
      eapply htable_remove_config; eauto.
    + destruct (htable_get fuel t k w) as [[r w2]| | |] eqn:Hi;
        try discriminate Hop. injection Hop as <-.
      apply htable_get_pure in Hi. subst. apply same_config_refl.
Qed.

Lemma capacity_and_hooks_never_change_witness :
  exists w',
    run_ops 4 Demo.t [Op_insert 6 60; Op_remove 2; Op_insert 3 30; Op_get 4]
      DemoClean.w = Ok (tt, w') /\
    same_config DemoClean.w w'.
Proof.
  eexists. split; [vm_compute; reflexivity|].
  apply (capacity_and_hooks_never_change 4 Demo.t
           [Op_insert 6 60; Op_remove 2; Op_insert 3 30; Op_get 4]).
  vm_compute. reflexivity.
Defined.
End TableConfig.

(** ** The map: what callers can rely on *)

Section MapMore.
Import Map.
Implicit Types (w : world htable_t) (l : chain).

Lemma map_no_match_keq cmp k l :
  MapInv.no_match cmp k l <-> no_match (comp_as_keq cmp) k l.
Proof.
  unfold MapInv.no_match, no_match, comp_as_keq. apply Forall_iff. intros [a n].
  cbn [snd].
  destruct (Z.eqb_spec (cmp (key n) k) 0); split; intros; (done || lia).
Qed.

Lemma map_live_bucket s hf w t heads cs k :
  MapInv.live w t s heads cs ->
  exists head l, heads !! MapInv.slot s hf k = Some head /\ cs !! MapInv.slot s hf k = Some l /\
                 lseg (mem w) head l NULL.
Proof.
  intros [Hshape Hch].
  destruct (lookup_lt_is_Some_2 heads (MapInv.slot s hf k) (map_slot_lt s hf w t heads k Hshape))
    as [head Hh].
  destruct (Forall2_lookup_l _ _ _ _ _ Hch Hh) as (l & Hl & Hseg). eauto.
Qed.

Lemma map_htable_get_find s hf cmp w t heads cs k l fuel :
  hash s = Some hf -> comp s = Some cmp -> MapInv.live w t s heads cs ->
  enough fuel cs -> cs !! MapInv.slot s hf k = Some l ->
  htable_get fuel t k w = Ok (assoc_find (comp_as_keq cmp) k (contents l), w).
Proof.
  intros Hhash Hcomp Hlive Hfuel Hl.
  destruct (map_live_bucket s hf w t heads cs k Hlive) as (head & l' & Hh & Hl' & Hseg).
  pose proof (eq_trans (eq_sym Hl') Hl) as E. injection E as ->.
  pose proof (Forall_lookup_1 _ _ _ _ Hfuel Hl) as Hlen. simpl in Hlen.
  destruct Hlive as [Hshape _].
  destruct (map_first_match cmp k l) as [Hno|(l1 & a & n & l2 & -> & Hno & Hq)].
  - rewrite (assoc_find_miss _ k l (proj1 (map_no_match_keq cmp k l) Hno)).
    eapply map_htable_get_miss; eauto.
  - rewrite (assoc_find_hit (comp_as_keq cmp) k l1 a n l2).
    + rewrite length_app in Hlen. simpl in Hlen.
      eapply map_htable_get_hit; eauto. lia.
    + apply map_no_match_keq. exact Hno.
    + unfold comp_as_keq. rewrite Hq. discriminate.
Qed.

(** X14. On a live map [htable_get] returns the value of the first
    entry of the key's bucket chain for which [comp] answers 0, NULL
    when the chain has none, and leaves the world as it was. *)
Theorem map_get_returns_first_match s hf cmp w t heads cs k l fuel :
  hash s = Some hf -> comp s = Some cmp -> MapInv.live w t s heads cs ->
  enough fuel cs -> cs !! MapInv.slot s hf k = Some l ->
  htable_get fuel t k w = Ok (assoc_find (comp_as_keq cmp) k (contents l), w).
Proof. apply map_htable_get_find. Qed.

Lemma map_get_returns_first_match_witness :
  htable_get 3 DemoMap.t 4 DemoMap.w = Ok (40, DemoMap.w).
Proof.
  exact (map_get_returns_first_match DemoMap.s DemoMap.hf DemoMap.cmp DemoMap.w
           DemoMap.t DemoMap.heads DemoMap.cs 4 [(10, Demo.n10); (12, Demo.n12)] 3
           eq_refl eq_refl demomap_live demo_enough eq_refl).
Defined.




(** X16. On a live map [htable_remove] answers -1 and changes nothing
    when [comp] answers 0 for no entry of the key's bucket; otherwise
    it answers 0 and frees the node of the first such entry, and
    nothing else leaves the library: neither key nor value is
    released. *)
Theorem map_remove_frees_one_node s hf cmp w t heads cs k fuel l :
  hash s = Some hf -> comp s = Some cmp -> MapInv.live w t s heads cs ->
  enough fuel cs -> cs !! MapInv.slot s hf k = Some l ->
  (MapInv.no_match cmp k l /\ htable_remove fuel t k w = Ok (-1, w)) \/
  (exists l1 a n l2 w',
     l = l1 ++ (a, n) :: l2 /\ MapInv.no_match cmp k l1 /\ cmp (key n) k = 0 /\
     htable_remove fuel t k w = Ok (0, w') /\
     mem w' !! a = None /\ log w' = log w ++ [Free_node a] /\
     script w' = script w).
Proof.
  intros Hhash Hcomp Hlive Hfuel Hl.
  destruct (map_live_bucket s hf w t heads cs k Hlive) as (head & l' & Hh & Hl' & Hseg).
  pose proof (eq_trans (eq_sym Hl') Hl) as E. injection E as ->.
  pose proof (Forall_lookup_1 _ _ _ _ Hfuel Hl) as Hlen. simpl in Hlen.
  destruct Hlive as [Hshape _].
  destruct (map_first_match cmp k l) as [Hno|(l1 & a & n & l2 & -> & Hno & Hq)].
  - left. split; [assumption|]. eapply map_htable_remove_miss; eauto.
  - right. rewrite length_app in Hlen. simpl in Hlen.
    destruct (map_htable_remove_hit s hf cmp Hhash Hcomp w t heads k head l1 a n l2
                NULL fuel Hshape Hh Hseg Hno Hq ltac:(lia)) as (w' & Hrun & H).
    exists l1, a, n, l2, w'. split_and!; try tauto.
Qed.

Lemma map_remove_frees_one_node_witness :
  (MapInv.no_match DemoMap.cmp 4 [(10, Demo.n10); (12, Demo.n12)] /\
   htable_remove 3 DemoMap.t 4 DemoMap.w = Ok (-1, DemoMap.w)) \/
  (exists l1 a n l2 w',
     [(10, Demo.n10); (12, Demo.n12)] = l1 ++ (a, n) :: l2 /\
     MapInv.no_match DemoMap.cmp 4 l1 /\ DemoMap.cmp (key n) 4 = 0 /\
     htable_remove 3 DemoMap.t 4 DemoMap.w = Ok (0, w') /\
     mem w' !! a = None /\ log w' = log DemoMap.w ++ [Free_node a] /\
     script w' = script DemoMap.w).
Proof.
  exact (map_remove_frees_one_node DemoMap.s DemoMap.hf DemoMap.cmp DemoMap.w
           DemoMap.t DemoMap.heads DemoMap.cs 4 3 [(10, Demo.n10); (12, Demo.n12)]
           eq_refl eq_refl demomap_live demo_enough eq_refl).
Defined.

(** X17. The map states its preconditions as assertions: a NULL map
    stops insert, remove, get and destroy alike, a NULL bucket array
    stops insert, remove and get, and a NULL value stops insert; none
    of them returns an error code. *)
Theorem map_preconditions_abort fuel t k v w s :
  t = NULL \/ (tabs w !! t = Some s /\ (table s = None \/ v = NULL)) ->
  htable_insert fuel t k v w = AssertFail /\
  (t = NULL \/ table s = None ->
   htable_remove fuel t k w = AssertFail /\ htable_get fuel t k w = AssertFail) /\
  (t = NULL -> htable_destroy t w = AssertFail).
Proof.
  intros H. split; [|split].
  - destruct H as [->|(Ht & H)]; [reflexivity|].
    unfold htable_insert. destruct (Z.eq_dec t NULL) as [->|Hp]; [reflexivity|].
    unfold assert at 1. rewrite (eqb_null_ne t Hp). cbn [negb]. unfold bind at 1.
    rewrite (bind_ok _ _ _ _ _ (load_table_ok t s w Hp Ht)).
    destruct H as [->| ->]; [reflexivity|].
    destruct (bool_decide (is_Some (table s))); reflexivity.
  - intros H'. destruct H as [->|(Ht & _)]; [split; reflexivity|].
    destruct H' as [->|Hnone]; [split; reflexivity|].
    destruct (Z.eq_dec t NULL) as [->|Hp]; [split; reflexivity|].
    split; [unfold htable_remove | unfold htable_get];
      unfold assert at 1; rewrite (eqb_null_ne t Hp); cbn [negb]; unfold bind at 1;
      rewrite (bind_ok _ _ _ _ _ (load_table_ok t s w Hp Ht)), Hnone; reflexivity.
  - intros ->. reflexivity.
Qed.

Lemma map_preconditions_abort_witness :
  htable_insert 3 DemoMap.t 6 NULL DemoMap.w = AssertFail /\
  (DemoMap.t = NULL \/ table DemoMap.s = None ->
   htable_remove 3 DemoMap.t 6 DemoMap.w = AssertFail /\
   htable_get 3 DemoMap.t 6 DemoMap.w = AssertFail) /\
  (DemoMap.t = NULL -> htable_destroy DemoMap.t DemoMap.w = AssertFail).
Proof.
  apply (map_preconditions_abort 3 DemoMap.t 6 NULL DemoMap.w DemoMap.s).
  right. split; [reflexivity|]. right. reflexivity.
Defined.

(** X18. The map's [htable_destroy] never visits a chain: it releases
    the bucket array and the structure and leaves every node
    allocated; the nodes of a destroyed map can no longer be reached
    through it. *)
Theorem map_destroy_frees_no_node t w s :
  t <> NULL -> tabs w !! t = Some s ->
  htable_destroy t w =
    Ok (tt, World (mem w) (delete t (tabs w))
                  (log w ++ match table s with Some _ => [Free_array t] | None => [] end
                         ++ [Free_table t])
                  (script w)).
Proof.
  intros Hp Ht. unfold htable_destroy.
  unfold assert at 1. rewrite (eqb_null_ne t Hp). cbn [negb]. unfold bind at 1.
  rewrite (bind_ok _ _ _ _ _ (load_table_ok t s w Hp Ht)).
  destruct (table s); munfold; rewrite <- ?app_assoc; try rewrite app_nil_r;
    reflexivity.
Qed.

Lemma map_destroy_frees_no_node_witness :
  htable_destroy DemoMap.t DemoMap.w =
    Ok (tt, World (mem DemoMap.w) (delete DemoMap.t (tabs DemoMap.w))
                  [Free_array DemoMap.t; Free_table DemoMap.t]
                  (script DemoMap.w)).
Proof.
  exact (map_destroy_frees_no_node DemoMap.t DemoMap.w DemoMap.s
           ltac:(discriminate) eq_refl).
Defined.
End MapMore.

(** ** The map: the bucket array [htable_create] makes *)

Section MapCreate.
Import Map.
Implicit Types (w : world htable_t).

(** X19. A map handed out by [htable_create] records the capacity asked
    for, and its bucket array holds [(size * 8 mod 2^64) / 8] empty
    buckets: as many as the capacity when [size * 8] fits [size_t],
    fewer when it does not, and then [htable_get] on a key whose bucket
    index is not below that number reads outside the array.  No node
    is touched. *)
Theorem map_create_bucket_count size' hash' comp' w t w' :
  0 < size' < ULONG_MOD ->
  htable_create size' hash' comp' w = Ok (t, w') -> t <> NULL ->
  exists n : nat,
    tabs w' !! t = Some (Hmap (Some (replicate n NULL)) size' hash' comp') /\
    mem w' = mem w /\
    Z.of_nat n = ((size' * PTR_SIZE) mod ULONG_MOD) / PTR_SIZE /\
    (size' * PTR_SIZE < ULONG_MOD -> Z.of_nat n = size') /\
    (ULONG_MOD <= size' * PTR_SIZE -> Z.of_nat n < size') /\
    (forall hf k fuel, hash' = Some hf -> Z.of_nat n <= bucket_of hf size' k ->
       htable_get fuel t k w' = Undefined OutOfBounds).
Proof.
  intros Hsize Hrun Ht. unfold htable_create in Hrun.
  set (bytes := (size' * PTR_SIZE) mod ULONG_MOD) in *.
  minvert; try done.
  match goal with H : <[_ := _]> (<[_ := _]> _) !! _ = Some _ |- _ =>
    rewrite lookup_insert_eq in H; injection H as <- end.
  match goal with H : <[_ := _]> _ !! _ = Some _ |- _ =>
    rewrite lookup_insert_eq in H; injection H as <- end.
  exists (Z.to_nat (bytes / PTR_SIZE)).
  assert (0 <= bytes < ULONG_MOD) as Hb by (apply Z.mod_pos_bound; reflexivity).
  assert (0 <= bytes / PTR_SIZE) as Hq by (apply Z.div_pos; [lia | reflexivity]).
  unfold memset_zero. rewrite drop_replicate, Nat.sub_diag, app_nil_r.
  cbn [set_table set_size set_hash set_comp table size hash comp].
  rewrite !insert_insert_eq.
  split_and!.
  - apply lookup_insert_eq.
  - reflexivity.
  - lia.
  - intros Hfit. rewrite Z2Nat.id by lia. subst bytes.
    rewrite Z.mod_small by (unfold PTR_SIZE in *; lia).
    apply Z.div_mul. discriminate.
  - intros Hwrap. rewrite Z2Nat.id by lia.
    assert (bytes / PTR_SIZE < ULONG_MOD / PTR_SIZE).
    { apply Z.div_lt_upper_bound; [reflexivity|].
      change (PTR_SIZE * (ULONG_MOD / PTR_SIZE)) with ULONG_MOD. lia. }
    assert (ULONG_MOD / PTR_SIZE <= size').
    { apply Z.div_le_upper_bound; [reflexivity|]. lia. }
    lia.
  - intros hf k fuel -> Hout.
    match goal with |- context [World ?m (<[t := ?s0]> ?tb) ?lg ?sc] =>
      set (s := s0); set (w1 := World m (<[t := s]> tb) lg sc) end.
    assert (tabs w1 !! t = Some s) as Htab by apply lookup_insert_eq.
    assert (table s = Some (replicate (Z.to_nat (bytes / PTR_SIZE)) NULL)) as Harr
      by reflexivity.
    assert (hash s = Some hf) as Hhash by reflexivity.
    assert (size s = size') as Hsz by reflexivity.
    clearbody s w1.
    unfold htable_get. unfold assert at 1. rewrite (eqb_null_ne t Ht). cbn [negb].
    unfold bind at 1.
    rewrite (bind_ok _ _ _ _ _ (load_table_ok t s w1 Ht Htab)).
    rewrite Harr. rewrite bool_decide_eq_true_2 by eauto.
    unfold assert at 1, bind at 1.
    assert (get_hash t k w1 = Ok (bucket_of hf size' k, w1)) as Hgh.
    { unfold get_hash. rewrite (bind_ok _ _ _ _ _ (load_table_ok t s w1 Ht Htab)).
      rewrite Hhash, Hsz. unfold bind, fnptr, ret.
      destruct (Z.eqb_spec size' 0) as [|_]; [lia | reflexivity]. }
    rewrite (bind_ok _ _ _ _ _ Hgh). unfold bucket_at. fold (bucket_of hf size' k).
    assert (replicate (Z.to_nat (bytes / PTR_SIZE)) NULL
              !! Z.to_nat (bucket_of hf size' k) = None) as Hnone
      by (apply lookup_replicate_None; lia).
    rewrite Hnone. reflexivity.
Qed.

Lemma map_create_bucket_count_witness :
  exists w' (n : nat),
    htable_create (2 ^ 61 + 1) (Some DemoMap.hf) (Some DemoMap.cmp) DemoMap.w_boot
      = Ok (100, w') /\
    tabs w' !! 100 =
      Some (Hmap (Some (replicate n NULL)) (2 ^ 61 + 1) (Some DemoMap.hf)
                 (Some DemoMap.cmp)) /\
    Z.of_nat n = 1 /\
    htable_get 3 100 5 w' = Undefined OutOfBounds.
Proof.
  eassert (htable_create (2 ^ 61 + 1) (Some DemoMap.hf) (Some DemoMap.cmp)
             DemoMap.w_boot = Ok (100, _)) as Hrun by (vm_compute; reflexivity).
  destruct (map_create_bucket_count (2 ^ 61 + 1) (Some DemoMap.hf) (Some DemoMap.cmp)
              DemoMap.w_boot 100 _ ltac:(split; reflexivity) Hrun ltac:(discriminate))
    as (n & Htab & _ & Hn & _ & _ & Hget).
  eexists _, n. split; [exact Hrun|]. split; [exact Htab|].
  split; [rewrite Hn; reflexivity|].
  apply (Hget DemoMap.hf 5 3%nat eq_refl). rewrite Hn. vm_compute. discriminate.
Defined.
End MapCreate.

(** ** The unit tests against the table *)

Section UnitTests.
Import Table TableInv Tests.
Implicit Types (w : W).

(** X20. [test_htable_create] cannot pass against the table: its
    [htable_create] call names no hash and no equality function and is
    answered NULL, and the second check reads [map->table] through that
    NULL, whatever the allocator would have done. *)
Theorem test_htable_create_reads_null fuel w :
  test_htable_create fuel w = Undefined NullDeref.
Proof. reflexivity. Qed.

Lemma htable_create_total size' hash' keq' cbs' w :
  exists t w', htable_create size' hash' keq' cbs' w = Ok (t, w').
Proof.
  unfold htable_create.
  destruct ((size' =? 0) || negb (bool_decide (is_Some hash'))
            || negb (bool_decide (is_Some keq'))); [eexists _, _; reflexivity|].
  unfold bind at 1, alloc_table at 1. cbv beta.
  destruct (script w) as [|[|p j] rest]; [eexists _, _; reflexivity..|].
  destruct (Z.eqb_spec p NULL) as [Hp|Hp]; [eexists _, _; reflexivity|].
  rewrite (eqb_null_ne p Hp).
  unfold bind at 1, calloc_buckets at 1. cbn [script].
  destruct rest as [|[|a j2] rest']; [eexists _, _; munfold; reflexivity..|].
  destruct ((a =? NULL) || negb (size' * PTR_SIZE <? ULONG_MOD));
    eexists _, _; munfold; [reflexivity|].
  rewrite (eqb_null_ne p Hp), lookup_insert_eq. reflexivity.
Qed.

(** X21. [test_htable_insert_int] cannot pass against the table either:
    it hands [compare_int] to [htable_create] as the equality hook, the
    hook answers 0 for the key against itself, so the [htable_get]
    after the insert answers NULL on every run, and the second check
    reads through it. *)
Theorem test_htable_insert_int_reads_null fuel deref key_addr value_addr w :
  (2 <= fuel)%nat ->
  test_htable_insert_int fuel deref key_addr value_addr w = Undefined NullDeref.
Proof.
  intros Hfuel. unfold test_htable_insert_int.
  set (hf := hash_int deref). set (q := compare_int deref).
  assert (forall t0 w0 r, htable_get fuel t0 key_addr w0 = Ok (NULL, r) ->
            (result <- htable_get fuel t0 key_addr ;;
             if result =? NULL then undef NullDeref
             else htable_destroy fuel t0 ;;
                  ret [true; deref result =? deref value_addr]) w0
            = Undefined NullDeref) as _.
  { intros t0 w0 r H. rewrite (bind_ok _ _ _ _ _ H). reflexivity. }
  destruct (htable_create_total 1 (Some hf) (Some q) None w) as (t & w1 & Hcreate).
  rewrite (bind_ok _ _ _ _ _ Hcreate). cbv beta.
  destruct (Z.eq_dec t NULL) as [->|Ht].
  { (* no table: insert answers -1 and get answers NULL *)
    unfold bind, htable_insert, htable_get, ret. reflexivity. }
  destruct (htable_create_success 1 hf q None w t w1 ltac:(discriminate) Hcreate Ht)
    as (Hmem & Htabs & Hlog & _).
  set (s := created 1 hf q None) in *.
  assert (hooks s hf q htable_default_copy htable_default_copy
                htable_default_free htable_default_free) as Hhooks
    by (split; reflexivity).
  assert (shape w1 t s [NULL]) as Hshape.
  { split; [assumption | rewrite Htabs; apply lookup_insert_eq | reflexivity..]. }
  assert (slot s hf key_addr = 0%nat) as Hslot.
  { unfold slot, bucket_of. cbn [size s created]. rewrite Z.mod_1_r. reflexivity. }
  assert (forall w2, mem w2 = mem w1 -> tabs w2 = tabs w1 ->
            htable_get fuel t key_addr w2 = Ok (NULL, w2)) as Hempty.
  { intros w2 Hm Htb.
    apply (htable_get_miss s hf q htable_default_copy htable_default_copy
             htable_default_free htable_default_free Hhooks w2 t [NULL] key_addr
             NULL []).
    - destruct Hshape. split; try assumption. rewrite Htb. assumption.
    - rewrite Hslot. reflexivity.
    - reflexivity.
    - constructor.
    - simpl. lia. }
  destruct (Z.eq_dec value_addr NULL) as [->|Hv].
  { (* a NULL value is turned away *)
    assert (htable_insert fuel t key_addr NULL w1 = Ok (-1, w1)) as Hins.
    { destruct Hshape as [Hp Htab Harr _ _]. unfold htable_insert.
      rewrite (eqb_null_ne t Hp).
      rewrite (bind_ok _ _ _ _ _ (load_table_ok t s w1 Hp Htab)), Harr.
      reflexivity. }
    rewrite (bind_ok _ _ _ _ _ Hins). cbv beta.
    pose proof (Hempty w1 eq_refl eq_refl) as HH.
    unfold bind at 1. rewrite HH. reflexivity. }
  destruct (alloc_dec w1) as [Hfail|(p & junk & rest & Hs & Hpn)].
  - (* no node to be had *)
    rewrite (bind_ok _ _ _ _ _
               (htable_insert_nomem s hf q htable_default_copy htable_default_copy
                  htable_default_free htable_default_free Hhooks w1 t [NULL]
                  key_addr value_addr NULL [] fuel Hshape Hv
                  ltac:(rewrite Hslot; reflexivity) eq_refl ltac:(constructor) Hfail
                  ltac:(simpl; lia))). cbv beta.
    match goal with |- bind _ _ ?w2 = _ =>
      pose proof (Hempty w2 eq_refl eq_refl) as HH end.
    unfold bind at 1. rewrite HH. reflexivity.
  - (* the key is stored, and not found *)
    rewrite (bind_ok _ _ _ _ _
               (htable_insert_empty s hf q htable_default_copy htable_default_copy
                  htable_default_free htable_default_free Hhooks w1 t [NULL]
                  key_addr value_addr p junk rest fuel Hshape Hv
                  ltac:(rewrite Hslot; reflexivity) Hs Hpn)). cbv beta.
    rewrite Hslot. cbn [list_insert insert].
    set (s' := set_table s (Some [p])).
    set (w2 := World _ _ _ _).
    assert (htable_get fuel t key_addr w2 = Ok (NULL, w2)) as Hget.
    { apply (htable_get_miss s' hf q htable_default_copy htable_default_copy
               htable_default_free htable_default_free
               (hooks_set_table s hf q _ _ _ _ Hhooks _) w2 t [p] key_addr p
               [(p, Node (htable_default_copy key_addr)
                         (htable_default_copy value_addr) NULL)]).
      - split; [assumption | apply lookup_insert_eq | reflexivity..].
      - change (slot s' hf key_addr) with (slot s hf key_addr). rewrite Hslot.
        reflexivity.
      - subst w2. cbn [mem]. simpl. rewrite lookup_insert_eq. done.
      - constructor; [|constructor]. cbn. unfold q, compare_int, htable_default_copy.
        lia.
      - simpl. lia. }
    unfold bind at 1. rewrite Hget. reflexivity.
Qed.

Lemma test_htable_insert_int_reads_null_witness :
  test_htable_insert_int 2 (fun a => if a =? 500 then 42 else 100) 500 504
    Demo.w_boot = Undefined NullDeref.
Proof.
  apply (test_htable_insert_int_reads_null 2 (fun a => if a =? 500 then 42 else 100)
           500 504 Demo.w_boot).
  lia.
Defined.

Lemma lxor_range a b :
  0 <= a < ULONG_MOD -> 0 <= b < ULONG_MOD -> 0 <= Z.lxor a b < ULONG_MOD.
Proof.
  intros Ha Hb.
  assert (0 <= Z.lxor a b) as Hnn by (apply Z.lxor_nonneg; lia).
  split; [exact Hnn|].
  destruct (Z.eq_dec (Z.lxor a b) 0) as [->|Hnz]; [reflexivity|].
  unfold ULONG_MOD in *. apply Z.log2_lt_pow2; [lia|].
  pose proof (Z.log2_lxor a b ltac:(lia) ltac:(lia)) as Hlog.
  assert (Z.log2 a < 64) as Hla.
  { destruct (Z.eq_dec a 0) as [->|]; [reflexivity | apply Z.log2_lt_pow2; lia]. }
  assert (Z.log2 b < 64) as Hlb.
  { destruct (Z.eq_dec b 0) as [->|]; [reflexivity | apply Z.log2_lt_pow2; lia]. }
  lia.
Qed.

Lemma hash_step_range h c : 0 <= hash_step h c < ULONG_MOD.
Proof.
  unfold hash_step. apply lxor_range; apply Z.mod_pos_bound; reflexivity.
Qed.

Lemma hash_string_from_nul s : forall h rest,
  Forall (fun c => c <> 0) s ->
  hash_string_from h (s ++ 0 :: rest) = Some (fold_left hash_step s h) /\
  hash_string_from h s = None.
Proof.
  induction s as [|c s IH]; intros h rest Hs; simpl; [done|].
  apply Forall_cons in Hs as [Hc Hs]. apply Z.eqb_neq in Hc. rewrite Hc.
  apply IH. exact Hs.
Qed.

Lemma fold_hash_step_range s : forall h,
  0 <= h < ULONG_MOD -> 0 <= fold_left hash_step s h < ULONG_MOD.
Proof.
  induction s as [|c s IH]; intros h Hh; simpl; [exact Hh|].
  apply IH. apply hash_step_range.
Qed.

(** X22. [hash_string] reads its argument up to the first NUL and no
    further: the chars behind the NUL do not enter the hash, which is
    the fold of the xor variant of the djb2 round over the chars before
    it, started at 5381, and fits [unsigned long]; without a NUL the
    loop runs off the end of the chars. *)
Theorem hash_string_reads_to_nul s rest :
  Forall (fun c => c <> 0) s ->
  hash_string (s ++ 0 :: rest) = Some (fold_left hash_step s 5381) /\
  0 <= fold_left hash_step s 5381 < ULONG_MOD /\
  hash_string s = None.
Proof.
  intros Hs. unfold hash_string.
  destruct (hash_string_from_nul s 5381 rest Hs) as [H1 H2].
  split; [exact H1|]. split; [|exact H2].
  apply fold_hash_step_range. unfold ULONG_MOD. lia.
Qed.

Lemma hash_string_reads_to_nul_witness :
  hash_string ([104; 105] ++ 0 :: [33]) = Some 5861124 /\
  0 <= 5861124 < ULONG_MOD /\
  hash_string [104; 105] = None.
Proof.
  apply (hash_string_reads_to_nul [104; 105] [33]).
  repeat constructor; discriminate.
Defined.
End UnitTests.

(** ** Bucket addressing, and the two implementations side by side *)

Section Addressing.
Import Table TableInv.

(** X23. Bucket addressing: on an initialised table [get_hash] answers
    [hash(key) % size], the hash taken as an [unsigned long]; that
    index lies inside the bucket array, and the world is not touched. *)
Theorem get_hash_in_range s hf q kc vc kf vf (w : W) t heads k :
  hooks s hf q kc vc kf vf -> shape w t s heads ->
  get_hash t k w = Ok ((hf k mod ULONG_MOD) mod size s, w) /\
  0 <= (hf k mod ULONG_MOD) mod size s < Z.of_nat (length heads) /\
  is_Some (heads !! Z.to_nat ((hf k mod ULONG_MOD) mod size s)).
Proof.
  intros Hhooks Hshape.
  pose proof (get_hash_ok s hf q kc vc kf vf Hhooks w t heads k Hshape) as Hrun.
  pose proof (slot_lt s hf w t heads k Hshape) as Hlt.
  destruct Hshape as [_ _ _ Hsz Hpos].
  pose proof (Z.mod_pos_bound (hf k mod ULONG_MOD) (size s) Hpos) as Hb.
  split; [exact Hrun|]. split; [lia|].
  apply lookup_lt_is_Some_2. exact Hlt.
Qed.

Lemma get_hash_in_range_witness :
  get_hash Demo.t 7 Demo.w = Ok (1, Demo.w) /\
  0 <= 1 < 2 /\ is_Some (Demo.heads !! 1%nat).
Proof.
  exact (get_hash_in_range Demo.s Demo.hf Demo.q htable_default_copy
           htable_default_copy Demo.kf Demo.kf Demo.w Demo.t Demo.heads 7
           demo_hooks demo_shape).
Defined.

(** X24. The two implementations answer a lookup alike: a table whose
    [keq] answers non-zero exactly where the map's [comp] answers zero
    and a map with the same hash function, over the same bucket heads
    and the same nodes, return the same value for every key. *)
Theorem table_and_map_get_agree st sm hf cmp kc vc kf vf (wt : W)
    (wm : world Map.htable_t) t t' heads cs k fuel :
  hooks st hf (comp_as_keq cmp) kc vc kf vf ->
  Map.hash sm = Some hf -> Map.comp sm = Some cmp ->
  live wt t st heads cs -> MapInv.live wm t' sm heads cs ->
  enough fuel cs ->
  exists r,
    htable_get fuel t k wt = Ok (r, wt) /\
    Map.htable_get fuel t' k wm = Ok (r, wm).
Proof.
  intros Hhooks Hhash Hcomp Hlt Hlm Hfuel.
  destruct (live_bucket st hf wt t heads cs k Hlt) as (head & l & Hh & Hl & _).
  assert (MapInv.slot sm hf k = slot st hf k) as Hslot.
  { destruct Hlt as [[_ _ _ Hsz1 _] _]. destruct Hlm as [[_ _ _ Hsz2 _] _].
    unfold MapInv.slot, slot. rewrite Hsz1, Hsz2. reflexivity. }
  exists (assoc_find (comp_as_keq cmp) k (contents l)). split.
  - exact (htable_get_find st hf _ kc vc kf vf wt t heads cs k l fuel Hhooks Hlt
             Hfuel Hl).
  - apply (map_htable_get_find sm hf cmp wm t' heads cs k l fuel Hhash Hcomp Hlm
             Hfuel).
    rewrite Hslot. exact Hl.
Qed.

Lemma table_and_map_get_agree_witness :
  exists r,
    htable_get 3 Demo.t 4 (World (mem Demo.w)
        (<[Demo.t := Htable (Some Demo.heads) 2 0 (Some Demo.hf)
                       (Some (comp_as_keq DemoMap.cmp)) (installed None)]> ∅) [] [])
      = Ok (r, World (mem Demo.w)
        (<[Demo.t := Htable (Some Demo.heads) 2 0 (Some Demo.hf)
                       (Some (comp_as_keq DemoMap.cmp)) (installed None)]> ∅) [] []) /\
    Map.htable_get 3 DemoMap.t 4 DemoMap.w = Ok (r, DemoMap.w).
Proof.
  apply (table_and_map_get_agree
           (Htable (Some Demo.heads) 2 0 (Some Demo.hf)
                   (Some (comp_as_keq DemoMap.cmp)) (installed None))
           DemoMap.s Demo.hf DemoMap.cmp htable_default_copy htable_default_copy
           Demo.kf Demo.kf _ DemoMap.w Demo.t DemoMap.t Demo.heads Demo.cs 4 3).
  - split; reflexivity.
  - reflexivity.
  - reflexivity.
  - split; [split; [discriminate | reflexivity..]|].
    repeat constructor; discriminate.
  - exact demomap_live.
  - exact demo_enough.
Defined.
End Addressing.

(** ** The table: the invariant along any run *)

Section TableRuns.
Import Table TableInv.
Implicit Types (w : W) (l : chain).

Lemma invariant_ext hf q w w' t s heads cs :
  mem w' = mem w -> tabs w' = tabs w ->
  invariant hf q w t s heads cs -> invariant hf q w' t s heads cs.
Proof.
  intros Hm Ht ([[Hp Htab Harr Hsz Hpos] Hch] & Hown & Hplaced & Huniq).
  rewrite <- Hm in Hch, Hown, Huniq. rewrite <- Ht in Htab.
  split_and!; try assumption. split; [split; assumption | assumption].
Qed.

Lemma good_allocator_fresh w :
  good_allocator (mem w) (script w) -> fresh_script w /\ clean_script w.
Proof.
  intros [_ Hall]. split; intros p junk rest Hs; rewrite Hs in Hall;
    apply Forall_cons in Hall as [[H1 H2] _]; assumption.
Qed.

Lemma good_allocator_tail h sc :
  good_allocator h sc -> good_allocator h (tail sc).
Proof.
  intros [Hnd Hall]. destruct sc as [|a sc]; [split; assumption|]. simpl.
  apply Forall_cons in Hall as [_ Hall]. split; [|exact Hall].
  destruct a as [|p j]; simpl in Hnd; [exact Hnd|].
  apply NoDup_cons in Hnd as [_ Hnd]. exact Hnd.
Qed.

(** Handing out the first block: the blocks behind it stay good when
    the heap grows by that block only. *)
Lemma good_allocator_take (h h' : gmap Z htable_node) p junk rest :
  good_allocator h (ABlock p junk :: rest) ->
  (forall a, a <> p -> h !! a = None -> h' !! a = None) ->
  good_allocator h' rest.
Proof.
  intros [Hnd Hall] Hdom. simpl in Hnd. apply NoDup_cons in Hnd as [Hnin Hnd].
  apply Forall_cons in Hall as [_ Hall]. split; [exact Hnd|].
  rewrite Forall_forall in Hall. apply Forall_forall. intros [|p' j'] Hin; [exact I|].
  destruct (Hall _ Hin) as [Hfree Hclean]. split; [|exact Hclean].
  apply Hdom; [|exact Hfree]. intros ->. apply Hnin.
  apply list_elem_of_omap. exists (ABlock p j'). split; [exact Hin | reflexivity].
Qed.

Lemma good_allocator_shrink (h h' : gmap Z htable_node) sc :
  good_allocator h sc -> (forall a, h !! a = None -> h' !! a = None) ->
  good_allocator h' sc.
Proof.
  intros [Hnd Hall] Hdom. split; [exact Hnd|].
  eapply Forall_impl; [exact Hall|]. intros [|p j]; [done|].
  intros [H1 H2]. auto.
Qed.

Lemma at_most_enough n fuel cs : at_most n cs -> (n < fuel)%nat -> enough fuel cs.
Proof.
  intros H Hlt. unfold at_most, enough in *.
  eapply Forall_impl; [exact H|]. simpl. intros; lia.
Qed.

Lemma at_most_insert n m cs (i : nat) l' :
  at_most n cs -> (n <= m)%nat -> (length l' <= m)%nat ->
  at_most m (<[i := l']> cs).
Proof.
  intros H Hnm Hl. unfold at_most in *. apply Forall_insert; [|exact Hl].
  eapply Forall_impl; [exact H|]. simpl. intros; lia.
Qed.

Lemma at_most_mono n m cs : at_most n cs -> (n <= m)%nat -> at_most m cs.
Proof.
  intros H Hnm. unfold at_most in *.
  eapply Forall_impl; [exact H|]. simpl. intros; lia.
Qed.

Section Step.
Variables (hf : htable_hash_t) (q : htable_keq_t)
          (kc vc : htable_cpy_t) (kf vf : htable_free_t).
Hypothesis Hequiv : Equivalence (same q).
Hypothesis Hcopy : forall x, same q (kc x) x.

(** One operation on a table within the invariant, with a good
    allocator: it returns, and the table is within the invariant
    afterwards, the allocator still good, and no chain longer than
    before by more than one node. *)
Lemma run_op_invariant s w t heads cs n fuel o :
  hooks s hf q kc vc kf vf -> invariant hf q w t s heads cs ->
  (forall x y, same q x y -> bucket_of hf (size s) x = bucket_of hf (size s) y) ->
  good_allocator (mem w) (script w) -> at_most n cs -> (n < fuel)%nat ->
  exists w1 s1 heads1 cs1,
    run_op fuel t o w = Ok (tt, w1) /\
    hooks s1 hf q kc vc kf vf /\ size s1 = size s /\
    invariant hf q w1 t s1 heads1 cs1 /\
    good_allocator (mem w1) (script w1) /\ at_most (S n) cs1.
Proof using Hequiv Hcopy.
  intros Hhooks Hinv Hhash Hgood Hn Hlt.
  pose proof (at_most_enough n fuel cs Hn Hlt) as Hfuel.
  destruct (good_allocator_fresh w Hgood) as [Hfresh Hclean].
  pose proof Hinv as (Hlive & _). pose proof Hlive as [Hshape Hch].
  pose proof Hshape as [Hp Ht Harr Hsz Hpos].
  assert (exists w1 s1 heads1 cs1,
             Ok (tt, w) = Ok (tt, w1) /\ hooks s1 hf q kc vc kf vf /\
             size s1 = size s /\ invariant hf q w1 t s1 heads1 cs1 /\
             good_allocator (mem w1) (script w1) /\ at_most (S n) cs1) as Hsame.
  { exists w, s, heads, cs. split_and!; try done. eapply at_most_mono; eauto. }
  destruct o as [k v|k|k]; unfold run_op.
  - (* insert *)
    destruct (Z.eq_dec v NULL) as [->|Hv].
    { assert (htable_insert fuel t k NULL w = Ok (-1, w)) as Hrun.
      { unfold htable_insert. rewrite (eqb_null_ne t Hp).
        rewrite (bind_ok _ _ _ _ _ (load_table_ok t s w Hp Ht)), Harr. reflexivity. }
      rewrite (bind_ok _ _ _ _ _ Hrun). exact Hsame. }
    destruct (live_bucket s hf w t heads cs k Hlive) as (head & l & Hh & Hl & Hseg).
    pose proof (Forall_lookup_1 _ _ _ _ Hn Hl) as Hlen. simpl in Hlen.
    assert (forall w1, htable_insert fuel t k v w = Ok (0, w1) ->
              good_allocator (mem w1) (script w1) ->
              exists w1' s1 heads1 cs1,
                Ok (tt, w1) = Ok (tt, w1') /\ hooks s1 hf q kc vc kf vf /\
                size s1 = size s /\ invariant hf q w1' t s1 heads1 cs1 /\
                good_allocator (mem w1') (script w1') /\ at_most (S n) cs1) as Hok.
    { intros w1 Hins Hgood1.
      destruct (htable_insert_refines s hf q kc vc kf vf w t heads cs k v fuel w1 l
                  Hhooks Hinv Hequiv Hhash Hcopy Hfresh Hclean Hfuel Hv Hl Hins)
        as (s1 & heads1 & l1 & Hh1 & Hsz1 & Hc & _ & Hinv1).
      exists w1, s1, heads1, (<[slot s hf k := l1]> cs). split_and!; try done.
      apply (at_most_insert n); [assumption | lia |].
      rewrite <- (contents_length l1), Hc.
      pose proof (assoc_upsert_length q k (kc k) (vc v) (contents l)) as Hle.
      rewrite contents_length in Hle. lia. }
    destruct (htable_insert_cases s hf q kc vc kf vf Hhooks w t heads cs k v head l fuel
                Hlive Hv Hfresh Hfuel Hh Hl)
      as [(l1 & a & n0 & l2 & -> & Hno & Hq & Hrun)
         |[(Hno & Hfail & Hrun)
         |[(p & junk & rest & -> & -> & Hs & Hpn & Hpf & Hrun)
          |(l0 & a & n0 & p & junk & rest & -> & Hno & Hs & Hpn & Hpf & Hrun)]]];
      rewrite (bind_ok _ _ _ _ _ Hrun); cbv beta.
    + apply (Hok _ Hrun). cbn [mem script].
      destruct (lseg_lookup _ _ _ _ a n0 Hseg) as [Han _].
      { apply elem_of_app. right. left. }
      apply (good_allocator_shrink (mem w)); [assumption|].
      intros b Hb. rewrite lookup_insert_ne; [exact Hb|].
      intros ->. pose proof (eq_trans (eq_sym Han) Hb) as E. discriminate E.
    + exists (World (mem w) (tabs w) (log w) (tail (script w))), s, heads, cs.
      split_and!; try done.
      * eapply invariant_ext; [| |exact Hinv]; reflexivity.
      * cbn [mem script]. apply good_allocator_tail. assumption.
      * eapply at_most_mono; eauto.
    + apply (Hok _ Hrun). cbn [mem script]. rewrite Hs in Hgood.
      apply (good_allocator_take (mem w) _ p junk rest Hgood).
      intros b Hb Hnone. rewrite lookup_insert_ne by congruence. exact Hnone.
    + apply (Hok _ Hrun). cbn [mem script]. rewrite Hs in Hgood.
      destruct (lseg_lookup _ _ _ _ a n0 Hseg) as [Han _].
      { apply elem_of_app. right. left. }
      apply (good_allocator_take (mem w) _ p junk rest Hgood).
      intros b Hb Hnone. rewrite lookup_insert_ne.
      * rewrite lookup_insert_ne by congruence. exact Hnone.
      * intros ->. pose proof (eq_trans (eq_sym Han) Hnone) as E. discriminate E.
  - (* remove *)
    destruct (live_bucket s hf w t heads cs k Hlive) as (head & l & Hh & Hl & Hseg).
    pose proof (Forall_lookup_1 _ _ _ _ Hn Hl) as Hlen. simpl in Hlen.
    destruct (htable_remove_cases s hf q kc vc kf vf w t heads cs k fuel l
                Hhooks Hinv Hfuel Hl)
      as [[_ Hrun]|(l1 & a & n0 & l2 & w1 & s1 & heads1 & l' & -> & Hno & Hq & Hrun
                    & Hh1 & Hsz1 & Hc & _ & Hsub & _ & Hscr & Hinv1)];
      rewrite (bind_ok _ _ _ _ _ Hrun); cbv beta; [exact Hsame|].
    exists w1, s1, heads1, (<[slot s hf k := l']> cs). split_and!; try done.
    + rewrite Hscr. apply (good_allocator_shrink (mem w)); [assumption|].
      intros b Hb. destruct (mem w1 !! b) as [nb|] eqn:E; [|reflexivity].
      destruct (Hsub b nb E) as (_ & n1 & Hn1 & _).
      pose proof (eq_trans (eq_sym Hn1) Hb) as E'. discriminate E'.
    + apply (at_most_insert n); [assumption | lia |].
      rewrite <- (contents_length l'), Hc.
      pose proof (assoc_erase_length q k (contents (l1 ++ (a, n0) :: l2))) as Hle.
      rewrite contents_length in Hle. lia.
  - (* get *)
    destruct (live_bucket s hf w t heads cs k Hlive) as (head & l & Hh & Hl & Hseg).
    rewrite (bind_ok _ _ _ _ _
               (htable_get_find s hf q kc vc kf vf w t heads cs k l fuel Hhooks Hlive
                  Hfuel Hl)).
    exact Hsame.
Qed.

(** Any run on a table within the invariant, with a good allocator. *)
Lemma run_ops_invariant os : forall s w t heads cs n fuel,
  hooks s hf q kc vc kf vf -> invariant hf q w t s heads cs ->
  (forall x y, same q x y -> bucket_of hf (size s) x = bucket_of hf (size s) y) ->
  good_allocator (mem w) (script w) -> at_most n cs ->
  (n + length os < fuel)%nat ->
  exists w' s' heads' cs',
    run_ops fuel t os w = Ok (tt, w') /\
    hooks s' hf q kc vc kf vf /\ size s' = size s /\
    invariant hf q w' t s' heads' cs' /\
    good_allocator (mem w') (script w').
Proof using Hequiv Hcopy.
  induction os as [|o os IH]; intros s w t heads cs n fuel Hhooks Hinv Hhash Hgood
    Hn Hlt.
  - exists w, s, heads, cs. split_and!; done.
  - simpl in Hlt.
    destruct (run_op_invariant s w t heads cs n fuel o Hhooks Hinv Hhash Hgood Hn
                ltac:(lia))
      as (w1 & s1 & heads1 & cs1 & Hrun & Hh1 & Hsz1 & Hinv1 & Hgood1 & Hn1).
    destruct (IH s1 w1 t heads1 cs1 (S n) fuel Hh1 Hinv1) as
        (w' & s' & heads' & cs' & Hrun' & Hh' & Hsz' & Hinv' & Hgood').
    + rewrite Hsz1. exact Hhash.
    + exact Hgood1.
    + exact Hn1.
    + lia.
    + exists w', s', heads', cs'. split_and!; try done; [|congruence].
      cbn [run_ops]. rewrite (bind_ok _ _ _ _ _ Hrun). exact Hrun'.
Qed.

(** X25. Memory safety and the invariant along any run: from a table
    within the invariant, with an allocator whose blocks are unused,
    cleared and pairwise distinct (it may also refuse), any sequence of
    inserts, removes and gets returns without a fault, and leaves the
    table within the invariant, with the capacity it had. *)
Theorem invariant_kept_along_any_run os : forall s w t heads cs n fuel,
  hooks s hf q kc vc kf vf -> invariant hf q w t s heads cs ->
  (forall x y, same q x y -> bucket_of hf (size s) x = bucket_of hf (size s) y) ->
  good_allocator (mem w) (script w) -> at_most n cs ->
  (n + length os < fuel)%nat ->
  exists w' s' heads' cs',
    run_ops fuel t os w = Ok (tt, w') /\
    hooks s' hf q kc vc kf vf /\ size s' = size s /\
    invariant hf q w' t s' heads' cs' /\
    good_allocator (mem w') (script w').
Proof using Hequiv Hcopy. apply run_ops_invariant. Qed.
End Step.

Lemma invariant_kept_along_any_run_witness :
  exists w' s' heads' cs',
    run_ops 10 Demo.t DemoRun.ops DemoRun.w = Ok (tt, w') /\
    hooks s' Demo.hf Demo.q htable_default_copy htable_default_copy Demo.kf Demo.kf /\
    size s' = 2 /\
    invariant Demo.hf Demo.q w' Demo.t s' heads' cs' /\
    good_allocator (mem w') (script w').
Proof.
  apply (invariant_kept_along_any_run Demo.hf Demo.q htable_default_copy
           htable_default_copy Demo.kf Demo.kf demo_equiv demo_copy_respects
           DemoRun.ops Demo.s DemoRun.w Demo.t Demo.heads Demo.cs 2 10 demo_hooks).
  - apply (invariant_ext Demo.hf Demo.q Demo.w); [reflexivity..|exact demo_invariant].
  - exact demo_hash_respects.
  - split.
    + apply (bool_decide_unpack _). vm_compute. exact I.
    + repeat constructor.
  - repeat constructor.
  - simpl. lia.
Defined.
End TableRuns.

(** ** The map follows the table *)

Section Twins.
Variables (st : Table.htable_t) (sm : Map.htable_t) (cmp : Map.comp_func_t).
Hypothesis Htwin : twin st sm cmp.
Implicit Types (wt : Table.W) (wm : world Map.htable_t).

Lemma twin_get_scan k : forall fuel cur wt wm r wt',
  mem wt = mem wm ->
  Table.get_scan fuel st k cur wt = Ok (r, wt') ->
  Map.get_scan fuel sm k cur wm = Ok (r, wm).
Proof using Htwin.
  destruct Htwin as [_ _ _ _ Hcomp Hkeq _].
  induction fuel as [|fuel IH]; intros cur wt wm r wt' Hmem H; simpl in *;
    [discriminate H|].
  destruct (cur =? NULL) eqn:Hcur; cbn [negb] in *.
  { unfold ret in *. by simplify_eq. }
  unfold bind at 1, load in H. unfold bind at 1, load.
  rewrite Hcur in *. rewrite <- Hmem.
  destruct (mem wt !! cur) as [c|]; [|discriminate H].
  rewrite Hkeq in H. rewrite Hcomp. unfold bind at 1, fnptr, ret at 1 in H.
  unfold bind at 1, fnptr, ret at 1. unfold comp_as_keq in H.
  destruct (cmp (key c) k =? 0); cbn [Z.eqb negb] in H.
  - unfold ret in *. by simplify_eq.
  - eapply IH; eauto.
Qed.

Lemma twin_insert_scan k v : forall fuel cur wt wm r wt',
  mem wt = mem wm ->
  Table.insert_scan fuel st k v cur wt = Ok (r, wt') ->
  exists wm',
    Map.insert_scan fuel sm k v cur wm = Ok (r, wm') /\
    mem wt' = mem wm' /\ tabs wt' = tabs wt /\ tabs wm' = tabs wm /\
    script wt' = script wt /\ script wm' = script wm.
Proof using Htwin.
  destruct Htwin as [_ _ _ _ Hcomp Hkeq Hcbs].
  induction fuel as [|fuel IH]; intros cur wt wm r wt' Hmem H; simpl in *;
    [discriminate H|].
  unfold bind at 1, load in H. unfold bind at 1, load.
  destruct (cur =? NULL) eqn:Hcur; [discriminate H|]. rewrite <- Hmem.
  destruct (mem wt !! cur) as [c|] eqn:Hc; [|discriminate H].
  rewrite Hkeq in H. rewrite Hcomp. unfold bind at 1, fnptr at 1, ret at 1 in H.
  unfold bind at 1, fnptr at 1, ret at 1. unfold comp_as_keq in H.
  destruct (cmp (key c) k =? 0); cbn [Z.eqb negb] in H.
  - unfold Table.call_vfree in H. rewrite Hcbs in H.
    cbn [TableInv.installed Table.vfree Table.vcpy] in H.
    munfold_in H. rewrite Hcur, Hc in H. simplify_eq.
    munfold. rewrite Hcur, <- Hmem, Hc. eexists. split; [reflexivity|].
    cbn [mem tabs script]. rewrite Hmem. done.
  - destruct (next c =? NULL); cbn [negb] in *.
    + unfold ret in *. simplify_eq. eexists. split; [reflexivity|]. done.
    + eapply IH; eauto.
Qed.
End Twins.

Section TwinOps.
Variables (t : ptr) (cmp : Map.comp_func_t).
Implicit Types (wt : Table.W) (wm : world Map.htable_t).

Lemma twin_set_table st sm a :
  twin st sm cmp -> is_Some a ->
  twin (Table.set_table st a) (Map.set_table sm a) cmp.
Proof. intros [? ? ? ? ? ? ?] Ha. split; try assumption; try reflexivity. Qed.

Lemma twin_get_hash st sm wt wm k r wt' :
  twin st sm cmp -> t <> NULL ->
  tabs wt !! t = Some st -> tabs wm !! t = Some sm ->
  Table.get_hash t k wt = Ok (r, wt') ->
  wt' = wt /\ Map.get_hash t k wm = Ok (r, wm).
Proof.
  intros [_ _ Hsz Hhash _ _ _] Hp Ht Hm H. unfold Table.get_hash in H.
  unfold Map.get_hash.
  rewrite (bind_ok _ _ _ _ _ (load_table_ok t st wt Hp Ht)) in H.
  rewrite (bind_ok _ _ _ _ _ (load_table_ok t sm wm Hp Hm)).
  rewrite <- Hhash, <- Hsz.
  destruct (Table.hash st) as [hf|]; [|discriminate H].
  unfold bind, fnptr, ret in *. destruct (Table.size st =? 0); [discriminate H|].
  unfold ret in H. by simplify_eq.
Qed.

Lemma table_store_bucket_eval st (w : Table.W) arr idx p :
  t <> NULL -> tabs w !! t = Some st -> Table.table st = Some arr ->
  Table.store_bucket t idx p w =
    if bool_decide (Z.to_nat idx < length arr)%nat
    then Ok (tt, World (mem w)
                   (<[t := Table.set_table st (Some (<[Z.to_nat idx := p]> arr))]>
                      (tabs w)) (log w) (script w))
    else Undefined OutOfBounds.
Proof.
  intros Hp Ht Harr. unfold Table.store_bucket.
  rewrite (bind_ok _ _ _ _ _ (load_table_ok t st w Hp Ht)).
  rewrite Harr. destruct (bool_decide _); reflexivity.
Qed.

Lemma map_store_bucket_eval sm (w : world Map.htable_t) arr idx p :
  t <> NULL -> tabs w !! t = Some sm -> Map.table sm = Some arr ->
  Map.store_bucket t idx p w =
    if bool_decide (Z.to_nat idx < length arr)%nat
    then Ok (tt, World (mem w)
                   (<[t := Map.set_table sm (Some (<[Z.to_nat idx := p]> arr))]>
                      (tabs w)) (log w) (script w))
    else Undefined OutOfBounds.
Proof.
  intros Hp Ht Harr. unfold Map.store_bucket.
  rewrite (bind_ok _ _ _ _ _ (load_table_ok t sm w Hp Ht)).
  rewrite Harr. destruct (bool_decide _); reflexivity.
Qed.

Lemma twin_remove_scan st sm k hk : forall fuel cur prev wt wm r wt',
  twin st sm cmp -> t <> NULL ->
  mem wt = mem wm -> script wt = script wm ->
  tabs wt !! t = Some st -> tabs wm !! t = Some sm ->
  Table.remove_scan fuel t st k hk cur prev wt = Ok (r, wt') ->
  exists wm',
    Map.remove_scan fuel t sm k hk cur prev wm = Ok (r, wm') /\
    twins t cmp wt' wm'.
Proof.
  induction fuel as [|fuel IH]; intros cur prev wt wm r wt' Htwin Hp Hmem Hscr Ht Hm H;
    simpl in *; [discriminate H|].
  pose proof Htwin as [Htab [arr Harr] Hsz Hhash Hcomp Hkeq Hcbs].
  destruct (cur =? NULL) eqn:Hcur; cbn [negb] in *.
  { unfold ret in *. simplify_eq. exists wm. split; [reflexivity|].
    split_and!; try assumption. eauto. }
  unfold bind at 1, load in H. unfold bind at 1, load.
  rewrite Hcur in *. rewrite <- Hmem.
  destruct (mem wt !! cur) as [c|] eqn:Hc; [|discriminate H].
  rewrite Hkeq in H. rewrite Hcomp. unfold bind at 1, fnptr at 1, ret at 1 in H.
  unfold bind at 1, fnptr at 1, ret at 1. unfold comp_as_keq in H.
  destruct (cmp (key c) k =? 0); cbn [Z.eqb negb] in H; [|eapply IH; eauto].
  unfold Table.call_kfree, Table.call_vfree in H. rewrite Hcbs in H.
  cbn [TableInv.installed Table.vfree Table.kfree] in H.
  destruct (prev =? NULL) eqn:Hprev.
  - unfold bind at 1 in H. unfold bind at 1.
    rewrite (table_store_bucket_eval st wt arr hk (next c) Hp Ht Harr) in H.
    rewrite (map_store_bucket_eval sm wm arr hk (next c) Hp Hm
               (eq_trans (eq_sym Htab) Harr)).
    destruct (bool_decide (Z.to_nat hk < length arr)%nat); [|discriminate H].
    munfold_in H. simplify_eq. munfold. eexists. split; [reflexivity|].
    split_and!; cbn [mem tabs script]; try congruence.
    eexists _, _. rewrite !lookup_insert_eq. split_and!; try reflexivity.
    apply twin_set_table; eauto.
  - munfold_in H. rewrite Hprev in H.
    destruct (mem wt !! prev) as [pn|] eqn:Hpn; [|discriminate H].
    simplify_eq. munfold. rewrite Hprev, <- Hmem, Hpn.
    eexists. split; [reflexivity|].
    split_and!; cbn [mem tabs script]; try congruence. eauto.
Qed.

Lemma twin_htable_insert wt wm fuel k v r wt' :
  twins t cmp wt wm -> t <> NULL -> v <> NULL ->
  Table.htable_insert fuel t k v wt = Ok (r, wt') ->
  exists wm',
    Map.htable_insert fuel t k v wm = Ok (map_status r, wm') /\
    twins t cmp wt' wm'.
Proof.
  intros (Hmem & Hscr & st & sm & Ht & Hm & Htwin) Hp Hv H.
  pose proof Htwin as [Htab [arr Harr] Hsz Hhash Hcomp Hkeq Hcbs].
  unfold Table.htable_insert in H.
  rewrite (eqb_null_ne t Hp) in H.
  rewrite (bind_ok _ _ _ _ _ (load_table_ok t st wt Hp Ht)) in H.
  rewrite Harr, (eqb_null_ne v Hv) in H.
  unfold bind at 1 in H.
  destruct (Table.get_hash t k wt) as [[hk w0]| | |] eqn:Hgh; try discriminate H.
  destruct (twin_get_hash st sm wt wm k hk w0 Htwin Hp Ht Hm Hgh) as [-> Hghm].
  unfold bind at 1, bucket_at in H.
  destruct (arr !! Z.to_nat hk) as [cur|] eqn:Hcur; [|discriminate H].
  unfold ret at 1 in H.
  rewrite Hcbs in H. cbn [TableInv.installed Table.kcpy Table.vcpy] in H.
  assert (forall wm0 (rest : Z -> M Map.htable_t Z),
            Map.htable_insert fuel t k v wm = 
            (current <- bucket_at arr hk ;; 
             if current =? NULL then
        new_node <- malloc ;;
        if new_node =? NULL then ret (-1)
        else
          store_key new_node k ;;
          store_value new_node v ;;
          store_next new_node NULL ;;
          Map.store_bucket t hk new_node ;;
          ret 0
      else
        r <- Map.insert_scan fuel sm k v current ;;
        match r with
        | inl code => ret code
        | inr prev =>
            new_node <- malloc ;;
            if new_node =? NULL then ret (-1)
            else
              store_key new_node k ;;
              store_value new_node v ;;
              store_next prev new_node ;;
              ret 0
        end) wm) as HM.
  { intros _ _. unfold Map.htable_insert.
    unfold assert at 1. rewrite (eqb_null_ne t Hp). cbn [negb]. unfold bind at 1.
    rewrite (bind_ok _ _ _ _ _ (load_table_ok t sm wm Hp Hm)).
    rewrite <- Htab, Harr. rewrite bool_decide_eq_true_2 by eauto.
    rewrite (eqb_null_ne v Hv). cbn [negb andb]. unfold assert at 1, bind at 1.
    rewrite (bind_ok _ _ _ _ _ Hghm). reflexivity. }
  rewrite (HM wm (fun _ => ret 0)). clear HM.
  unfold bind at 1, bucket_at. rewrite Hcur. unfold ret at 1.
  assert (twins t cmp wt wm) as Htw0 by (split_and!; eauto 10).
  assert (Z.to_nat hk < length arr)%nat as Hin by (eapply lookup_lt_Some; eauto).
  destruct (cur =? NULL) eqn:Hnull.
  - (* an empty bucket *)
    unfold bind at 1, malloc at 1 in H. unfold bind at 1, malloc at 1.
    rewrite <- Hscr.
    destruct (script wt) as [|[|p junk] rest] eqn:Hs.
    + change (NULL =? NULL) with true in *. unfold ret in H. simplify_eq.
      eexists. split; [reflexivity|]. exact Htw0.
    + change (NULL =? NULL) with true in *. unfold ret in H. simplify_eq.
      eexists. split; [reflexivity|].
      split_and!; cbn [mem tabs script]; eauto 10.
    + destruct (p =? NULL) eqn:Hpn.
      { change (NULL =? NULL) with true in *. unfold ret in H. simplify_eq.
        eexists. split; [reflexivity|].
        split_and!; cbn [mem tabs script]; eauto 10. }
      rewrite Hpn in *.
      munfold_in H. rewrite Hpn in H.
      repeat (rewrite lookup_insert_eq in H; cbn [mem tabs log script] in H;
              try rewrite Hpn in H).
      munfold. rewrite Hpn.
      repeat (rewrite lookup_insert_eq; cbn [mem tabs log script]; try rewrite Hpn).
      match type of H with context [Table.store_bucket t hk p ?W] =>
        rewrite (table_store_bucket_eval st W arr hk p Hp Ht Harr) in H end.
      match goal with |- context [Map.store_bucket t hk p ?W] =>
        rewrite (map_store_bucket_eval sm W arr hk p Hp Hm
                   (eq_trans (eq_sym Htab) Harr)) end.
      rewrite bool_decide_eq_true_2 in * by exact Hin.
      unfold Table.htable_default_copy in H. simplify_eq. eexists. split; [reflexivity|].
      split_and!; cbn [mem tabs script]; [rewrite Hmem; reflexivity | reflexivity |].
      eexists _, _. rewrite !lookup_insert_eq. split_and!; try reflexivity.
      apply twin_set_table; eauto.
  - (* a chain to search *)
    unfold bind at 1 in H.
    destruct (Table.insert_scan fuel st k v cur wt) as [[rs w1]| | |] eqn:Hscan;
      try discriminate H.
    destruct (twin_insert_scan st sm cmp Htwin k v fuel cur wt wm rs w1 Hmem Hscan)
      as (wm1 & Hscanm & Hmem1 & Htabs1 & Htabsm1 & Hscr1 & Hscrm1).
    rewrite (bind_ok _ _ _ _ _ Hscanm).
    assert (twins t cmp w1 wm1) as Htw1.
    { split_and!; [assumption | congruence |].
      exists st, sm. rewrite Htabs1, Htabsm1. auto. }
    destruct rs as [code|prev].
    + apply insert_scan_inl in Hscan as ->. unfold ret in H. simplify_eq.
      eexists. split; [reflexivity|]. exact Htw1.
    + unfold bind at 1, malloc at 1 in H. unfold bind at 1, malloc at 1.
      assert (script wm1 = script w1) as Hscr' by congruence. rewrite Hscr'.
      destruct (script w1) as [|[|p junk] rest] eqn:Hs.
      * change (NULL =? NULL) with true in *. unfold ret in H. simplify_eq.
        eexists. split; [reflexivity|]. exact Htw1.
      * change (NULL =? NULL) with true in *. unfold ret in H. simplify_eq.
        eexists. split; [reflexivity|].
        destruct Htw1 as (? & ? & ?). split_and!; cbn [mem tabs script]; eauto.
      * destruct (p =? NULL) eqn:Hpn.
        { change (NULL =? NULL) with true in *. unfold ret in H. simplify_eq.
          eexists. split; [reflexivity|].
          destruct Htw1 as (? & ? & ?). split_and!; cbn [mem tabs script]; eauto. }
        rewrite Hpn in *.
        munfold_in H. rewrite Hpn in H.
        repeat (rewrite lookup_insert_eq in H; cbn [mem tabs log script] in H;
                try rewrite Hpn in H).
        munfold. rewrite Hpn.
        repeat (rewrite lookup_insert_eq; cbn [mem tabs log script]; try rewrite Hpn).
        rewrite <- Hmem1.
        unfold Table.htable_default_copy in H.
        destruct (prev =? NULL); [discriminate H|].
        match type of H with
        | context [?m !! prev] => destruct (m !! prev) as [pn|]; [|discriminate H]
        end.
        simplify_eq. eexists. split; [reflexivity|].
        destruct Htw1 as (? & ? & ?). split_and!; cbn [mem tabs script]; eauto.
Qed.
Lemma twin_htable_get wt wm fuel k r wt' :
  twins t cmp wt wm -> t <> NULL ->
  Table.htable_get fuel t k wt = Ok (r, wt') ->
  wt' = wt /\ Map.htable_get fuel t k wm = Ok (r, wm).
Proof.
  intros (Hmem & Hscr & st & sm & Ht & Hm & Htwin) Hp H.
  split; [exact (htable_get_pure _ _ _ _ _ _ H)|].
  pose proof Htwin as [Htab [arr Harr] Hsz Hhash Hcomp Hkeq Hcbs].
  unfold Table.htable_get in H. unfold Map.htable_get.
  rewrite (eqb_null_ne t Hp) in H.
  unfold assert at 1. rewrite (eqb_null_ne t Hp). cbn [negb]. unfold bind at 1.
  rewrite (bind_ok _ _ _ _ _ (load_table_ok t st wt Hp Ht)) in H.
  rewrite (bind_ok _ _ _ _ _ (load_table_ok t sm wm Hp Hm)).
  rewrite <- Htab. rewrite Harr in *. rewrite bool_decide_eq_true_2 by eauto.
  unfold assert at 1, bind at 1.
  unfold bind at 1 in H.
  destruct (Table.get_hash t k wt) as [[hk w0]| | |] eqn:Hgh; try discriminate H.
  destruct (twin_get_hash st sm wt wm k hk w0 Htwin Hp Ht Hm Hgh) as [-> Hghm].
  rewrite (bind_ok _ _ _ _ _ Hghm).
  unfold bind at 1, bucket_at in H. unfold bind at 1, bucket_at.
  destruct (arr !! Z.to_nat hk) as [cur|]; [|discriminate H].
  unfold ret at 1 in H. unfold ret at 1.
  eapply twin_get_scan; eauto.
Qed.

Lemma twin_htable_remove wt wm fuel k r wt' :
  twins t cmp wt wm -> t <> NULL ->
  Table.htable_remove fuel t k wt = Ok (r, wt') ->
  exists wm',
    Map.htable_remove fuel t k wm = Ok (r, wm') /\ twins t cmp wt' wm'.
Proof.
  intros (Hmem & Hscr & st & sm & Ht & Hm & Htwin) Hp H.
  pose proof Htwin as [Htab [arr Harr] Hsz Hhash Hcomp Hkeq Hcbs].
  unfold Table.htable_remove in H. unfold Map.htable_remove.
  rewrite (eqb_null_ne t Hp) in H.
  unfold assert at 1. rewrite (eqb_null_ne t Hp). cbn [negb]. unfold bind at 1.
  rewrite (bind_ok _ _ _ _ _ (load_table_ok t st wt Hp Ht)) in H.
  rewrite (bind_ok _ _ _ _ _ (load_table_ok t sm wm Hp Hm)).
  rewrite <- Htab. rewrite Harr in *. rewrite bool_decide_eq_true_2 by eauto.
  unfold assert at 1, bind at 1.
  unfold bind at 1 in H.
  destruct (Table.get_hash t k wt) as [[hk w0]| | |] eqn:Hgh; try discriminate H.
  destruct (twin_get_hash st sm wt wm k hk w0 Htwin Hp Ht Hm Hgh) as [-> Hghm].
  rewrite (bind_ok _ _ _ _ _ Hghm).
  unfold bind at 1, bucket_at in H. unfold bind at 1, bucket_at.
  destruct (arr !! Z.to_nat hk) as [cur|]; [|discriminate H].
  unfold ret at 1 in H. unfold ret at 1.
  eapply twin_remove_scan; eauto.
Qed.

(** X26. The map follows the table.  A table that stores by reference
    and a map, over the same heap and allocator, with the same bucket
    array, capacity and hash function, and [keq] non-zero exactly
    where [comp] is zero, stay in step: whenever the table's
    [htable_get], [htable_insert] (of a non-NULL value) or
    [htable_remove] returns, the map's returns as well, with the same
    value or status (-1 where the table reports -2), the same heap and
    the same bucket array afterwards. *)
Theorem map_follows_table wt wm fuel k v :
  twins t cmp wt wm -> t <> NULL ->
  (forall r wt', Table.htable_get fuel t k wt = Ok (r, wt') ->
     wt' = wt /\ Map.htable_get fuel t k wm = Ok (r, wm)) /\
  (forall r wt', v <> NULL -> Table.htable_insert fuel t k v wt = Ok (r, wt') ->
     exists wm',
       Map.htable_insert fuel t k v wm = Ok (map_status r, wm') /\
       twins t cmp wt' wm') /\
  (forall r wt', Table.htable_remove fuel t k wt = Ok (r, wt') ->
     exists wm',
       Map.htable_remove fuel t k wm = Ok (r, wm') /\ twins t cmp wt' wm').
Proof.
  intros Htw Hp. split_and!.
  - intros r wt'. apply twin_htable_get; assumption.
  - intros r wt' Hv. apply twin_htable_insert; assumption.
  - intros r wt'. apply twin_htable_remove; assumption.
Qed.
End TwinOps.

Lemma map_follows_table_witness :
  exists wt' wm',
    Table.htable_insert 3 Demo.t 6 60 DemoTwin.wt = Ok (0, wt') /\
    Map.htable_insert 3 DemoMap.t 6 60 DemoMap.w = Ok (0, wm') /\
    twins Demo.t DemoMap.cmp wt' wm'.
Proof.
  eassert (Table.htable_insert 3 Demo.t 6 60 DemoTwin.wt = Ok (0, _)) as Hrun
    by (vm_compute; reflexivity).
  destruct (map_follows_table Demo.t DemoMap.cmp DemoTwin.wt DemoMap.w 3 6 60)
    as (_ & Hins & _).
  - split_and!; [reflexivity..|].
    exists DemoTwin.st, DemoMap.s. split_and!; [reflexivity..|].
    split; try reflexivity. eexists; reflexivity.
  - discriminate.
  - destruct (Hins 0 _ ltac:(discriminate) Hrun) as (wm' & Hm & Htw).
    eexists _, wm'. split; [exact Hrun|]. split; [exact Hm | exact Htw].
Defined.

(** ** The map along any run *)

Section MapRuns.
Import Table.
Variables (t : ptr) (cmp : Map.comp_func_t).
Hypothesis Hp : t <> NULL.
Implicit Types (wt : W) (wm : world Map.htable_t).

(** A run of the table that returns is a run of the map that returns. *)
Lemma twin_run_ops fuel os : forall wt wm wt',
  twins t cmp wt wm -> values_given os ->
  run_ops fuel t os wt = Ok (tt, wt') ->
  exists wm', map_run_ops fuel t os wm = Ok (tt, wm') /\ twins t cmp wt' wm'.
Proof using Hp.
  induction os as [|o os IH]; intros wt wm wt' Htw Hvals H; simpl in *.
  - unfold ret in *. simplify_eq. eauto.
  - apply Forall_cons in Hvals as [Hv Hvals].
    unfold bind at 1 in H.
    destruct (run_op fuel t o wt) as [[[] wt1]| | |] eqn:Hop; try discriminate H.
    assert (exists wm1, map_run_op fuel t o wm = Ok (tt, wm1) /\ twins t cmp wt1 wm1)
      as (wm1 & Hopm & Htw1).
    { destruct o as [k v|k|k]; unfold run_op, bind at 1 in Hop;
        unfold map_run_op.
      - destruct (htable_insert fuel t k v wt) as [[r w2]| | |] eqn:Hi;
          try discriminate Hop. unfold ret in Hop. simplify_eq.
        destruct (twin_htable_insert t cmp wt wm fuel k v r wt1 Htw Hp Hv Hi)
          as (wm1 & Hm & Htw1).
        exists wm1. rewrite (bind_ok _ _ _ _ _ Hm). auto.
      - destruct (htable_remove fuel t k wt) as [[r w2]| | |] eqn:Hi;
          try discriminate Hop. unfold ret in Hop. simplify_eq.
        destruct (twin_htable_remove t cmp wt wm fuel k r wt1 Htw Hp Hi)
          as (wm1 & Hm & Htw1).
        exists wm1. rewrite (bind_ok _ _ _ _ _ Hm). auto.
      - destruct (htable_get fuel t k wt) as [[r w2]| | |] eqn:Hi;
          try discriminate Hop. unfold ret in Hop. simplify_eq.
        destruct (twin_htable_get t cmp wt wm fuel k r wt1 Htw Hp Hi) as [-> Hm].
        exists wm. rewrite (bind_ok _ _ _ _ _ Hm). auto. }
    destruct (IH wt1 wm1 wt' Htw1 Hvals H) as (wm' & Hrun & Htw').
    exists wm'. rewrite (bind_ok _ _ _ _ _ Hopm). auto.
Qed.

Lemma same_comp_as_keq a b : TableInv.same (comp_as_keq cmp) a b <-> MapInv.same cmp a b.
Proof.
  unfold TableInv.same, MapInv.same, comp_as_keq.
  destruct (Z.eqb_spec (cmp a b) 0); split; intros; (done || lia).
Qed.

Lemma equivalence_comp_as_keq :
  Equivalence (MapInv.same cmp) -> Equivalence (TableInv.same (comp_as_keq cmp)).
Proof.
  intros [Hr Hs Ht]. split.
  - intros x. apply same_comp_as_keq. apply Hr.
  - intros x y H. apply same_comp_as_keq. apply Hs. apply same_comp_as_keq. exact H.
  - intros x y z H1 H2. apply same_comp_as_keq.
    apply (Ht x y z); apply same_comp_as_keq; assumption.
Qed.

(** X27. Memory safety of the map along any run.  Take a map whose
    [comp] induces an equivalence that the hash function respects,
    whose buckets hold null-terminated chains that own the heap, with
    every node in the bucket of its key and no key twice (stated on the
    table that is its twin), and an allocator whose blocks are unused,
    cleared and pairwise distinct.  Then any sequence of inserts of
    non-NULL values, removes and gets on the map returns: no assertion
    fails, nothing undefined is done, no loop runs on. *)
Theorem map_runs_without_fault hf st sm heads cs n fuel os wt wm :
  twins t cmp wt wm -> tabs wt !! t = Some st -> tabs wm !! t = Some sm ->
  Map.hash sm = Some hf ->
  TableInv.invariant hf (comp_as_keq cmp) wt t st heads cs ->
  Equivalence (MapInv.same cmp) ->
  (forall x y, MapInv.same cmp x y ->
     bucket_of hf (Map.size sm) x = bucket_of hf (Map.size sm) y) ->
  good_allocator (mem wm) (script wm) -> at_most n cs ->
  (n + length os < fuel)%nat -> values_given os ->
  exists wm', map_run_ops fuel t os wm = Ok (tt, wm').
Proof using Hp.
  intros Htw Ht Hm Hhash Hinv Hequiv Hresp Hgood Hn Hlt Hvals.
  pose proof Htw as (Hmem & Hscr & st' & sm' & Ht' & Hm' & Htwin).
  pose proof (eq_trans (eq_sym Ht') Ht) as E. injection E as ->.
  pose proof (eq_trans (eq_sym Hm') Hm) as E. injection E as ->.
  destruct Htwin as [Htab Harr Hsz Hh Hcomp Hkeq Hcbs].
  pose proof (equivalence_comp_as_keq Hequiv) as Hequiv'.
  assert (TableInv.hooks st hf (comp_as_keq cmp) htable_default_copy
            htable_default_copy htable_default_free htable_default_free) as Hhooks.
  { split; [exact (eq_trans Hh Hhash) | exact Hkeq | rewrite Hcbs; reflexivity..]. }
  destruct (run_ops_invariant hf (comp_as_keq cmp) htable_default_copy
              htable_default_copy htable_default_free htable_default_free Hequiv'
              ltac:(intros x; reflexivity) os st wt t heads cs n fuel Hhooks Hinv)
    as (wt' & _ & _ & _ & Hrun & _).
  - intros x y Hxy. rewrite Hsz. apply Hresp. apply same_comp_as_keq. exact Hxy.
  - rewrite Hmem, Hscr. exact Hgood.
  - exact Hn.
  - exact Hlt.
  - destruct (twin_run_ops fuel os wt wm wt' Htw Hvals Hrun) as (wm' & Hrunm & _).
    eauto.
Qed.
End MapRuns.

Section MapRunsWitness.
Import Table TableInv.

Lemma demotwin_same a b : same (comp_as_keq DemoMap.cmp) a b <-> a = b.
Proof.
  unfold same, comp_as_keq, DemoMap.cmp.
  destruct (Z.eqb_spec (a - b) 0); split; intros; (done || lia).
Qed.

Lemma demotwin_invariant :
  invariant Demo.hf (comp_as_keq DemoMap.cmp) DemoTwin.wt_clean Demo.t DemoTwin.st
            Demo.heads Demo.cs.
Proof.
  split_and!.
  - split; [split; [discriminate | reflexivity..]|].
    repeat constructor; discriminate.
  - exact demo_owned.
  - exact demo_placed.
  - intros a1 n1 a2 n2 H1 H2 Hs. apply (demo_uniq a1 n1 a2 n2 H1 H2).
    apply demo_same. apply demotwin_same. exact Hs.
Qed.

Lemma map_runs_without_fault_witness :
  exists wm', map_run_ops 10 Demo.t DemoTwin.ops DemoTwin.wm_clean = Ok (tt, wm').
Proof.
  apply (map_runs_without_fault Demo.t DemoMap.cmp ltac:(discriminate) Demo.hf
           DemoTwin.st DemoMap.s Demo.heads Demo.cs 2 10 DemoTwin.ops
           DemoTwin.wt_clean DemoTwin.wm_clean).
  - split_and!; [reflexivity..|].
    exists DemoTwin.st, DemoMap.s. split_and!; [reflexivity..|].
    split; try reflexivity. eexists; reflexivity.
  - reflexivity.
  - reflexivity.
  - reflexivity.
  - exact demotwin_invariant.
  - split.
    + intros x. unfold MapInv.same, DemoMap.cmp. lia.
    + intros x y. unfold MapInv.same, DemoMap.cmp. lia.
    + intros x y z. unfold MapInv.same, DemoMap.cmp. lia.
  - intros x y H. unfold MapInv.same, DemoMap.cmp in H.
    assert (x = y) as -> by lia. reflexivity.
  - split.
    + apply (bool_decide_unpack _). vm_compute. exact I.
    + repeat constructor.
  - repeat constructor.
  - simpl. lia.
  - repeat constructor; discriminate.
Defined.
End MapRunsWitness.
